(** * Tensor transformations: flip, roll, rot90 and the atleast_Nd helpers

    A shallow embedding of [aten/src/ATen/native/TensorTransformations.cpp].

    Conventions.
    - A tensor is a view (storage, offset, sizes, strides, dtype) over a heap
      of typed buffers; operations that allocate run in a state monad over
      that heap, and an exception leaves the heap as it was when raised.
    - [int64_t] scalars supplied by the caller (shifts, rotation axes) wrap
      modulo 2^64 where the source subtracts them.  Offsets into a storage
      are sums of coordinate-by-stride products of a view whose cells all
      lie inside a buffer, so they are computed in [Z]; an access outside
      the buffer is the error [OutOfBounds].
    - [at::parallel_for] and the iterator's [for_each] are run on their
      sequential schedule: chunks write disjoint cells. *)

From Stdlib Require Import ZArith Lia.
From stdpp Require Import base tactics option list list_numbers gmap.

Local Open Scope Z_scope.

(** ** 64-bit signed integers *)

Module Int64.
Definition min_signed : Z := - 2 ^ 63.
Definition max_signed : Z := 2 ^ 63 - 1.
Definition in_range (z : Z) : Prop := min_signed ≤ z ≤ max_signed.
Definition wrap (z : Z) : Z := (z + 2 ^ 63) mod 2 ^ 64 - 2 ^ 63.
Definition sub (a b : Z) : Z := wrap (a - b).
Definition abs (a : Z) : Z := wrap (Z.abs a).
End Int64.

(** ** Element types and the dispatch macros *)

Inductive ScalarType :=
  | kByte | kChar | kShort | kInt | kLong | kHalf | kFloat | kDouble
  | kComplexHalf | kComplexFloat | kComplexDouble | kBool
  | kQInt8 | kQUInt8 | kQInt32 | kBFloat16 | kQUInt4x2.

Global Instance ScalarType_eq_dec : EqDecision ScalarType.
Proof. solve_decision. Defined.

(** Modelled from the spec: [sizeof] of each element type, which the source
    reads through [element_size()] and the [scalar_t] of a dispatch. *)
Definition element_size (t : ScalarType) : Z :=
  match t with
  | kByte | kChar | kBool | kQInt8 | kQUInt8 | kQUInt4x2 => 1
  | kShort | kHalf | kBFloat16 => 2
  | kInt | kFloat | kQInt32 | kComplexHalf => 4
  | kLong | kDouble | kComplexFloat => 8
  | kComplexDouble => 16
  end.

Definition is_qint (t : ScalarType) : bool :=
  match t with
  | kQInt8 | kQUInt8 | kQInt32 | kQUInt4x2 => true
  | _ => false
  end.

(** ** Errors *)

Inductive error :=
  | InvalidArgument   (* a failed TORCH_CHECK *)
  | NotImplemented    (* a dispatch macro met a type outside its list *)
  | OutOfBounds       (* an access outside the object pointed into *)
  | Uninitialised.    (* a read of a cell of [at::empty] never written *)

Inductive result (A : Type) :=
  | Ok (a : A)
  | Err (e : error).
Arguments Ok {A} a.
Arguments Err {A} e.

Global Instance result_ret : MRet result := λ A a, Ok a.
Global Instance result_bind : MBind result := λ A B f r,
  match r with Ok a => f a | Err e => Err e end.

Definition TORCH_CHECK (c : bool) : result unit :=
  if c then Ok () else Err InvalidArgument.

(** ** Memory *)

Definition loc := nat.

Record buffer := Buffer { width : Z; cells : list (option Z) }.

Record ptr := Ptr { ploc : loc; poff : Z }.

Definition ptr_add (p : ptr) (k : Z) : ptr := Ptr (ploc p) (poff p + k).
Infix "+ₚ" := ptr_add (at level 50, left associativity).

(** Computations over the heap.  The heap that comes back with an error is
    the heap at the moment the error was raised. *)
Definition M (A : Type) : Type := gmap loc buffer → result A * gmap loc buffer.

Global Instance M_ret : MRet M := λ A a h, (Ok a, h).
Global Instance M_bind : MBind M := λ A B f m h,
  match m h with
  | (Ok a, h') => f a h'
  | (Err e, h') => (Err e, h')
  end.

Definition lift {A} (r : result A) : M A := λ h, (r, h).
Definition throw {A} (e : error) : M A := λ h, (Err e, h).

Fixpoint forM_ {A} (l : list A) (f : A → M unit) : M unit :=
  match l with
  | [] => mret ()
  | x :: l' => f x ≫= λ _, forM_ l' f
  end.

Definition cell_index (w off : Z) : option nat :=
  if decide (0 < w ∧ 0 ≤ off ∧ off mod w = 0) then Some (Z.to_nat (off / w)) else None.

(** [*(T* )p] for a type [T] of [w] bytes. *)
Definition load (w : Z) (p : ptr) : M Z := λ h,
  match h !! ploc p with
  | Some b =>
      if decide (width b = w) then
        match cell_index w (poff p) ≫= λ k, cells b !! k with
        | Some (Some v) => (Ok v, h)
        | Some None => (Err Uninitialised, h)
        | None => (Err OutOfBounds, h)
        end
      else (Err OutOfBounds, h)
  | None => (Err OutOfBounds, h)
  end.

(** [*(T* )p = v]. *)
Definition store (w : Z) (p : ptr) (v : Z) : M unit := λ h,
  match h !! ploc p with
  | Some b =>
      if decide (width b = w) then
        match cell_index w (poff p) with
        | Some k =>
            if decide (k < length (cells b))%nat
            then (Ok (), <[ploc p := Buffer w (<[k := Some v]> (cells b))]> h)
            else (Err OutOfBounds, h)
        | None => (Err OutOfBounds, h)
        end
      else (Err OutOfBounds, h)
  | None => (Err OutOfBounds, h)
  end.

(** ** Tensors *)

Record Tensor := mkTensor {
  storage : loc;
  storage_offset : Z;
  sizes : list Z;
  strides : list Z;
  dtype : ScalarType
}.

Definition dim (t : Tensor) : Z := Z.of_nat (length (sizes t)).

Definition numel_of (shape : list Z) : Z := foldr Z.mul 1 shape.

Definition numel (t : Tensor) : Z := numel_of (sizes t).

Definition is_quantized (t : Tensor) : bool := is_qint (dtype t).

Definition data_ptr (t : Tensor) : ptr :=
  Ptr (storage t) (storage_offset t * element_size (dtype t)).

(** [v[i]] on a [std::vector] or [IntArrayRef] whose index the caller keeps
    in range; outside it the access is an error. *)
Definition at_ {A} (l : list A) (i : Z) : result A :=
  if decide (0 ≤ i) then
    match l !! Z.to_nat i with Some x => Ok x | None => Err OutOfBounds end
  else Err OutOfBounds.

(** ** Shapes, coordinates and offsets *)

(** All coordinate vectors of a shape, in row-major order. *)
Fixpoint indices (shape : list Z) : list (list Z) :=
  match shape with
  | [] => [[]]
  | n :: rest => seqZ 0 n ≫= λ c, (c ::.) <$> indices rest
  end.

Fixpoint offset_of (strides idx : list Z) : Z :=
  match strides, idx with
  | s :: ss, c :: cs => c * s + offset_of ss cs
  | _, _ => 0
  end.

(** The strides a buffer of this shape has when laid out row-major; this is
    the loop that fills [stride_contiguous_v] in [flip_old_cpu]. *)
Fixpoint stride_contiguous (shape : list Z) : list Z :=
  match shape with
  | [] => []
  | _ :: rest =>
      match rest with
      | [] => [1]
      | n :: _ =>
          let v := stride_contiguous rest in
          Z.max n 1 * default 1 (head v) :: v
      end
  end.

(** Address of the element at coordinates [idx]. *)
Definition elem_ptr (t : Tensor) (idx : list Z) : ptr :=
  data_ptr t +ₚ offset_of (strides t) idx * element_size (dtype t).

(** ** The array library

    The view and allocation primitives are collaborators of this file
    (§6 of the specification); each is modelled from its contract there. *)

(** Modelled from the spec: §4.1, an axis [d] is normalised by adding the
    rank when negative and rejected when the result leaves [0, rank). *)
Definition maybe_wrap_dim (d ndims : Z) : result Z :=
  let d' := if decide (d < 0) then d + ndims else d in
  if decide (0 ≤ d' < ndims) then Ok d' else Err InvalidArgument.

Definition dim_bitset_size : Z := 64.

Fixpoint dim_list_to_bitset_loop (dims : list Z) (ndims seen : Z) : result Z :=
  match dims with
  | [] => Ok seen
  | d :: ds =>
      d' ← maybe_wrap_dim d ndims;
      TORCH_CHECK (negb (Z.testbit seen d'));;
      dim_list_to_bitset_loop ds ndims (Z.setbit seen d')
  end.

(** Modelled from the spec: [at::dim_list_to_bitset] of
    [ATen/WrapDimUtilsMulti.h], §3 and §4.1: a 64-bit set of the normalised
    axes; a rank above the width, an axis out of range or a duplicate axis
    is an [InvalidArgument]. *)
Definition dim_list_to_bitset (dims : list Z) (ndims : Z) : result Z :=
  TORCH_CHECK (bool_decide (ndims ≤ dim_bitset_size));;
  dim_list_to_bitset_loop dims ndims 0.

(** [self.size(d)] and [self.stride(d)]. *)
Definition size (t : Tensor) (d : Z) : result Z :=
  d' ← maybe_wrap_dim d (dim t); at_ (sizes t) d'.
Definition stride (t : Tensor) (d : Z) : result Z :=
  d' ← maybe_wrap_dim d (dim t); at_ (strides t) d'.

Definition alloc (b : buffer) : M loc := λ h,
  let l := fresh (dom h) in (Ok l, <[l := b]> h).

(** Modelled from the spec: §6 [allocate(shape, dtype) -> contiguous array];
    the cells of the new buffer hold no value yet. *)
Definition empty (shape : list Z) (dt : ScalarType) : M Tensor :=
  l ← alloc (Buffer (element_size dt) (replicate (Z.to_nat (numel_of shape)) None));
  mret (mkTensor l 0 shape (stride_contiguous shape) dt).

Inductive MemoryFormat := Contiguous | Preserve.

(** The cells of a view fill a block of [numel] cells, each once. *)
Definition non_overlapping_and_dense (t : Tensor) : bool :=
  let offs := offset_of (strides t) <$> indices (sizes t) in
  bool_decide (NoDup offs ∧ Forall (λ o, 0 ≤ o < numel t) offs).

(** Modelled from the spec: [at::empty_like]; the contiguous format gives
    the dense row-major layout, [Preserve] keeps the strides of a dense
    view ("a structural copy unchanged", §4.7). *)
Definition empty_like (self : Tensor) (fmt : MemoryFormat) : M Tensor :=
  out ← empty (sizes self) (dtype self);
  match fmt with
  | Contiguous => mret out
  | Preserve =>
      if non_overlapping_and_dense self
      then mret (mkTensor (storage out) 0 (sizes self) (strides self) (dtype self))
      else mret out
  end.

(** Modelled from the spec: element-wise copy between two views of one
    shape, the data movement behind [clone] and [cat]. *)
Definition copy_ (dst src : Tensor) : M unit :=
  lift (TORCH_CHECK (bool_decide (sizes dst = sizes src ∧ dtype dst = dtype src)));;
  forM_ (indices (sizes dst)) (λ idx,
    v ← load (element_size (dtype src)) (elem_ptr src idx);
    store (element_size (dtype dst)) (elem_ptr dst idx) v).

(** Modelled from the spec: [clone], a deep copy into a fresh buffer. *)
Definition clone (self : Tensor) (fmt : MemoryFormat) : M Tensor :=
  out ← empty_like self fmt;
  copy_ out self;;
  mret out.

(** Modelled from the spec: §6 [view_as_strided(shape, strides) -> view]. *)
Definition as_strided (self : Tensor) (shape strides' : list Z) : Tensor :=
  mkTensor (storage self) (storage_offset self) shape strides' (dtype self).

(** Modelled from the spec: §6 [narrow(axis, start, length) -> view]. *)
Definition narrow (self : Tensor) (d start len : Z) : result Tensor :=
  d' ← maybe_wrap_dim d (dim self);
  n ← at_ (sizes self) d';
  s ← at_ (strides self) d';
  TORCH_CHECK (bool_decide (0 ≤ start ∧ 0 ≤ len ∧ start + len ≤ n));;
  Ok (mkTensor (storage self) (storage_offset self + start * s)
        (<[Z.to_nat d' := len]> (sizes self)) (strides self) (dtype self)).

Definition swap_at {A} (i j : nat) (l : list A) : list A :=
  match l !! i, l !! j with
  | Some x, Some y => <[i := y]> (<[j := x]> l)
  | _, _ => l
  end.

(** Modelled from the spec: §6 [transpose(axis_a, axis_b) -> view], the
    two axes exchanged in the metadata of the view. *)
Definition transpose_ (self : Tensor) (d0 d1 : Z) : result Tensor :=
  a ← maybe_wrap_dim d0 (dim self);
  b ← maybe_wrap_dim d1 (dim self);
  Ok (mkTensor (storage self) (storage_offset self)
        (swap_at (Z.to_nat a) (Z.to_nat b) (sizes self))
        (swap_at (Z.to_nat a) (Z.to_nat b) (strides self)) (dtype self)).

Definition same_shape_except (d : nat) (a b : list Z) : Prop :=
  <[d := 0]> a = <[d := 0]> b.

Global Instance same_shape_except_dec d a b : Decision (same_shape_except d a b).
Proof. unfold same_shape_except. apply _. Defined.

Fixpoint cat_copy (out : Tensor) (d off : Z) (ts : list Tensor) : M unit :=
  match ts with
  | [] => mret ()
  | t :: ts' =>
      n ← lift (at_ (sizes t) d);
      view ← lift (narrow out d off n);
      copy_ view t;;
      cat_copy out d (off + n) ts'
  end.

Fixpoint cat_size (d : Z) (ts : list Tensor) : result Z :=
  match ts with
  | [] => Ok 0
  | t :: ts' => n ← at_ (sizes t) d; m ← cat_size d ts'; Ok (n + m)
  end.

(** Modelled from the spec: §6 [concatenate(views, axis) -> array]; the
    result is a fresh contiguous array into whose successive slices along
    the axis the views are copied. *)
Definition cat (ts : list Tensor) (d : Z) : M Tensor :=
  match ts with
  | [] => throw InvalidArgument
  | t0 :: _ =>
      d' ← lift (maybe_wrap_dim d (dim t0));
      lift (TORCH_CHECK (bool_decide (Forall (λ t,
        same_shape_except (Z.to_nat d') (sizes t0) (sizes t) ∧ dtype t = dtype t0) ts)));;
      total ← lift (cat_size d' ts);
      out ← empty (<[Z.to_nat d' := total]> (sizes t0)) (dtype t0);
      cat_copy out d' 0 ts;;
      mret out
  end.

(** Modelled from the spec: §6 [insert_axis(position)]; the new axis has
    size 1 and the stride the library gives it. *)
Definition unsqueeze (self : Tensor) (d : Z) : result Tensor :=
  d' ← maybe_wrap_dim d (dim self + 1);
  let k := Z.to_nat d' in
  let st := match sizes self !! k, strides self !! k with
            | Some n, Some s => n * s
            | _, _ => 1
            end in
  Ok (mkTensor (storage self) (storage_offset self)
        (take k (sizes self) ++ 1 :: drop k (sizes self))
        (take k (strides self) ++ st :: drop k (strides self)) (dtype self)).

(** A view is row-major dense: every dimension of size other than one has
    the stride of the contiguous layout. *)
Definition is_contiguous (t : Tensor) : bool :=
  bool_decide (numel t = 0 ∨
    Forall2 (λ n ss, n = 1 ∨ ss.1 = ss.2) (sizes t)
      (zip (strides t) (stride_contiguous (sizes t)))).

(** Modelled from the spec: §6 [reshape]; a contiguous view is re-described
    in place, any other is first copied densely. *)
Definition reshape (self : Tensor) (shape : list Z) : M Tensor :=
  lift (TORCH_CHECK (bool_decide (numel_of shape = numel self)));;
  src ← (if is_contiguous self then mret self else clone self Contiguous);
  mret (mkTensor (storage src) (storage_offset src) shape (stride_contiguous shape) (dtype src)).

(** ** The element-wise iterator *)

Record OperandInfo := mkOperand { op_data : ptr; op_stride_bytes : list Z }.

Record TensorIterator := mkIter {
  it_shape : list Z;
  it_operands : list OperandInfo;
  it_output : Tensor
}.

Definition ntensors (iter : TensorIterator) : Z :=
  Z.of_nat (length (it_operands iter)).

Definition infer_size (a b : list Z) : result (list Z) :=
  TORCH_CHECK (bool_decide (Forall2 (λ x y, x = y ∨ x = 1 ∨ y = 1) a b));;
  Ok (zip_with (λ x y, if decide (x = 1) then y else x) a b).

Fixpoint infer_shape (shape : list Z) (ts : list Tensor) : result (list Z) :=
  match ts with
  | [] => Ok shape
  | t :: ts' => shape' ← infer_size shape (sizes t); infer_shape shape' ts'
  end.

(** Byte strides of an operand seen at the iteration shape: an axis on
    which the operand has size one does not advance. *)
Definition operand (shape : list Z) (t : Tensor) : OperandInfo :=
  mkOperand (data_ptr t)
    (zip_with (λ ns m, if decide (ns.1 = 1 ∧ m ≠ 1) then 0
                       else ns.2 * element_size (dtype t))
       (zip (sizes t) (strides t)) shape).

(** Modelled from the spec: §6 [build(output_descriptor,
    input_descriptors...) -> iterator] for an output left undefined: the
    inputs are broadcast to one shape and the output is allocated with it. *)
Definition TensorIterator_build (dt : ScalarType) (inputs : list Tensor) : M TensorIterator :=
  match inputs with
  | [] => throw InvalidArgument
  | t0 :: ts =>
      shape ← lift (infer_shape (sizes t0) ts);
      out ← empty shape dt;
      mret (mkIter shape (operand shape <$> out :: inputs) out)
  end.

Definition output (iter : TensorIterator) : Tensor := it_output iter.

(** Modelled from the spec: §6 [iterator.for_each(fn(raw_pointers,
    byte_strides, chunk_length), grain_size)]; a chunk is one run along the
    innermost axis, nothing is emitted for an empty shape, and a shape of
    rank zero is one chunk of one element. *)
Definition for_each (iter : TensorIterator)
    (loop : list ptr → list Z → Z → M unit) (grain_size : Z) : M unit :=
  if decide (numel_of (it_shape iter) = 0) then mret ()
  else
    forM_ (indices (removelast (it_shape iter))) (λ o,
      loop ((λ op, op_data op +ₚ offset_of (op_stride_bytes op) o) <$> it_operands iter)
           ((λ op, default 0 (last (op_stride_bytes op))) <$> it_operands iter)
           (default 1 (last (it_shape iter)))).

(** Modelled from the spec: §6 [parallel_for(begin, end, grain_size,
    fn(start, end))], on the schedule that hands the whole range to one
    call. *)
Definition parallel_for (begin end_ grain_size : Z) (f : Z → Z → M unit) : M unit :=
  if decide (begin < end_) then f begin end_ else mret ().

(** Modelled from the spec: §4.6, the two dispatch macros; the body runs
    with [scalar_t] bound to the type of the tag, here its size in bytes,
    and a tag outside the list raises before the body. *)
Definition AT_DISPATCH_QINT_AND_SUB_BYTE_TYPES {A} (t : ScalarType) (body : Z → M A) : M A :=
  if is_qint t then body (element_size t) else throw NotImplemented.

Definition AT_DISPATCH_ALL_TYPES_AND_COMPLEX_AND3 {A} (t : ScalarType) (body : Z → M A) : M A :=
  match t with
  | kByte | kChar | kDouble | kFloat | kInt | kLong | kShort
  | kComplexFloat | kComplexDouble | kBool | kHalf | kBFloat16 => body (element_size t)
  | _ => throw NotImplemented
  end.

(** ** TensorTransformations.cpp *)

(** Unchecked [v[d]] on the vectors of the kernel. *)
Definition vget (v : list Z) (d : Z) : Z := default 0 (v !! Z.to_nat d).

(** One turn of the loop over [d] in [flip_old_cpu_kernel]; the state is
    [(cur_indices, dst_offset)]. *)
Definition flip_old_step (stride_contiguous_v : list Z) (flip_dims_b : Z)
    (sizes_v strides_v : list Z) (st : Z * Z) (d : Z) : Z * Z :=
  let temp := st.1 in
  let cur_indices := temp ÷ vget stride_contiguous_v d in
  let rem := temp - cur_indices * vget stride_contiguous_v d in
  let dst_offset := st.2 +
    (if Z.testbit flip_dims_b d
     then (vget sizes_v d - 1 - cur_indices) * vget strides_v d
     else cur_indices * vget strides_v d) in
  (rem, dst_offset).

Definition flip_old_dst_offset (total_dims : Z) (stride_contiguous_v : list Z)
    (flip_dims_b : Z) (sizes_v strides_v : list Z) (i : Z) : Z :=
  (foldl (flip_old_step stride_contiguous_v flip_dims_b sizes_v strides_v)
     (i, 0) (seqZ 0 total_dims)).2.

Definition flip_old_cpu_kernel (scalar_t : Z) (total_dims : Z)
    (stride_contiguous_v : list Z) (flip_dims_b : Z)
    (in_tensor out_tensor : Tensor) : M unit :=
  let numel := numel in_tensor in
  let in_tensor_d := data_ptr in_tensor in
  let out_tensor_d := data_ptr out_tensor in
  let sizes_v := sizes in_tensor in
  let strides_v := strides in_tensor in
  parallel_for 0 numel 1000 (λ start end_,
    forM_ (seqZ start (end_ - start)) (λ i,
      let dst_offset :=
        flip_old_dst_offset total_dims stride_contiguous_v flip_dims_b sizes_v strides_v i in
      v ← load scalar_t (in_tensor_d +ₚ dst_offset * scalar_t);
      store scalar_t (out_tensor_d +ₚ i * scalar_t) v)).

Definition flip_old_cpu (self : Tensor) (dims : list Z) : M Tensor :=
  let in_tensor := self in
  let total_dims := dim in_tensor in
  flip_dims_b ← lift (dim_list_to_bitset dims total_dims);
  out_tensor ← empty_like in_tensor Contiguous;
  let stride_contiguous_v := stride_contiguous (sizes in_tensor) in
  (if is_quantized in_tensor then
     AT_DISPATCH_QINT_AND_SUB_BYTE_TYPES (dtype in_tensor) (λ scalar_t,
       flip_old_cpu_kernel scalar_t total_dims stride_contiguous_v flip_dims_b
         in_tensor out_tensor)
   else
     AT_DISPATCH_ALL_TYPES_AND_COMPLEX_AND3 (dtype in_tensor) (λ scalar_t,
       flip_old_cpu_kernel scalar_t total_dims stride_contiguous_v flip_dims_b
         in_tensor out_tensor));;
  mret out_tensor.

Definition build_index (num_dims flip_dim dim_size : Z) : M Tensor :=
  let new_shape := <[Z.to_nat flip_dim := dim_size]> (replicate (Z.to_nat num_dims) 1) in
  empty new_shape kLong.

Definition build_indices_loop (input : Tensor) (flip_dims : list Z) : M (list Tensor) :=
  let element_size_bytes := element_size (dtype input) in
  mapM (λ d,
    dim_size ← lift (size input d);
    index ← build_index (dim input) d dim_size;
    stride ← lift (stride input d);
    let input_index_ptr := data_ptr index in
    forM_ (seqZ 0 dim_size) (λ i,
      store 8 (input_index_ptr +ₚ i * 8) ((dim_size - i - 1) * stride * element_size_bytes));;
    mret index) flip_dims.

Definition make_index_iterator (input : Tensor) (indices : list Tensor) : M TensorIterator :=
  TensorIterator_build (dtype input) (input :: indices).

Record Indexer := mkIndexer {
  num_indexers : Z;
  indexers : list ptr;
  indexer_strides : list Z
}.

Fixpoint foldM {A S} (f : S → A → M S) (s : S) (l : list A) : M S :=
  match l with
  | [] => mret s
  | x :: l' => f s x ≫= λ s', foldM f s' l'
  end.

Definition Indexer_get (ix : Indexer) (idx : Z) : M Z :=
  p0 ← lift (at_ (indexers ix) 0);
  s0 ← lift (at_ (indexer_strides ix) 0);
  offset ← load 8 (p0 +ₚ idx * s0);
  foldM (λ offset j,
    p ← lift (at_ (indexers ix) j);
    s ← lift (at_ (indexer_strides ix) j);
    v ← load 8 (p +ₚ idx * s);
    mret (offset + v)) offset (seqZ 1 (num_indexers ix - 1)).

(** The per-chunk function [loop] of [flip_cpu_kernel]. *)
Definition flip_cpu_loop (scalar_t ntensor : Z)
    (data : list ptr) (strides : list Z) (n : Z) : M unit :=
  let indexer := mkIndexer (ntensor - 2) (drop 2 data) (drop 2 strides) in
  dst ← lift (at_ data 0);
  src ← lift (at_ data 1);
  stride0 ← lift (at_ strides 0);
  stride1 ← lift (at_ strides 1);
  forM_ (seqZ 0 n) (λ i,
    offset ← Indexer_get indexer i;
    v ← load scalar_t (src +ₚ (stride1 * i + offset));
    store scalar_t (dst +ₚ stride0 * i) v).

Definition flip_cpu_kernel (scalar_t : Z) (iter : TensorIterator) : M unit :=
  let ntensor := ntensors iter in
  let index_parallel_grain_size := 3000 in
  for_each iter (flip_cpu_loop scalar_t ntensor) index_parallel_grain_size.

(** The axes whose bit is set, in increasing order, and the strides with
    those axes set to zero. *)
Definition flip_dims_of (flip_dims_b total_dims : Z) : list Z :=
  filter (λ i, Is_true (Z.testbit flip_dims_b i)) (seqZ 0 total_dims).

Definition zero_strides (strides : list Z) (flip_dims : list Z) : list Z :=
  foldl (λ st d, <[Z.to_nat d := 0]> st) strides flip_dims.

(** Modelled from the spec: the kernel registered under [flip_stub] for the
    CPU backend (§9); it dispatches on the element type of [input] and runs
    the gather kernel, as [flip_cpu_internal] does inline. *)
Definition flip_stub (iter : TensorIterator) (input : Tensor) : M unit :=
  if is_quantized input then
    AT_DISPATCH_QINT_AND_SUB_BYTE_TYPES (dtype input) (λ scalar_t, flip_cpu_kernel scalar_t iter)
  else
    AT_DISPATCH_ALL_TYPES_AND_COMPLEX_AND3 (dtype input) (λ scalar_t, flip_cpu_kernel scalar_t iter).

Definition flip_cpu (self : Tensor) (dims : list Z) : M Tensor :=
  let input := self in
  let total_dims := dim input in
  flip_dims_b ← lift (dim_list_to_bitset dims total_dims);
  let flip_dims := flip_dims_of flip_dims_b total_dims in
  let shape := sizes input in
  let strides := zero_strides (strides input) flip_dims in
  let restrided_input := as_strided input shape strides in
  indices ← build_indices_loop input flip_dims;
  iter ← make_index_iterator restrided_input indices;
  flip_stub iter input;;
  let result := output iter in
  mret result.

Definition flip_cpu_internal (self : Tensor) (dims : list Z) : M Tensor :=
  let input := self in
  let total_dims := dim input in
  flip_dims_b ← lift (dim_list_to_bitset dims total_dims);
  let flip_dims := flip_dims_of flip_dims_b total_dims in
  let shape := sizes input in
  let strides := zero_strides (strides input) flip_dims in
  let restrided_input := as_strided input shape strides in
  indices ← build_indices_loop input flip_dims;
  iter ← make_index_iterator restrided_input indices;
  (if is_quantized input then
     AT_DISPATCH_QINT_AND_SUB_BYTE_TYPES (dtype input) (λ scalar_t, flip_cpu_kernel scalar_t iter)
   else
     AT_DISPATCH_ALL_TYPES_AND_COMPLEX_AND3 (dtype input) (λ scalar_t, flip_cpu_kernel scalar_t iter));;
  let result := output iter in
  mret result.

(** Modelled from the spec: [self.flip(dims)] on a CPU tensor; the
    registration of the operator is in another file, and its CPU entry is
    [flip_cpu]. *)
Definition flip (self : Tensor) (dims : list Z) : M Tensor := flip_cpu self dims.

Section Roll.
(** The multi-axis implementation [roll_common] lives in another file. *)
Variable roll_common : Tensor → list Z → list Z → M Tensor.

Definition roll_cpu (self : Tensor) (shifts dims : list Z) : M Tensor :=
  if decide (length dims ≠ 1%nat ∨ length shifts ≠ 1%nat) then
    roll_common self shifts dims
  else if decide (numel self = 0) then
    clone self Preserve
  else
    d ← lift (at_ dims 0);
    size ← lift (size self d);
    shift ← lift (at_ shifts 0);
    let start := Z.rem (Int64.sub size shift) size in
    let start := if decide (start < 0) then start + size else start in
    t0 ← lift (narrow self d start (size - start));
    t1 ← lift (narrow self d 0 start);
    cat [t0; t1] d.
End Roll.

Definition rot90 (self : Tensor) (k : Z) (dims : list Z) : M Tensor :=
  let total_dims := dim self in
  let total_rot_dims := Z.of_nat (length dims) in
  lift (TORCH_CHECK (bool_decide (total_rot_dims = 2)));;
  lift (TORCH_CHECK (bool_decide (2 ≤ total_dims)));;
  dims0 ← lift (at_ dims 0);
  dims1 ← lift (at_ dims 1);
  lift (TORCH_CHECK (bool_decide (dims0 ≠ dims1) &&
                     bool_decide (Int64.abs (Int64.sub dims0 dims1) ≠ total_dims)));;
  lift (TORCH_CHECK (bool_decide (dims0 < total_dims) && bool_decide (- total_dims ≤ dims0)));;
  lift (TORCH_CHECK (bool_decide (dims1 < total_dims) && bool_decide (- total_dims ≤ dims1)));;
  let k := Z.rem (4 + Z.rem k 4) 4 in
  match k with
  | 1 => t ← flip self [dims1]; lift (transpose_ t dims0 dims1)
  | 2 => flip self dims
  | 3 => t ← flip self [dims0]; lift (transpose_ t dims0 dims1)
  | _ => clone self Contiguous
  end.

Definition fliplr (self : Tensor) : M Tensor :=
  lift (TORCH_CHECK (bool_decide (2 ≤ dim self)));;
  flip self [1].

Definition flipud (self : Tensor) : M Tensor :=
  lift (TORCH_CHECK (bool_decide (1 ≤ dim self)));;
  flip self [0].

Definition atleast_1d (self : Tensor) : M Tensor :=
  match dim self with
  | 0 => reshape self [1]
  | _ => mret self
  end.

Definition atleast_2d (self : Tensor) : M Tensor :=
  match dim self with
  | 0 => reshape self [1; 1]
  | 1 => lift (unsqueeze self 0)
  | _ => mret self
  end.

Definition atleast_3d (self : Tensor) : M Tensor :=
  match dim self with
  | 0 => reshape self [1; 1; 1]
  | 1 => lift (t ← unsqueeze self 0; unsqueeze t (-1))
  | 2 => lift (unsqueeze self (-1))
  | _ => mret self
  end.

(** ** Observing a tensor *)

Definition read_cell (h : gmap loc buffer) (l : loc) (k : Z) : option Z :=
  b ← h !! l;
  if decide (0 ≤ k) then mjoin (cells b !! Z.to_nat k) else None.

(** The element at coordinates [idx]. *)
Definition elem (h : gmap loc buffer) (t : Tensor) (idx : list Z) : option Z :=
  read_cell h (storage t) (storage_offset t + offset_of (strides t) idx).

(** The elements in row-major order. *)
Definition to_list (h : gmap loc buffer) (t : Tensor) : option (list Z) :=
  mapM (elem h t) (indices (sizes t)).

(** A dense row-major tensor over the buffer [l] holding [data]. *)
Definition from_list (l : loc) (dt : ScalarType) (shape : list Z) (data : list Z)
    : Tensor * gmap loc buffer :=
  (mkTensor l 0 shape (stride_contiguous shape) dt,
   {[ l := Buffer (element_size dt) (Some <$> data) ]}).

(** ** Well-formed views and the coordinates of a flip *)

(** A view is well formed in a heap when its storage is a buffer of its
    element type and every coordinate vector of its shape addresses an
    initialised cell of it. *)
Record tensor_wf (h : gmap loc buffer) (t : Tensor) : Prop := {
  wf_strides : length (strides t) = length (sizes t);
  wf_sizes : Forall (λ n, 0 ≤ n) (sizes t);
  wf_buffer : ∃ b, h !! storage t = Some b ∧ width b = element_size (dtype t);
  wf_elem : ∀ idx, idx ∈ indices (sizes t) → is_Some (elem h t idx)
}.

(** The source coordinates of a flip: mirrored on the axes of the bitset,
    counted from axis [d]. *)
Fixpoint flip_coords (b d : Z) (shape idx : list Z) : list Z :=
  match shape, idx with
  | n :: ns, c :: cs =>
      (if Z.testbit b d then n - 1 - c else c) :: flip_coords b (d + 1) ns cs
  | _, _ => []
  end.

(** The types either dispatch of the flip kernels accepts. *)
Definition flip_supported (dt : ScalarType) : bool :=
  match dt with kComplexHalf => false | _ => true end.

(** The stride the loop of [flip_old_cpu] gives the axis in front of [rest]. *)
Definition head_stride (rest : list Z) : Z :=
  match rest with
  | [] => 1
  | n :: _ => Z.max n 1 * default 1 (head (stride_contiguous rest))
  end.

Definition sumZ (f : Z → Z) (l : list Z) : Z := foldr (λ d acc, f d + acc) 0 l.

(** Coordinates of the [i]-th element of the row [o] of a shape. *)
Definition row_idx (shape o : list Z) (i : Z) : list Z :=
  match shape with [] => [] | _ => o ++ [i] end.

(** The loop over [d] of [flip_old_cpu_kernel], by recursion on the vectors
    it reads. *)
Fixpoint old_offset (b d cur : Z) (sc sz st : list Z) : Z :=
  match sc, sz, st with
  | c0 :: sc', n :: sz', s :: st' =>
      let q := cur ÷ c0 in
      (if Z.testbit b d then (n - 1 - q) * s else q * s)
      + old_offset b (d + 1) (cur - q * c0) sc' sz' st'
  | _, _, _ => 0
  end.

(** What a flip returns: a fresh dense tensor of the shape of [X] that
    holds, at every coordinate vector, the element of [X] at the mirrored
    coordinates. *)
Record flip_post (h : gmap loc buffer) (X : Tensor) (b : Z)
    (r : Tensor) (h' : gmap loc buffer) : Prop := {
  fp_sizes : sizes r = sizes X;
  fp_dtype : dtype r = dtype X;
  fp_strides : strides r = stride_contiguous (sizes X);
  fp_offset : storage_offset r = 0;
  fp_fresh : storage r ∉ dom h;
  fp_frame : h ⊆ h';
  fp_cells : ∃ data, h' !! storage r = Some (Buffer (element_size (dtype X)) (Some <$> data))
                     ∧ length data = Z.to_nat (numel X);
  fp_elem : ∀ idx, idx ∈ indices (sizes X) →
              elem h' r idx = elem h X (flip_coords b 0 (sizes X) idx)
}.

(** The shape [build_index] gives the lookup array of axis [d]. *)
Definition index_shape (num_dims : Z) (d : Z) (dim_size : Z) : list Z :=
  <[Z.to_nat d := dim_size]> (replicate (Z.to_nat num_dims) 1).

(** The lookup array of axis [d] as [build_indices_loop] leaves it: entry
    [i] is the byte distance to the mirrored position. *)
Record index_ok (X : Tensor) (h : gmap loc buffer) (d : Z) (t : Tensor) : Prop := {
  ix_sizes : sizes t = index_shape (dim X) d (vget (sizes X) d);
  ix_strides : strides t = stride_contiguous (sizes t);
  ix_offset : storage_offset t = 0;
  ix_dtype : dtype t = kLong;
  ix_cells : h !! storage t = Some (Buffer 8
    (Some ∘ (λ i, (vget (sizes X) d - i - 1) * vget (strides X) d * element_size (dtype X))
       <$> seqZ 0 (vget (sizes X) d)))
}.

(** A decidable form of [tensor_wf]. *)
Definition tensor_wf_check (h : gmap loc buffer) (t : Tensor) : bool :=
  bool_decide (length (strides t) = length (sizes t))
  && bool_decide (Forall (λ n, 0 ≤ n) (sizes t))
  && match h !! storage t with
     | Some b => bool_decide (width b = element_size (dtype t))
     | None => false
     end
  && bool_decide (Forall (λ idx, is_Some (elem h t idx)) (indices (sizes t))).

(** What a call leaves: the shape and the elements of the tensor it
    returned, or the error it raised. *)
Definition observe (m : M Tensor) (h : gmap loc buffer) : error + option (list Z * list Z) :=
  match m h with
  | (Ok t, h') => inr (l ← to_list h' t; Some (sizes t, l))
  | (Err e, _) => inl e
  end.

(** The arguments [rot90] rejects, for a tensor of rank [rank]. *)
Definition rot90_rejects (rank : Z) (dims : list Z) : Prop :=
  match dims with
  | [d0; d1] =>
      rank < 2 ∨ d0 = d1 ∨ Z.abs (d0 - d1) = rank
      ∨ ¬ (- rank ≤ d0 < rank) ∨ ¬ (- rank ≤ d1 < rank)
  | _ => True
  end.

(** Two calls end alike: with the same error, or with tensors of one shape
    that hold the same elements. *)
Definition same_outcome (a b : result Tensor * gmap loc buffer) : Prop :=
  match a, b with
  | (Ok r1, h1), (Ok r2, h2) =>
      sizes r1 = sizes r2 ∧ to_list h1 r1 = to_list h2 r2 ∧ is_Some (to_list h1 r1)
  | (Err e1, _), (Err e2, _) => e1 = e2
  | _, _ => False
  end.

(** The result [r] of a call on [X] that took the heap from [h] to [h']
    has the shape of [X] and lies, dense and from offset zero, in a buffer
    that [h] did not have; the buffers of [h] are as they were. *)
Record fresh_output (h : gmap loc buffer) (X r : Tensor) (h' : gmap loc buffer) : Prop := {
  fo_sizes : sizes r = sizes X;
  fo_fresh : storage r ∉ dom h;
  fo_input : storage r ≠ storage X;
  fo_frame : h ⊆ h';
  fo_offset : storage_offset r = 0;
  fo_contiguous : is_contiguous r = true;
  fo_buffer : ∃ cs, h' !! storage r = Some (Buffer (element_size (dtype X)) cs)
                    ∧ length cs = Z.to_nat (numel X)
}.

(** ** Sample inputs *)

(** The 2×3 array [[1,2,3],[4,5,6]] of the concrete scenario of the specification. *)
Definition sample_2x3 : Tensor * gmap loc buffer :=
  from_list 0%nat kLong [2; 3] [1; 2; 3; 4; 5; 6].

(** A vector of two elements. *)
Definition sample_vec : Tensor * gmap loc buffer :=
  from_list 0%nat kLong [2] [1; 2].

(** An empty array of shape 0×3. *)
Definition sample_0x3 : Tensor * gmap loc buffer :=
  from_list 0%nat kLong [0; 3] [].

(** One element under 65 axes of size one. *)
Definition sample_rank65 : Tensor * gmap loc buffer :=
  from_list 0%nat kLong (replicate 65 1) [7].

(** The same 2×3 array as a view with the strides [1, 2] over a buffer
    that holds it column by column. *)
Definition sample_2x3_strided : Tensor * gmap loc buffer :=
  (mkTensor 0%nat 0 [2; 3] [1; 2] kLong,
   {[ 0%nat := Buffer 8 (Some <$> [1; 4; 2; 5; 3; 6]) ]}).

(** A vector of two elements of the type [ComplexHalf], which neither
    dispatch of the flip kernels lists. *)
Definition sample_complex_half : Tensor * gmap loc buffer :=
  from_list 0%nat kComplexHalf [2] [1; 2].

(** ** Coordinates of a mirrored, shifted or promoted tensor *)

(** The axis a possibly negative [d] names on a tensor of rank [r]. *)
Definition axis_of (r d : Z) : Z := if decide (d < 0) then d + r else d.

(** The axis lists a flip accepts on a tensor of rank [r]: within the
    width of the bitset, every axis in range, no axis named twice. *)
Definition valid_axes (r : Z) (dims : list Z) : Prop :=
  r ≤ 64 ∧ Forall (λ d, - r ≤ d < r) dims ∧ NoDup (axis_of r <$> dims).

Global Instance valid_axes_dec r dims : Decision (valid_axes r dims).
Proof. unfold valid_axes. apply _. Defined.

(** The coordinates mirrored, within the shape, on the axes listed. *)
Definition mirror_axes (axes : list Z) (shape idx : list Z) : list Z :=
  imap (λ j c, if decide (Z.of_nat j ∈ axes)
               then default 0 (shape !! j) - 1 - c else c) idx.

(** The coordinates at which [rot90] with [k], on the axes [a] and [c],
    reads the element it puts at [idx]: a quarter turn mirrors one axis and
    exchanges the two, a half turn mirrors both. *)
Definition rot90_source (k : Z) (a c : nat) (shape idx : list Z) : list Z :=
  match k mod 4 with
  | 1 => mirror_axes [Z.of_nat c] shape (swap_at a c idx)
  | 2 => mirror_axes [Z.of_nat a; Z.of_nat c] shape idx
  | 3 => mirror_axes [Z.of_nat a] shape (swap_at a c idx)
  | _ => idx
  end.

(** The coordinate on axis [a] moved back by [s] around the axis. *)
Definition shift_at (a : nat) (shape : list Z) (s : Z) (idx : list Z) : list Z :=
  <[a := (default 0 (idx !! a) - s) mod default 0 (shape !! a)]> idx.

(** ** The overloads on lists of tensors *)

(** [atleast_1d(TensorList)], [atleast_2d(TensorList)] and
    [atleast_3d(TensorList)]: [std::transform] of the single-tensor
    function over the list, into a vector of the same length. *)
Definition atleast_1d_list (tensors : list Tensor) : M (list Tensor) :=
  mapM atleast_1d tensors.
Definition atleast_2d_list (tensors : list Tensor) : M (list Tensor) :=
  mapM atleast_2d tensors.
Definition atleast_3d_list (tensors : list Tensor) : M (list Tensor) :=
  mapM atleast_3d tensors.

(** * Proofs *)

(** ** The monad *)

Lemma bind_unfold {A B} (m : M A) (f : A → M B) h :
  (m ≫= f) h = match m h with (Ok a, h') => f a h' | (Err e, h') => (Err e, h') end.
Proof. reflexivity. Qed.

Lemma bind_ok {A B} (m : M A) (f : A → M B) h a h' :
  m h = (Ok a, h') → (m ≫= f) h = f a h'.
Proof. intros E. by rewrite bind_unfold, E. Qed.

Lemma bind_err {A B} (m : M A) (f : A → M B) h e h' :
  m h = (Err e, h') → (m ≫= f) h = (Err e, h').
Proof. intros E. by rewrite bind_unfold, E. Qed.

Lemma bind_lift {A B} (r : result A) (f : A → M B) h :
  (lift r ≫= f) h = match r with Ok a => f a h | Err e => (Err e, h) end.
Proof. rewrite bind_unfold. unfold lift. by destruct r. Qed.

Lemma bind_ret {A B} (a : A) (f : A → M B) h : (mret a ≫= f) h = f a h.
Proof. reflexivity. Qed.

Lemma forM_cons {A} (x : A) l f h :
  forM_ (x :: l) f h =
    match f x h with (Ok _, h') => forM_ l f h' | (Err e, h') => (Err e, h') end.
Proof. reflexivity. Qed.

Lemma at_lookup {A} (l : list A) (i : Z) x :
  0 ≤ i → l !! Z.to_nat i = Some x → at_ l i = Ok x.
Proof. intros Hi Hl. unfold at_. rewrite decide_True by done. by rewrite Hl. Qed.

(** ** Loads and stores *)

Lemma cell_index_mul w k : 0 < w → 0 ≤ k → cell_index w (k * w) = Some (Z.to_nat k).
Proof.
  intros Hw Hk. unfold cell_index. rewrite decide_True.
  - by rewrite Z.div_mul by lia.
  - split_and!; [done|nia|]. by rewrite Z.mod_mul by lia.
Qed.

Lemma load_cell h w l k v b :
  h !! l = Some b → width b = w → 0 < w → 0 ≤ k →
  cells b !! Z.to_nat k = Some (Some v) →
  load w (Ptr l (k * w)) h = (Ok v, h).
Proof.
  intros Hl Hw Hpos Hk Hc. unfold load. simpl. rewrite Hl.
  rewrite decide_True by done. rewrite cell_index_mul by done. simpl.
  by rewrite Hc.
Qed.

Lemma store_cell h w l k v b :
  h !! l = Some b → width b = w → 0 < w → 0 ≤ k →
  (Z.to_nat k < length (cells b))%nat →
  store w (Ptr l (k * w)) v h =
    (Ok (), <[l := Buffer w (<[Z.to_nat k := Some v]> (cells b))]> h).
Proof.
  intros Hl Hw Hpos Hk Hc. unfold store. simpl. rewrite Hl.
  rewrite decide_True by done. rewrite cell_index_mul by done.
  by rewrite decide_True by done.
Qed.

Lemma load_insert_ne h w p l b :
  ploc p ≠ l → load w p (<[l := b]> h) = ((load w p h).1, <[l := b]> h).
Proof.
  intros Hne. unfold load. rewrite lookup_insert_ne by done.
  destruct (h !! ploc p) as [b'|]; [|done].
  destruct (decide _); [|done].
  by destruct (cell_index w (poff p) ≫= _) as [[?|]|].
Qed.

Lemma element_size_pos dt : 0 < element_size dt.
Proof. destruct dt; simpl; lia. Qed.

(** ** Row-major enumeration *)

Lemma list_bind_ret_fmap {A B} (g : A → B) (l : list A) :
  l ≫= (λ c, [g c]) = g <$> l.
Proof. induction l as [|x l IH]; [done|]. rewrite bind_cons, IH. done. Qed.

Lemma list_fmap_of_bind {A B C} (f : B → C) (g : A → list B) (l : list A) :
  f <$> (l ≫= g) = l ≫= (λ x, f <$> g x).
Proof.
  induction l as [|x l IH]; [done|].
  by rewrite !bind_cons, fmap_app, IH.
Qed.

Lemma list_bind_bind {A B C} (f : A → list B) (g : B → list C) (l : list A) :
  (l ≫= f) ≫= g = l ≫= (λ x, f x ≫= g).
Proof.
  induction l as [|x l IH]; [done|].
  by rewrite !bind_cons, bind_app, IH.
Qed.

Lemma list_bind_nil_const {A B} (l : list A) : l ≫= (λ _, @nil B) = [].
Proof. induction l as [|x l IH]; [done|]. by rewrite bind_cons, IH. Qed.

Lemma seqZ_blocks (n m : Z) :
  0 ≤ n → 0 ≤ m → seqZ 0 n ≫= (λ c, seqZ (c * m) m) = seqZ 0 (n * m).
Proof.
  intros Hn Hm. rewrite <-(Z2Nat.id n) by done.
  generalize (Z.to_nat n) as k. clear n Hn.
  induction k as [|k IH]; [done|].
  rewrite seqZ_S, bind_app, IH, bind_singleton. simpl.
  replace (Z.of_nat (S k) * m) with (Z.of_nat k * m + m) by lia.
  rewrite seqZ_app by lia. done.
Qed.

Lemma numel_of_cons n rest : numel_of (n :: rest) = n * numel_of rest.
Proof. reflexivity. Qed.

Lemma numel_of_nonneg shape : Forall (λ n, 0 ≤ n) shape → 0 ≤ numel_of shape.
Proof.
  induction 1 as [|n rest Hn _ IH]; [done|]. rewrite numel_of_cons. simpl in *. nia.
Qed.

Lemma numel_of_pos shape : Forall (λ n, 0 < n) shape → 0 < numel_of shape.
Proof.
  induction 1 as [|n rest Hn _ IH]; [done|]. rewrite numel_of_cons. simpl in *. nia.
Qed.

Lemma numel_of_nonzero shape :
  Forall (λ n, 0 ≤ n) shape → numel_of shape ≠ 0 → Forall (λ n, 0 < n) shape.
Proof.
  induction 1 as [|n rest Hn _ IH]; intros Hne; [done|].
  rewrite numel_of_cons in Hne. simpl in *.
  apply Z.neq_mul_0 in Hne as [Hn0 Hr0]. constructor; [lia|]. by apply IH.
Qed.

Lemma stride_contiguous_cons n rest :
  stride_contiguous (n :: rest) = head_stride rest :: stride_contiguous rest.
Proof. by destruct rest. Qed.

Lemma length_stride_contiguous shape :
  length (stride_contiguous shape) = length shape.
Proof.
  induction shape as [|n rest IH]; [done|].
  rewrite stride_contiguous_cons. simpl. by rewrite IH.
Qed.

Lemma head_stride_numel rest :
  Forall (λ n, 0 < n) rest → head_stride rest = numel_of rest.
Proof.
  induction 1 as [|n rest Hn Hrest IH]; [done|].
  rewrite numel_of_cons. unfold head_stride at 1.
  rewrite stride_contiguous_cons. cbn [head default]. rewrite IH. simpl in Hn.
  by rewrite Z.max_l by lia.
Qed.

Lemma offset_of_cons s ss c cs :
  offset_of (s :: ss) (c :: cs) = c * s + offset_of ss cs.
Proof. reflexivity. Qed.

Lemma indices_cons n rest :
  indices (n :: rest) = seqZ 0 n ≫= λ c, (c ::.) <$> indices rest.
Proof. reflexivity. Qed.

(** In the contiguous layout the cells of a shape are visited in order. *)
Lemma offsets_contiguous shape :
  Forall (λ n, 0 ≤ n) shape →
  offset_of (stride_contiguous shape) <$> indices shape = seqZ 0 (numel_of shape).
Proof.
  induction 1 as [|n rest Hn Hrest IH]; [done|].
  rewrite indices_cons, stride_contiguous_cons, list_fmap_of_bind, numel_of_cons.
  destruct (decide (numel_of rest = 0)) as [Hz|Hnz].
  - rewrite Hz, Z.mul_0_r. rewrite Hz in IH.
    apply fmap_nil_inv in IH. rewrite IH. simpl.
    by rewrite list_bind_nil_const.
  - rewrite <-seqZ_blocks by auto using numel_of_nonneg.
    apply list_bind_ext; [|done]. intros c.
    rewrite <-list_fmap_compose.
    rewrite (list_fmap_ext _ (Z.add (c * numel_of rest) ∘ offset_of (stride_contiguous rest))
               (indices rest)).
    + rewrite list_fmap_compose, IH, fmap_add_seqZ. f_equal. lia.
    + intros i idx _. simpl. rewrite head_stride_numel; [done|].
      by apply numel_of_nonzero.
Qed.

Lemma length_indices shape :
  Forall (λ n, 0 ≤ n) shape → length (indices shape) = Z.to_nat (numel_of shape).
Proof.
  intros H. rewrite <-(length_fmap (offset_of (stride_contiguous shape))).
  by rewrite offsets_contiguous, length_seqZ.
Qed.

Lemma elem_of_indices shape idx :
  idx ∈ indices shape ↔ Forall2 (λ c n, 0 ≤ c < n) idx shape.
Proof.
  revert idx. induction shape as [|n rest IH]; intros idx.
  - simpl. rewrite list_elem_of_singleton. split; [by intros ->|].
    by intros ->%Forall2_nil_inv_r.
  - rewrite indices_cons, list_elem_of_bind. split.
    + intros (c & Hin & Hc). apply list_elem_of_fmap in Hin as (idx' & -> & Hin).
      apply elem_of_seqZ in Hc. constructor; [lia|]. by apply IH.
    + intros H. apply Forall2_cons_inv_r in H as (c & idx' & Hc & H & ->).
      exists c. split; [|apply elem_of_seqZ; lia].
      apply list_elem_of_fmap. exists idx'. split; [done|]. by apply IH.
Qed.

Lemma indices_length shape idx : idx ∈ indices shape → length idx = length shape.
Proof. rewrite elem_of_indices. apply Forall2_length. Qed.

(** The position of a coordinate vector in the enumeration is its
    contiguous offset. *)
Lemma indices_lookup_offset shape idx :
  Forall (λ n, 0 ≤ n) shape → idx ∈ indices shape →
  0 ≤ offset_of (stride_contiguous shape) idx < numel_of shape ∧
  indices shape !! Z.to_nat (offset_of (stride_contiguous shape) idx) = Some idx.
Proof.
  intros Hs Hin. apply list_elem_of_lookup in Hin as [p Hp].
  assert (seqZ 0 (numel_of shape) !! p
          = Some (offset_of (stride_contiguous shape) idx)) as Hq.
  { rewrite <-offsets_contiguous by done. by rewrite list_lookup_fmap, Hp. }
  apply lookup_seqZ in Hq as [Heq Hlt]. rewrite Heq, Z.add_0_l, Nat2Z.id.
  split; [lia|done].
Qed.

(** Rows and the run along the innermost axis. *)
Lemma indices_snoc outer n :
  indices (outer ++ [n]) = indices outer ≫= λ o, (λ i, o ++ [i]) <$> seqZ 0 n.
Proof.
  induction outer as [|a outer IH].
  - simpl. rewrite app_nil_r. apply (list_bind_ret_fmap (λ c : Z, [c])).
  - rewrite <-app_comm_cons, !indices_cons, list_bind_bind.
    apply list_bind_ext; [|done]. intros c.
    rewrite IH, list_fmap_of_bind, list_fmap_bind.
    apply list_bind_ext; [|done]. intros o. simpl.
    by rewrite <-list_fmap_compose.
Qed.

Lemma offset_of_snoc ss s o i :
  length ss = length o → offset_of (ss ++ [s]) (o ++ [i]) = offset_of ss o + i * s.
Proof.
  revert o. induction ss as [|s0 ss IH]; intros [|c o] Hlen; simplify_eq/=; [lia|].
  rewrite IH by done. lia.
Qed.

Lemma offset_of_app_l ss s o :
  length ss = length o → offset_of (ss ++ s) o = offset_of ss o.
Proof.
  revert o. induction ss as [|s0 ss IH]; intros [|c o] Hlen; simplify_eq/=.
  - by destruct s.
  - by rewrite IH.
Qed.

(** ** Filling a fresh buffer *)

Lemma load_at h w l off k v b :
  h !! l = Some b → width b = w → 0 < w → 0 ≤ k → off = k * w →
  cells b !! Z.to_nat k = Some (Some v) →
  load w (Ptr l off) h = (Ok v, h).
Proof. intros ???? ->. by apply load_cell. Qed.

Lemma read_cell_Some h l k v :
  read_cell h l k = Some v ↔
  ∃ b, h !! l = Some b ∧ 0 ≤ k ∧ cells b !! Z.to_nat k = Some (Some v).
Proof.
  unfold read_cell. split.
  - destruct (h !! l) as [b|]; simpl; [|done].
    destruct (decide (0 ≤ k)); [|done].
    destruct (cells b !! Z.to_nat k) as [[?|]|] eqn:E; simpl; [|done..].
    intros [= ->]. by exists b.
  - intros (b & -> & Hk & Hc). simpl. rewrite decide_True by done.
    by rewrite Hc.
Qed.

Lemma load_read_cell h w l off k v b :
  h !! l = Some b → width b = w → 0 < w → off = k * w →
  read_cell h l k = Some v →
  load w (Ptr l off) h = (Ok v, h).
Proof.
  intros Hl Hw Hpos -> (b' & Hl' & Hk & Hc)%read_cell_Some.
  simplify_eq. by eapply load_cell.
Qed.

Lemma read_cell_weaken h h' l k v :
  h ⊆ h' → read_cell h l k = Some v → read_cell h' l k = Some v.
Proof.
  intros Hsub (b & Hl & Hk & Hc)%read_cell_Some. apply read_cell_Some.
  exists b. split_and!; [|done..]. by eapply lookup_weaken.
Qed.

Lemma read_cell_insert_ne h l l' b k :
  l ≠ l' → read_cell (<[l' := b]> h) l k = read_cell h l k.
Proof. intros. unfold read_cell. by rewrite lookup_insert_ne. Qed.

(** Store into the first free cell of a buffer that is being filled. *)
Lemma store_next h0 l w off v (a c : list (option Z)) :
  0 < w → off = Z.of_nat (length a) * w →
  store w (Ptr l off) v (<[l := Buffer w (a ++ None :: c)]> h0) =
    (Ok (), <[l := Buffer w (a ++ Some v :: c)]> h0).
Proof.
  intros Hw ->.
  erewrite store_cell; [|apply lookup_insert_eq|done|done|lia|].
  - rewrite insert_insert_eq. simpl. rewrite Nat2Z.id.
    replace (length a) with (length a + 0)%nat at 1 by lia.
    by rewrite insert_app_r.
  - simpl. rewrite Nat2Z.id, length_app. simpl. lia.
Qed.

(** A loop whose [j]-th turn fills the [j]-th block of [n] cells. *)
Lemma forM_blocks {A} (f : A → M unit) (blk : A → list Z) (n : nat) l w h0 xs :
  ∀ (k0 : nat) (pre post : list (option Z)),
  length pre = k0 →
  (∀ j x a c, xs !! j = Some x → length a = (k0 + j * n)%nat →
     f x (<[l := Buffer w (a ++ replicate n None ++ c)]> h0) =
       (Ok (), <[l := Buffer w (a ++ (Some <$> blk x) ++ c)]> h0)) →
  (∀ x, x ∈ xs → length (blk x) = n) →
  forM_ xs f (<[l := Buffer w (pre ++ replicate (length xs * n) None ++ post)]> h0) =
    (Ok (), <[l := Buffer w (pre ++ (Some <$> (xs ≫= blk)) ++ post)]> h0).
Proof.
  induction xs as [|x xs IH]; intros k0 pre post Hpre Hf Hlen; [done|].
  rewrite forM_cons. cbn [length Nat.mul]. rewrite replicate_add, <-app_assoc.
  rewrite (Hf 0%nat x pre); [|done|lia].
  rewrite bind_cons, fmap_app, <-(app_assoc (Some <$> blk x)).
  rewrite !(app_assoc pre).
  apply (IH (k0 + n)%nat).
  - rewrite length_app, length_fmap, Hpre, Hlen; [done|]. apply list_elem_of_here.
  - intros j y a c Hj Ha. apply (Hf (S j)); [done|lia].
  - intros y Hy. apply Hlen. by apply list_elem_of_further.
Qed.

(** A loop whose [j]-th turn fills the [j]-th cell. *)
Lemma forM_fill {A} (f : A → M unit) (g : A → Z) l w h0 xs (k0 : nat) pre post :
  length pre = k0 →
  (∀ j x a c, xs !! j = Some x → length a = (k0 + j)%nat →
     f x (<[l := Buffer w (a ++ None :: c)]> h0) =
       (Ok (), <[l := Buffer w (a ++ Some (g x) :: c)]> h0)) →
  forM_ xs f (<[l := Buffer w (pre ++ replicate (length xs) None ++ post)]> h0) =
    (Ok (), <[l := Buffer w (pre ++ (Some ∘ g <$> xs) ++ post)]> h0).
Proof.
  intros Hpre Hf.
  pose proof (forM_blocks f (λ x, [g x]) 1 l w h0 xs k0 pre post Hpre) as H.
  rewrite Nat.mul_1_r, list_bind_ret_fmap, <-list_fmap_compose in H.
  apply H; [|done].
  intros j x a c Hj Ha. simpl. apply (Hf j); [done|lia].
Qed.

(** ** Reading a dense tensor *)

Lemma elem_contiguous h t w (data : list Z) idx :
  Forall (λ n, 0 ≤ n) (sizes t) →
  strides t = stride_contiguous (sizes t) → storage_offset t = 0 →
  h !! storage t = Some (Buffer w (Some <$> data)) →
  idx ∈ indices (sizes t) →
  elem h t idx = data !! Z.to_nat (offset_of (stride_contiguous (sizes t)) idx).
Proof.
  intros Hs Hst Hoff Hl Hin. unfold elem, read_cell. rewrite Hl, Hst, Hoff. simpl.
  destruct (indices_lookup_offset _ _ Hs Hin) as [Hr _].
  rewrite decide_True by lia. rewrite Z.add_0_l, list_lookup_fmap.
  by destruct (data !! _).
Qed.

(** A dense tensor whose buffer lists [F] over the coordinates of its shape
    holds [F idx] at [idx]. *)
Lemma elem_tabulate h t w (F : list Z → Z) idx :
  Forall (λ n, 0 ≤ n) (sizes t) →
  strides t = stride_contiguous (sizes t) → storage_offset t = 0 →
  h !! storage t = Some (Buffer w (Some ∘ F <$> indices (sizes t))) →
  idx ∈ indices (sizes t) →
  elem h t idx = Some (F idx).
Proof.
  intros Hs Hst Hoff Hl Hin.
  rewrite list_fmap_compose in Hl.
  erewrite elem_contiguous by done.
  destruct (indices_lookup_offset _ _ Hs Hin) as [_ Hp].
  by rewrite list_lookup_fmap, Hp.
Qed.

Lemma lookup_indices_offset shape j idx :
  Forall (λ n, 0 ≤ n) shape → indices shape !! j = Some idx →
  offset_of (stride_contiguous shape) idx = Z.of_nat j.
Proof.
  intros Hs Hj.
  assert (seqZ 0 (numel_of shape) !! j
          = Some (offset_of (stride_contiguous shape) idx)) as Hq.
  { rewrite <-offsets_contiguous by done. by rewrite list_lookup_fmap, Hj. }
  apply lookup_seqZ in Hq as [Heq _]. lia.
Qed.

Lemma to_list_pointwise h1 t1 h2 t2 :
  sizes t1 = sizes t2 →
  (∀ idx, idx ∈ indices (sizes t1) → elem h1 t1 idx = elem h2 t2 idx) →
  to_list h1 t1 = to_list h2 t2.
Proof.
  intros Hs Hp. unfold to_list. rewrite <-Hs.
  apply Forall_mapM_ext, Forall_forall. auto.
Qed.

Lemma to_list_is_Some h t : tensor_wf h t → is_Some (to_list h t).
Proof.
  intros Hwf. apply mapM_is_Some, Forall_forall. intros idx Hin.
  by apply (wf_elem _ _ Hwf).
Qed.

Lemma tensor_wf_weaken h h' t : h ⊆ h' → tensor_wf h t → tensor_wf h' t.
Proof.
  intros Hsub [Hst Hs (b & Hb & Hw) He]. split; [done|done| |].
  - exists b. split; [|done]. by eapply lookup_weaken.
  - intros idx Hin. destruct (He idx Hin) as [v Hv]. exists v.
    by eapply read_cell_weaken.
Qed.

Lemma elem_weaken h h' t idx v : h ⊆ h' → elem h t idx = Some v → elem h' t idx = Some v.
Proof. intros. by eapply read_cell_weaken. Qed.

(** ** Mirrored coordinates *)

Lemma flip_coords_valid b d shape idx :
  idx ∈ indices shape → flip_coords b d shape idx ∈ indices shape.
Proof.
  rewrite !elem_of_indices. intros H. revert d.
  induction H as [|c n idx shape Hc _ IH]; intros d; simpl; constructor; [|done].
  destruct (Z.testbit b d); lia.
Qed.

Lemma vget_app_r (pre l : list Z) (p : Z) x :
  p = Z.of_nat (length pre) → vget (pre ++ x :: l) p = x.
Proof.
  intros ->. unfold vget. rewrite Nat2Z.id.
  by rewrite list_lookup_middle.
Qed.

(** ** The coordinate-decomposition kernel *)

Lemma foldl_flip_old_step b sc :
  ∀ sz st pre_sc pre_sz pre_st (p cur acc : Z),
  length sz = length sc → length st = length sc →
  p = Z.of_nat (length pre_sc) → p = Z.of_nat (length pre_sz) →
  p = Z.of_nat (length pre_st) →
  (foldl (flip_old_step (pre_sc ++ sc) b (pre_sz ++ sz) (pre_st ++ st))
     (cur, acc) (seqZ p (Z.of_nat (length sc)))).2
  = acc + old_offset b p cur sc sz st.
Proof.
  induction sc as [|c0 sc IH]; intros sz st pre_sc pre_sz pre_st p cur acc Hsz Hst H1 H2 H3.
  - simpl. lia.
  - destruct sz as [|n sz]; [done|]. destruct st as [|s st]; [done|].
    rewrite seqZ_cons by (simpl; lia). cbn [foldl].
    replace (Z.pred (Z.of_nat (length (c0 :: sc)))) with (Z.of_nat (length sc))
      by (simpl; lia).
    unfold flip_old_step at 2. cbn [fst snd].
    rewrite !vget_app_r by done.
    rewrite (cons_middle c0 pre_sc), (cons_middle n pre_sz), (cons_middle s pre_st).
    rewrite !app_assoc.
    rewrite IH; simpl in *; rewrite ?length_app; simpl; try lia.
    replace (Z.succ p) with (p + 1) by lia. lia.
Qed.

Lemma flip_old_dst_offset_eq b sz st i :
  length st = length sz →
  flip_old_dst_offset (Z.of_nat (length sz)) (stride_contiguous sz) b sz st i
  = old_offset b 0 i (stride_contiguous sz) sz st.
Proof.
  intros Hst. unfold flip_old_dst_offset.
  pose proof (foldl_flip_old_step b (stride_contiguous sz) sz st [] [] [] 0 i 0) as H.
  rewrite length_stride_contiguous in H. simpl in H. rewrite H; done.
Qed.

Lemma old_offset_block b d n m s c r sc sz st :
  0 ≤ c → 0 ≤ r < m →
  old_offset b d (c * m + r) (m :: sc) (n :: sz) (s :: st)
  = (if Z.testbit b d then n - 1 - c else c) * s + old_offset b (d + 1) r sc sz st.
Proof.
  intros Hc Hr. cbn [old_offset].
  assert ((c * m + r) ÷ m = c) as ->.
  { rewrite Z.quot_div_nonneg by nia. rewrite Z.div_add_l by lia.
    rewrite Z.div_small by lia. lia. }
  replace (c * m + r - c * m) with r by lia.
  by destruct (Z.testbit b d).
Qed.

(** The offsets the kernel computes for the linear indices, in order, are
    the offsets of the mirrored coordinates in row-major order. *)
Lemma old_offset_map b sz :
  ∀ d st, Forall (λ n, 0 < n) sz → length st = length sz →
  (λ i, old_offset b d i (stride_contiguous sz) sz st) <$> seqZ 0 (numel_of sz)
  = (λ idx, offset_of st (flip_coords b d sz idx)) <$> indices sz.
Proof.
  induction sz as [|n rest IH]; intros d st Hpos Hlen.
  - by destruct st.
  - destruct st as [|s st]; [done|].
    apply Forall_cons in Hpos as [Hn Hrest]. simpl in Hn.
    pose proof (numel_of_pos _ Hrest) as Hm.
    rewrite stride_contiguous_cons, head_stride_numel, numel_of_cons, indices_cons by done.
    rewrite <-seqZ_blocks by lia. rewrite !list_fmap_of_bind.
    apply Forall_bind_ext, Forall_forall. intros c Hc%elem_of_seqZ.
    rewrite <-list_fmap_compose.
    replace (seqZ (c * numel_of rest) (numel_of rest))
      with (Z.add (c * numel_of rest) <$> seqZ 0 (numel_of rest))
      by (rewrite fmap_add_seqZ; f_equal; lia).
    rewrite <-list_fmap_compose.
    transitivity (Z.add ((if Z.testbit b d then n - 1 - c else c) * s) <$>
      ((λ i, old_offset b (d + 1) i (stride_contiguous rest) rest st)
         <$> seqZ 0 (numel_of rest))).
    + rewrite <-list_fmap_compose. apply list_fmap_ext.
      intros j r [-> Hj]%lookup_seqZ. simpl.
      apply old_offset_block; lia.
    + rewrite IH by (simpl in Hlen; auto with lia).
      rewrite <-list_fmap_compose. done.
Qed.

Lemma dispatch_supported {A} dt (body : Z → M A) :
  flip_supported dt = true →
  (if is_qint dt then AT_DISPATCH_QINT_AND_SUB_BYTE_TYPES dt body
   else AT_DISPATCH_ALL_TYPES_AND_COMPLEX_AND3 dt body) = body (element_size dt).
Proof. by destruct dt. Qed.

Lemma alloc_fresh b h : alloc b h = (Ok (fresh (dom h)), <[fresh (dom h) := b]> h).
Proof. reflexivity. Qed.

Lemma fresh_not_in (h : gmap loc buffer) : h !! fresh (dom h) = None.
Proof. apply not_elem_of_dom, is_fresh. Qed.

Lemma empty_run shape dt h :
  empty shape dt h =
    (Ok (mkTensor (fresh (dom h)) 0 shape (stride_contiguous shape) dt),
     <[fresh (dom h) := Buffer (element_size dt)
         (replicate (Z.to_nat (numel_of shape)) None)]> h).
Proof. reflexivity. Qed.

Lemma empty_like_contiguous_run self h :
  empty_like self Contiguous h =
    (Ok (mkTensor (fresh (dom h)) 0 (sizes self) (stride_contiguous (sizes self)) (dtype self)),
     <[fresh (dom h) := Buffer (element_size (dtype self))
         (replicate (Z.to_nat (numel self)) None)]> h).
Proof. reflexivity. Qed.


Lemma tensor_wf_numel h t : tensor_wf h t → 0 ≤ numel t.
Proof. intros Hwf. apply numel_of_nonneg, Hwf. Qed.

(** The buffer a flip kernel leaves behind meets [flip_post]. *)
Lemma flip_post_intro h h1 X b l :
  tensor_wf h X → h ⊆ h1 → h1 !! l = None →
  flip_post h X b
    (mkTensor l 0 (sizes X) (stride_contiguous (sizes X)) (dtype X))
    (<[l := Buffer (element_size (dtype X))
        (Some ∘ (λ idx, default 0 (elem h X (flip_coords b 0 (sizes X) idx)))
           <$> indices (sizes X))]> h1).
Proof.
  intros Hwf Hsub Hl. split; simpl; try done.
  - apply not_elem_of_dom. by eapply lookup_weaken_None.
  - etrans; [done|]. by apply insert_subseteq.
  - eexists. rewrite lookup_insert_eq, list_fmap_compose. split; [done|].
    rewrite length_fmap. apply length_indices, Hwf.
  - intros idx Hin.
    erewrite elem_tabulate; [|apply Hwf|done|done|simpl; apply lookup_insert_eq|done].
    destruct (wf_elem _ _ Hwf (flip_coords b 0 (sizes X) idx)) as [v Hv].
    { by apply flip_coords_valid. }
    by rewrite Hv.
Qed.

Lemma flip_post_wf h X b r h' :
  tensor_wf h X → flip_post h X b r h' → tensor_wf h' r.
Proof.
  intros Hwf [Hs Hd Hst Ho Hf Hsub (data & Hl & Hlen) He]. split.
  - by rewrite Hst, Hs, length_stride_contiguous.
  - rewrite Hs. apply Hwf.
  - eexists. split; [done|]. by rewrite Hd.
  - rewrite Hs. intros idx Hin. rewrite He by done.
    by apply (wf_elem _ _ Hwf), flip_coords_valid.
Qed.

Lemma elem_ptr_eq t idx :
  elem_ptr t idx =
    Ptr (storage t) ((storage_offset t + offset_of (strides t) idx) * element_size (dtype t)).
Proof. unfold elem_ptr, data_ptr, ptr_add. simpl. f_equal. lia. Qed.

Lemma data_ptr_add t k :
  data_ptr t +ₚ k * element_size (dtype t) =
    Ptr (storage t) ((storage_offset t + k) * element_size (dtype t)).
Proof. unfold data_ptr, ptr_add. simpl. f_equal. lia. Qed.

Theorem flip_old_cpu_spec h X dims b :
  tensor_wf h X → flip_supported (dtype X) = true →
  dim_list_to_bitset dims (dim X) = Ok b →
  ∃ r h', flip_old_cpu X dims h = (Ok r, h') ∧ flip_post h X b r h'.
Proof.
  intros Hwf Hdt Hb.
  pose proof (fresh_not_in h) as Hfresh.
  set (l := fresh (dom h)) in *.
  set (F := λ idx, default 0 (elem h X (flip_coords b 0 (sizes X) idx))).
  exists (mkTensor l 0 (sizes X) (stride_contiguous (sizes X)) (dtype X)),
    (<[l := Buffer (element_size (dtype X)) (Some ∘ F <$> indices (sizes X))]> h).
  split; [|by apply flip_post_intro].
  unfold flip_old_cpu. rewrite bind_lift, Hb.
  rewrite (bind_ok _ _ _ _ _ (empty_like_contiguous_run X h)). fold l.
  unfold is_quantized. rewrite dispatch_supported by done.
  unfold flip_old_cpu_kernel, parallel_for.
  pose proof (tensor_wf_numel _ _ Hwf) as HN.
  pose proof (wf_sizes _ _ Hwf) as Hsz.
  pose proof (element_size_pos (dtype X)) as Hes.
  destruct (decide (0 < numel X)) as [Hpos|Hzero].
  - assert (Forall (λ n, 0 < n) (sizes X)) as Hall.
    { apply numel_of_nonzero; [done|]. unfold numel in Hpos. lia. }
    set (g := λ i, default 0 (read_cell h (storage X)
      (storage_offset X + flip_old_dst_offset (dim X) (stride_contiguous (sizes X)) b
         (sizes X) (strides X) i))).
    assert (Some ∘ F <$> indices (sizes X) = Some ∘ g <$> seqZ 0 (numel X)) as HFg.
    { rewrite !list_fmap_compose. f_equal.
      transitivity ((λ o, default 0 (read_cell h (storage X) (storage_offset X + o))) <$>
        ((λ i, old_offset b 0 i (stride_contiguous (sizes X)) (sizes X) (strides X))
           <$> seqZ 0 (numel X))).
      - unfold numel. rewrite old_offset_map by (done || apply Hwf).
        by rewrite <-list_fmap_compose.
      - rewrite <-list_fmap_compose. apply list_fmap_ext. intros j i _. simpl.
        unfold g, dim. by rewrite flip_old_dst_offset_eq by apply Hwf. }
    rewrite HFg.
    pose proof (forM_fill
      (λ i, v ← load (element_size (dtype X))
                 (data_ptr X +ₚ flip_old_dst_offset (dim X) (stride_contiguous (sizes X)) b
                    (sizes X) (strides X) i * element_size (dtype X));
            store (element_size (dtype X))
              (data_ptr (mkTensor l 0 (sizes X) (stride_contiguous (sizes X)) (dtype X))
                 +ₚ i * element_size (dtype X)) v)
      g l (element_size (dtype X)) h (seqZ 0 (numel X)) 0 [] [] eq_refl) as Hfill.
    rewrite length_seqZ, !app_nil_r in Hfill. simpl in Hfill.
    rewrite bind_unfold. rewrite Z.sub_0_r. rewrite Hfill; [done|].
    intros j i a c [-> Hj]%lookup_seqZ Ha.
    assert (indices (sizes X) !! j = Some (default [] (indices (sizes X) !! j))
            ∧ default [] (indices (sizes X) !! j) ∈ indices (sizes X)) as [Hidx Hin].
    { destruct (lookup_lt_is_Some_2 (indices (sizes X)) j) as [idx Hidx].
      - rewrite length_indices by done. unfold numel in Hj. lia.
      - rewrite Hidx. simpl. split; [done|]. by eapply list_elem_of_lookup_2. }
    set (idx := default [] (indices (sizes X) !! j)) in *.
    assert (flip_old_dst_offset (dim X) (stride_contiguous (sizes X)) b
              (sizes X) (strides X) (0 + Z.of_nat j)
            = offset_of (strides X) (flip_coords b 0 (sizes X) idx)) as Hoff.
    { unfold dim. rewrite flip_old_dst_offset_eq by apply Hwf.
      pose proof (old_offset_map b (sizes X) 0 (strides X) Hall (wf_strides _ _ Hwf)) as Hmap.
      apply (f_equal (λ l, l !! j)) in Hmap.
      rewrite !list_lookup_fmap, Hidx, lookup_seqZ_lt in Hmap by (unfold numel in Hj; lia).
      simpl in Hmap. by injection Hmap. }
    destruct (wf_elem _ _ Hwf (flip_coords b 0 (sizes X) idx)) as [v Hv].
    { by apply flip_coords_valid. }
    destruct (wf_buffer _ _ Hwf) as (bX & HbX & HwX).
    unfold elem in Hv. rewrite <-Hoff in Hv.
    rewrite bind_unfold, data_ptr_add, load_insert_ne.
    2:{ simpl. intros Heq. rewrite Heq in HbX. by rewrite Hfresh in HbX. }
    erewrite load_read_cell; [|done|done|done|reflexivity|exact Hv].
    simpl. unfold g. rewrite Hv. simpl.
    apply store_next; [done|]. simpl. lia.
  - assert (numel X = 0) as HN0 by lia.
    assert (indices (sizes X) = []) as ->.
    { apply length_zero_iff_nil. rewrite length_indices by done.
      unfold numel in HN0. rewrite HN0. done. }
    rewrite HN0. done.
Qed.

(** ** The lookup arrays *)

Lemma vget_lookup (l : list Z) (d : Z) x :
  0 ≤ d → l !! Z.to_nat d = Some x → vget l d = x.
Proof. intros _ H. unfold vget. by rewrite H. Qed.

Lemma lookup_vget (l : list Z) (d : Z) :
  0 ≤ d < Z.of_nat (length l) → l !! Z.to_nat d = Some (vget l d).
Proof.
  intros Hd. destruct (lookup_lt_is_Some_2 l (Z.to_nat d)) as [x Hx]; [lia|].
  unfold vget. by rewrite Hx.
Qed.

Lemma maybe_wrap_dim_nonneg d r : 0 ≤ d < r → maybe_wrap_dim d r = Ok d.
Proof.
  intros Hd. unfold maybe_wrap_dim.
  destruct (decide (d < 0)); [lia|]. by rewrite decide_True.
Qed.

Lemma maybe_wrap_dim_neg d r : - r ≤ d < 0 → maybe_wrap_dim d r = Ok (d + r).
Proof.
  intros Hd. unfold maybe_wrap_dim.
  destruct (decide (d < 0)); [|lia]. by rewrite decide_True by lia.
Qed.

Lemma size_run t d :
  0 ≤ d < dim t → size t d = Ok (vget (sizes t) d).
Proof.
  intros Hd. unfold size. rewrite maybe_wrap_dim_nonneg by done. simpl.
  apply at_lookup; [lia|]. apply lookup_vget. unfold dim in Hd. lia.
Qed.

Lemma stride_run t d :
  length (strides t) = length (sizes t) →
  0 ≤ d < dim t → stride t d = Ok (vget (strides t) d).
Proof.
  intros Hlen Hd. unfold stride. rewrite maybe_wrap_dim_nonneg by done. simpl.
  apply at_lookup; [lia|]. apply lookup_vget. unfold dim in Hd. lia.
Qed.

Lemma numel_of_replicate_1 r : numel_of (replicate r 1) = 1.
Proof.
  induction r as [|r IH]; [done|].
  cbn [replicate]. rewrite numel_of_cons, IH. lia.
Qed.

Lemma numel_of_insert_replicate (d r : nat) n :
  (d < r)%nat → numel_of (<[d := n]> (replicate r 1)) = n.
Proof.
  revert d. induction r as [|r IH]; intros [|d] Hd; try lia.
  - cbn [replicate insert list_insert]. rewrite numel_of_cons, numel_of_replicate_1. lia.
  - cbn [replicate insert list_insert]. rewrite numel_of_cons, IH by lia. lia.
Qed.

Lemma numel_of_index_shape r d n :
  0 ≤ d < r → numel_of (index_shape r d n) = n.
Proof. intros Hd. unfold index_shape. apply numel_of_insert_replicate. lia. Qed.

Lemma index_ok_weaken X h h' d t : h ⊆ h' → index_ok X h d t → index_ok X h' d t.
Proof. intros Hsub [? ? ? ? Hc]. split; try done. by eapply lookup_weaken. Qed.

Lemma build_index_fill X h d :
  tensor_wf h X → 0 ≤ d < dim X →
  ∃ t h1, (dim_size ← lift (size X d);
           index ← build_index (dim X) d dim_size;
           stride ← lift (stride X d);
           forM_ (seqZ 0 dim_size) (λ i,
             store 8 (data_ptr index +ₚ i * 8)
               ((dim_size - i - 1) * stride * element_size (dtype X)));;
           mret index) h = (Ok t, h1)
    ∧ h ⊆ h1 ∧ (storage t ∉ dom h) ∧ index_ok X h1 d t.
Proof.
  intros Hwf Hd.
  pose proof (fresh_not_in h) as Hfresh. set (l := fresh (dom h)) in *.
  set (n := vget (sizes X) d).
  set (g := λ i, (n - i - 1) * vget (strides X) d * element_size (dtype X)).
  exists (mkTensor l 0 (index_shape (dim X) d n) (stride_contiguous (index_shape (dim X) d n)) kLong),
    (<[l := Buffer 8 (Some ∘ g <$> seqZ 0 n)]> h).
  assert (0 ≤ n) as Hn.
  { pose proof (wf_sizes _ _ Hwf) as Hs. rewrite Forall_forall in Hs.
    apply Hs. eapply list_elem_of_lookup_2, lookup_vget. unfold dim in Hd. lia. }
  split_and!.
  - rewrite bind_lift, size_run by done. fold n.
    unfold build_index. fold (index_shape (dim X) d n).
    rewrite (bind_ok _ _ _ _ _ (empty_run _ _ _)). fold l.
    rewrite bind_lift, stride_run by (done || apply Hwf).
    rewrite numel_of_index_shape by done.
    pose proof (forM_fill
      (λ i, store 8 (data_ptr (mkTensor l 0 (index_shape (dim X) d n)
                      (stride_contiguous (index_shape (dim X) d n)) kLong) +ₚ i * 8)
              ((n - i - 1) * vget (strides X) d * element_size (dtype X)))
      g l 8 h (seqZ 0 n) 0 [] [] eq_refl) as Hfill.
    rewrite length_seqZ, !app_nil_r in Hfill. simpl in Hfill.
    rewrite bind_unfold. simpl. rewrite Hfill; [done|].
    intros j i a c [-> Hj]%lookup_seqZ Ha.
    apply store_next; [done|]. simpl. lia.
  - by apply insert_subseteq.
  - simpl. by apply not_elem_of_dom.
  - split; simpl; try done. by rewrite lookup_insert_eq.
Qed.

Lemma build_indices_loop_spec X fd :
  ∀ h, tensor_wf h X → Forall (λ d, 0 ≤ d < dim X) fd →
  ∃ idxs h1, build_indices_loop X fd h = (Ok idxs, h1)
    ∧ h ⊆ h1 ∧ Forall2 (index_ok X h1) fd idxs.
Proof.
  induction fd as [|d fd IH]; intros h Hwf Hfd.
  - exists [], h. by split_and!.
  - apply Forall_cons in Hfd as [Hd Hfd].
    destruct (build_index_fill X h d Hwf Hd) as (t & h1 & Hrun & Hsub & _ & Hok).
    destruct (IH h1) as (idxs & h2 & Hrun2 & Hsub2 & Hoks); [|done|].
    { by eapply tensor_wf_weaken. }
    exists (t :: idxs), h2. split_and!.
    + unfold build_indices_loop. cbn [mapM].
      rewrite (bind_ok _ _ _ _ _ Hrun).
      unfold build_indices_loop in Hrun2. rewrite (bind_ok _ _ _ _ _ Hrun2). done.
    + by etrans.
    + constructor; [|done]. by eapply index_ok_weaken.
Qed.

(** ** Broadcasting the lookup arrays *)

Lemma infer_size_ones shape :
  Forall2 (λ x y, x = y ∨ x = 1 ∨ y = 1) shape (replicate (length shape) 1)
  ∧ zip_with (λ x y : Z, if decide (x = 1) then y else x) shape
      (replicate (length shape) 1) = shape.
Proof.
  induction shape as [|n shape [IH1 IH2]]; [done|]. simpl. split.
  - constructor; [auto|done].
  - rewrite IH2. by destruct (decide (n = 1)) as [->|].
Qed.

Lemma infer_size_insert shape (d : nat) n :
  shape !! d = Some n →
  Forall2 (λ x y, x = y ∨ x = 1 ∨ y = 1) shape (<[d := n]> (replicate (length shape) 1))
  ∧ zip_with (λ x y : Z, if decide (x = 1) then y else x) shape
      (<[d := n]> (replicate (length shape) 1)) = shape.
Proof.
  revert d. induction shape as [|m shape IH]; intros [|d] Hd; simplify_eq/=.
  - destruct (infer_size_ones shape) as [H1 H2]. split.
    + constructor; [auto|done].
    + rewrite H2. by destruct (decide (n = 1)).
  - destruct (IH d Hd) as [H1 H2]. split.
    + constructor; [auto|done].
    + rewrite H2. by destruct (decide (m = 1)) as [->|].
Qed.

Lemma infer_size_index_shape shape d :
  0 ≤ d < Z.of_nat (length shape) →
  infer_size shape (index_shape (Z.of_nat (length shape)) d (vget shape d)) = Ok shape.
Proof.
  intros Hd. unfold index_shape. rewrite Nat2Z.id.
  destruct (infer_size_insert shape (Z.to_nat d) (vget shape d)) as [H1 H2].
  { by apply lookup_vget. }
  unfold infer_size. rewrite bool_decide_eq_true_2 by done. simpl. by rewrite H2.
Qed.

Lemma infer_shape_indices X h fd idxs :
  Forall (λ d, 0 ≤ d < dim X) fd → Forall2 (index_ok X h) fd idxs →
  infer_shape (sizes X) idxs = Ok (sizes X).
Proof.
  intros Hfd Hok. induction Hok as [|d t fd idxs Hd _ IH]; [done|].
  apply Forall_cons in Hfd as [Hr Hfd]. simpl.
  rewrite (ix_sizes _ _ _ _ Hd). unfold dim.
  rewrite infer_size_index_shape by done. simpl. by apply IH.
Qed.

(** ** Byte strides of the operands *)

Lemma operand_same_shape shape t :
  sizes t = shape → length (strides t) = length shape →
  op_stride_bytes (operand shape t) = (λ s, s * element_size (dtype t)) <$> strides t.
Proof.
  intros <-. unfold operand. simpl.
  generalize (strides t) as st. generalize (sizes t) as sz.
  induction sz as [|n sz IH]; intros [|s st] Hlen; simplify_eq/=; [done|].
  rewrite decide_False by (intros [-> ?]; done). f_equal. by apply IH.
Qed.

Lemma offset_of_scale w ss idx :
  offset_of ((λ s, s * w) <$> ss) idx = offset_of ss idx * w.
Proof.
  revert idx. induction ss as [|s ss IH]; intros [|c idx]; simpl; try done.
  rewrite IH. lia.
Qed.

Lemma elem_of_indices_cons m shape idx :
  idx ∈ indices (m :: shape) →
  ∃ c idx', idx = c :: idx' ∧ 0 ≤ c < m ∧ idx' ∈ indices shape.
Proof.
  intros (c & idx' & Hc & Hin & ->)%elem_of_indices%Forall2_cons_inv_r.
  exists c, idx'. by rewrite elem_of_indices.
Qed.

Lemma offset_index_ones shape :
  ∀ idx ss, idx ∈ indices shape →
  offset_of (zip_with (λ (ns : Z * Z) (m : Z),
                 if decide (ns.1 = 1 ∧ m ≠ 1) then 0 else ns.2 * 8)
               (zip (replicate (length shape) 1) ss) shape) idx = 0.
Proof.
  induction shape as [|m shape IH]; intros idx ss Hin; [by destruct ss|].
  apply elem_of_indices_cons in Hin as (c & idx' & -> & Hc & Hin).
  destruct ss as [|s ss]; [done|]. simpl. rewrite IH by done.
  destruct (decide (1 = 1 ∧ m ≠ 1)); [lia|].
  assert (c = 0) as -> by lia. lia.
Qed.

Lemma stride_contiguous_ones_head n r :
  stride_contiguous (n :: replicate r 1) = 1 :: stride_contiguous (replicate r 1).
Proof.
  rewrite stride_contiguous_cons, head_stride_numel, numel_of_replicate_1; [done|].
  apply Forall_replicate. lia.
Qed.

Lemma offset_index_insert shape :
  ∀ (d : nat) n idx, shape !! d = Some n → idx ∈ indices shape →
  offset_of (zip_with (λ (ns : Z * Z) (m : Z),
                 if decide (ns.1 = 1 ∧ m ≠ 1) then 0 else ns.2 * 8)
               (zip (<[d := n]> (replicate (length shape) 1))
                  (stride_contiguous (<[d := n]> (replicate (length shape) 1)))) shape) idx
  = default 0 (idx !! d) * 8.
Proof.
  induction shape as [|m shape IH]; intros [|d] n idx Hd Hin; try done;
    apply elem_of_indices_cons in Hin as (c & idx' & -> & Hc & Hin);
    cbn [lookup list_lookup] in Hd; cbn [length replicate insert list_insert].
  - simplify_eq. rewrite stride_contiguous_ones_head.
    cbn [zip zip_with fst snd lookup list_lookup default].
    rewrite offset_of_cons, offset_index_ones by done.
    rewrite decide_False by (intros [-> ?]; done). unfold id. lia.
  - rewrite stride_contiguous_cons.
    cbn [zip zip_with fst snd lookup list_lookup].
    rewrite offset_of_cons, IH by done.
    destruct (decide (1 = 1 ∧ m ≠ 1)); [by rewrite Z.mul_0_r|].
    assert (c = 0) as -> by lia. by rewrite Z.mul_0_l.
Qed.

Lemma operand_index X h d t idx :
  index_ok X h d t → 0 ≤ d < dim X → idx ∈ indices (sizes X) →
  offset_of (op_stride_bytes (operand (sizes X) t)) idx = vget idx d * 8.
Proof.
  intros [Hs Hst Ho Hdt Hc] Hd Hin. unfold operand. simpl.
  rewrite Hst, Hs, Hdt. unfold index_shape, dim. rewrite Nat2Z.id. simpl.
  apply offset_index_insert; [|done]. apply lookup_vget. unfold dim in Hd. lia.
Qed.

Lemma length_operand_strides shape t :
  length (sizes t) = length shape → length (strides t) = length shape →
  length (op_stride_bytes (operand shape t)) = length shape.
Proof.
  intros H1 H2. unfold operand. simpl.
  rewrite length_zip_with, length_zip. lia.
Qed.

(** ** Sums over axes *)

Lemma sumZ_cons f x l : sumZ f (x :: l) = f x + sumZ f l.
Proof. reflexivity. Qed.

Lemma sumZ_app f l1 l2 : sumZ f (l1 ++ l2) = sumZ f l1 + sumZ f l2.
Proof. induction l1 as [|x l1 IH]; simpl; [done|]. rewrite IH. lia. Qed.

Lemma sumZ_ext f g l : Forall (λ d, f d = g d) l → sumZ f l = sumZ g l.
Proof. induction 1 as [|x l Hx _ IH]; simpl; [done|]. by rewrite Hx, IH. Qed.

Lemma sumZ_add f g l : sumZ f l + sumZ g l = sumZ (λ d, f d + g d) l.
Proof. induction l as [|x l IH]; simpl; [done|]. rewrite <-IH. lia. Qed.

Lemma sumZ_scale f w l : sumZ (λ d, f d * w) l = sumZ f l * w.
Proof. induction l as [|x l IH]; simpl; [done|]. rewrite IH. lia. Qed.

Lemma sumZ_filter (P : Z → Prop) `{!∀ d, Decision (P d)} f l :
  sumZ f (filter P l) = sumZ (λ d, if decide (P d) then f d else 0) l.
Proof.
  induction l as [|x l IH]; simpl; [done|].
  rewrite filter_cons. destruct (decide (P x)); simpl; by rewrite IH.
Qed.

Lemma sumZ_fmap_id f l : sumZ id (f <$> l) = sumZ f l.
Proof.
  induction l as [|x l IH]; [done|]. by rewrite fmap_cons, !sumZ_cons, IH.
Qed.

Lemma vget_app_l (l1 l2 : list Z) (d : Z) :
  0 ≤ d < Z.of_nat (length l1) → vget (l1 ++ l2) d = vget l1 d.
Proof. intros Hd. unfold vget. by rewrite lookup_app_l by lia. Qed.

Lemma vget_snoc (l : list Z) x : vget (l ++ [x]) (Z.of_nat (length l)) = x.
Proof. by apply vget_app_r. Qed.

Lemma offset_of_sumZ ss :
  ∀ idx, length idx = length ss →
  offset_of ss idx = sumZ (λ d, vget idx d * vget ss d) (seqZ 0 (Z.of_nat (length ss))).
Proof.
  induction ss as [|s ss IH] using rev_ind; intros idx Hlen.
  - by destruct idx.
  - destruct idx as [|c idx _] using rev_ind.
    { rewrite length_app in Hlen. simpl in Hlen. lia. }
    rewrite !length_app in Hlen. simpl in Hlen.
    rewrite offset_of_snoc by lia.
    rewrite length_app. simpl. rewrite Nat.add_1_r, seqZ_S, sumZ_app. simpl.
    rewrite Z.add_0_l.
    replace (Z.of_nat (length ss)) with (Z.of_nat (length idx)) at 2 by lia.
    rewrite !vget_snoc. rewrite IH by lia.
    rewrite (sumZ_ext _ (λ d, vget (idx ++ [c]) d * vget (ss ++ [s]) d)); [lia|].
    apply Forall_forall. intros d Hd%elem_of_seqZ.
    by rewrite !vget_app_l by lia.
Qed.

Lemma length_zero_strides st fd : length (zero_strides st fd) = length st.
Proof.
  revert st. induction fd as [|x fd IH]; intros st; [done|].
  unfold zero_strides in *. simpl. by rewrite IH, length_insert.
Qed.

Lemma vget_zero_strides fd :
  ∀ st d, Forall (λ x, 0 ≤ x) fd → 0 ≤ d < Z.of_nat (length st) →
  vget (zero_strides st fd) d = if decide (d ∈ fd) then 0 else vget st d.
Proof.
  induction fd as [|x fd IH]; intros st d Hfd Hd.
  - simpl. destruct (decide (d ∈ [])) as [Hin|]; [by apply elem_of_nil in Hin|done].
  - apply Forall_cons in Hfd as [Hx Hfd]. unfold zero_strides in *. simpl.
    rewrite IH by (done || by rewrite length_insert).
    destruct (decide (d ∈ fd)) as [Hin|Hnin].
    + by rewrite decide_True by (by apply list_elem_of_further).
    + destruct (decide (d = x)) as [->|Hne].
      * rewrite decide_True by apply list_elem_of_here.
        unfold vget. by rewrite list_lookup_insert_eq by lia.
      * rewrite decide_False by (rewrite elem_of_cons; intros [?|?]; done).
        unfold vget. by rewrite list_lookup_insert_ne by lia.
Qed.

Lemma flip_coords_lookup b shape :
  ∀ d0 idx (j : nat) n c, shape !! j = Some n → idx !! j = Some c →
  flip_coords b d0 shape idx !! j
  = Some (if Z.testbit b (d0 + Z.of_nat j) then n - 1 - c else c).
Proof.
  induction shape as [|m shape IH]; intros d0 [|c0 idx] [|j] n c Hn Hc; simplify_eq/=.
  - by rewrite Z.add_0_r.
  - rewrite (IH (d0 + 1) idx j n c) by done.
    by replace (d0 + 1 + Z.of_nat j) with (d0 + Z.pos (Pos.of_succ_nat j)) by lia.
Qed.

Lemma length_flip_coords b shape :
  ∀ d0 idx, length idx = length shape → length (flip_coords b d0 shape idx) = length shape.
Proof.
  induction shape as [|m shape IH]; intros d0 [|c idx] Hlen; simplify_eq/=; [done|].
  by rewrite IH.
Qed.

Lemma vget_flip_coords b shape idx d :
  length idx = length shape → 0 ≤ d < Z.of_nat (length shape) →
  vget (flip_coords b 0 shape idx) d
  = if Z.testbit b d then vget shape d - 1 - vget idx d else vget idx d.
Proof.
  intros Hlen Hd. apply vget_lookup; [lia|].
  rewrite (flip_coords_lookup b shape 0 idx (Z.to_nat d) (vget shape d) (vget idx d)).
  - by rewrite Z.add_0_l, Z2Nat.id by lia.
  - apply lookup_vget. lia.
  - apply lookup_vget. lia.
Qed.

Lemma elem_of_flip_dims_of b r d :
  d ∈ flip_dims_of b r ↔ Z.testbit b d = true ∧ 0 ≤ d < r.
Proof.
  unfold flip_dims_of. rewrite list_elem_of_filter, elem_of_seqZ, Is_true_true.
  split; intros [? ?]; (split; [done|lia]).
Qed.

(** The address the gather kernel reads: the restrided offset plus the
    looked-up distances is the offset of the mirrored coordinates. *)
Lemma gather_offset b shape st idx :
  length st = length shape → idx ∈ indices shape →
  offset_of (zero_strides st (flip_dims_of b (Z.of_nat (length shape)))) idx
  + sumZ (λ d, (vget shape d - vget idx d - 1) * vget st d)
      (flip_dims_of b (Z.of_nat (length shape)))
  = offset_of st (flip_coords b 0 shape idx).
Proof.
  intros Hst Hin. pose proof (indices_length _ _ Hin) as Hlen.
  set (r := Z.of_nat (length shape)).
  rewrite offset_of_sumZ by (by rewrite length_zero_strides, Hst).
  rewrite (offset_of_sumZ st) by (by rewrite length_flip_coords, Hst).
  rewrite length_zero_strides, Hst. fold r.
  unfold flip_dims_of at 2. rewrite sumZ_filter, sumZ_add.
  apply sumZ_ext, Forall_forall. intros d Hd%elem_of_seqZ.
  rewrite vget_zero_strides, vget_flip_coords; [|done|lia| |lia].
  2:{ apply Forall_forall. intros x Hx%elem_of_flip_dims_of. lia. }
  destruct (Z.testbit b d) eqn:Hb.
  - rewrite decide_True by (apply elem_of_flip_dims_of; split; [done|]; unfold r; lia).
    rewrite decide_True by exact I. lia.
  - rewrite decide_False.
    2:{ intros [E _]%elem_of_flip_dims_of. congruence. }
    rewrite decide_False by (by intros []). lia.
Qed.

(** ** The indexer *)

Lemma foldM_cons {A S} (f : S → A → M S) s x l h :
  foldM f s (x :: l) h =
    match f s x h with (Ok s', h') => foldM f s' l h' | (Err e, h') => (Err e, h') end.
Proof. reflexivity. Qed.

Lemma Indexer_get_tail h (i n : Z) ps ss :
  ∀ vs pre_p pre_s (p m acc : Z),
  Forall2 (λ pq v, load 8 (pq.1 +ₚ i * pq.2) h = (Ok v, h)) (zip ps ss) vs →
  length ps = length ss → m = Z.of_nat (length ps) →
  p = Z.of_nat (length pre_p) → p = Z.of_nat (length pre_s) →
  foldM (λ offset j,
      q ← lift (at_ (indexers (mkIndexer n (pre_p ++ ps) (pre_s ++ ss))) j);
      s ← lift (at_ (indexer_strides (mkIndexer n (pre_p ++ ps) (pre_s ++ ss))) j);
      v ← load 8 (q +ₚ i * s);
      mret (offset + v)) acc (seqZ p m) h
  = (Ok (acc + sumZ id vs), h).
Proof.
  revert ss.
  induction ps as [|q ps IH]; intros [|s ss] vs pre_p pre_s p m acc Hv Hlen Hm Hp Hs;
    simplify_eq/=.
  - apply Forall2_nil_inv_l in Hv as ->. simpl. by rewrite Z.add_0_r.
  - apply Forall2_cons_inv_l in Hv as (v & vs' & Hq & Hv & ->).
    rewrite seqZ_cons by lia. rewrite foldM_cons.
    rewrite bind_lift, (at_lookup _ _ q); [|lia|by rewrite Nat2Z.id, list_lookup_middle].
    rewrite bind_lift, (at_lookup _ _ s); [|lia|].
    2:{ rewrite Hs, Nat2Z.id. by rewrite list_lookup_middle. }
    simpl in Hq. rewrite (bind_ok _ _ _ _ _ Hq). cbn [mret M_ret].
    rewrite (cons_middle q pre_p), (cons_middle s pre_s), !app_assoc.
    rewrite (IH ss vs'); [simpl; unfold id; f_equal; f_equal; lia|done|done|lia|..];
      rewrite length_app; simpl; lia.
Qed.

Lemma Indexer_get_run h i ps ss vs :
  ps ≠ [] → length ps = length ss →
  Forall2 (λ pq v, load 8 (pq.1 +ₚ i * pq.2) h = (Ok v, h)) (zip ps ss) vs →
  Indexer_get (mkIndexer (Z.of_nat (length ps)) ps ss) i h = (Ok (sumZ id vs), h).
Proof.
  intros Hne Hlen Hv. destruct ps as [|q ps]; [done|]. destruct ss as [|s ss]; [done|].
  apply Forall2_cons_inv_l in Hv as (v & vs' & Hq & Hv & ->). simpl in Hq.
  unfold Indexer_get. cbn [indexers indexer_strides num_indexers].
  rewrite bind_lift. cbn [at_]. simpl.
  rewrite bind_lift. simpl.
  rewrite (bind_ok _ _ _ _ _ Hq).
  simpl in Hlen.
  apply (Indexer_get_tail h i (Z.of_nat (length (q :: ps))) ps ss vs' [q] [s]);
    [done|lia|simpl; lia|done|done].
Qed.

(** With no indexer the first read is already outside the operand list. *)
Lemma Indexer_get_no_operand n ss i h :
  Indexer_get (mkIndexer n [] ss) i h = (Err OutOfBounds, h).
Proof. reflexivity. Qed.

(** ** Rows of the iteration *)

Lemma rows_decomp shape :
  indices shape =
    indices (removelast shape) ≫= λ o,
      row_idx shape o <$> seqZ 0 (default 1 (last shape)).
Proof.
  destruct shape as [|n outer _] using rev_ind; [done|].
  rewrite removelast_last, last_snoc, indices_snoc. simpl.
  apply list_bind_ext; [|done]. intros o. by destruct outer.
Qed.

Lemma row_offset shape bs o i :
  length bs = length shape → o ∈ indices (removelast shape) →
  offset_of bs o + i * default 0 (last bs) = offset_of bs (row_idx shape o i).
Proof.
  intros Hlen Ho. destruct shape as [|n outer _] using rev_ind.
  - destruct bs; [|done]. simpl. lia.
  - rewrite removelast_last in Ho. apply indices_length in Ho.
    destruct bs as [|s bs _] using rev_ind.
    { rewrite length_app in Hlen. simpl in Hlen. lia. }
    rewrite !length_app in Hlen. simpl in Hlen.
    rewrite last_snoc. simpl.
    replace (row_idx (outer ++ [n]) o i) with (o ++ [i]) by (by destruct outer).
    rewrite offset_of_snoc, offset_of_app_l by lia. done.
Qed.

Lemma last_nonneg shape :
  Forall (λ n, 0 ≤ n) shape → 0 ≤ default 1 (last shape).
Proof.
  intros Hs. destruct (last shape) as [n|] eqn:E; simpl; [|lia].
  apply last_Some_elem_of in E. rewrite Forall_forall in Hs. by apply Hs.
Qed.

Lemma removelast_nonneg shape :
  Forall (λ n, 0 ≤ n) shape → Forall (λ n, 0 ≤ n) (removelast shape).
Proof.
  intros Hs. destruct shape as [|n outer _] using rev_ind; [done|].
  rewrite removelast_last. by apply Forall_app in Hs as [? _].
Qed.

Lemma row_idx_valid shape o i :
  o ∈ indices (removelast shape) → 0 ≤ i < default 1 (last shape) →
  row_idx shape o i ∈ indices shape.
Proof.
  intros Ho Hi. rewrite (rows_decomp shape). apply list_elem_of_bind.
  exists o. split; [|done]. apply list_elem_of_fmap. exists i. split; [done|].
  apply elem_of_seqZ. lia.
Qed.

Lemma lookup_bind_uniform {A B} (f : A → list B) (m : nat) xs :
  ∀ j x i y, (∀ z, z ∈ xs → length (f z) = m) →
  xs !! j = Some x → f x !! i = Some y → (xs ≫= f) !! (j * m + i)%nat = Some y.
Proof.
  induction xs as [|z xs IH]; intros [|j] x i y Hlen Hj Hi; simplify_eq/=.
  - rewrite lookup_app_l; [done|]. by apply lookup_lt_Some in Hi.
  - rewrite lookup_app_r; rewrite Hlen by apply list_elem_of_here; [|lia].
    replace (m + j * m + i - m)%nat with (j * m + i)%nat by lia.
    eapply IH; [|done..]. intros w Hw. apply Hlen. by apply list_elem_of_further.
Qed.

Lemma length_bind_uniform {A B} (f : A → list B) (m : nat) xs :
  (∀ z, z ∈ xs → length (f z) = m) → length (xs ≫= f) = (length xs * m)%nat.
Proof.
  induction xs as [|z xs IH]; intros Hlen; [done|].
  rewrite bind_cons, length_app, Hlen, IH by (set_solver). simpl. lia.
Qed.

(** The contiguous offset of the [i]-th element of the [j]-th row. *)
Lemma row_position shape (j : nat) o i :
  Forall (λ n, 0 ≤ n) shape →
  indices (removelast shape) !! j = Some o → 0 ≤ i < default 1 (last shape) →
  offset_of (stride_contiguous shape) (row_idx shape o i)
  = Z.of_nat (j * Z.to_nat (default 1 (last shape)) + Z.to_nat i).
Proof.
  intros Hs Hj Hi. apply lookup_indices_offset; [done|].
  rewrite (rows_decomp shape).
  eapply lookup_bind_uniform; [|done|].
  - intros z _. by rewrite length_fmap, length_seqZ.
  - rewrite list_lookup_fmap, lookup_seqZ_lt by lia. simpl. f_equal. f_equal. lia.
Qed.

Lemma numel_rows shape :
  Forall (λ n, 0 ≤ n) shape →
  Z.to_nat (numel_of shape)
  = (length (indices (removelast shape)) * Z.to_nat (default 1%Z (last shape)))%nat.
Proof.
  intros Hs. rewrite <-length_indices by done. rewrite (rows_decomp shape) at 1.
  apply length_bind_uniform. intros z _. by rewrite length_fmap, length_seqZ.
Qed.

(** ** The gather kernel *)

Lemma indices_vget_bounds shape idx d :
  idx ∈ indices shape → 0 ≤ d < Z.of_nat (length shape) →
  0 ≤ vget idx d < vget shape d.
Proof.
  intros Hin Hd. pose proof (indices_length _ _ Hin) as Hlen.
  apply elem_of_indices in Hin.
  eapply (Forall2_lookup_lr _ _ _ (Z.to_nat d)) in Hin;
    [exact Hin|apply lookup_vget; lia|apply lookup_vget; lia].
Qed.

Lemma index_ok_lengths X h d t :
  index_ok X h d t →
  length (sizes t) = length (sizes X) ∧ length (strides t) = length (sizes X).
Proof.
  intros [Hs Hst _ _ _]. rewrite Hst, length_stride_contiguous, Hs.
  unfold index_shape, dim. by rewrite length_insert, length_replicate, Nat2Z.id.
Qed.

(** What the indexer reads from one lookup array at an element of a row. *)
Lemma index_load X h1 l B d t o i :
  index_ok X h1 d t → h1 !! l = None → 0 ≤ d < dim X →
  o ∈ indices (removelast (sizes X)) → 0 ≤ i < default 1 (last (sizes X)) →
  load 8 ((op_data (operand (sizes X) t)
            +ₚ offset_of (op_stride_bytes (operand (sizes X) t)) o)
          +ₚ i * default 0 (last (op_stride_bytes (operand (sizes X) t))))
    (<[l := B]> h1)
  = (Ok ((vget (sizes X) d - vget (row_idx (sizes X) o i) d - 1)
         * vget (strides X) d * element_size (dtype X)), <[l := B]> h1).
Proof.
  intros Hok Hl Hd Ho Hi.
  destruct (index_ok_lengths _ _ _ _ Hok) as [Hls Hlst].
  pose proof (row_idx_valid _ _ _ Ho Hi) as Hin.
  pose proof (indices_vget_bounds _ _ d Hin) as Hb. unfold dim in Hd.
  specialize (Hb Hd).
  assert (((op_data (operand (sizes X) t)
            +ₚ offset_of (op_stride_bytes (operand (sizes X) t)) o)
          +ₚ i * default 0 (last (op_stride_bytes (operand (sizes X) t))))
          = Ptr (storage t) (vget (row_idx (sizes X) o i) d * 8)) as ->.
  { unfold ptr_add. cbn [ploc poff op_data operand data_ptr].
    rewrite (ix_offset _ _ _ _ Hok). f_equal.
    rewrite <-(operand_index X h1 d t) by done.
    rewrite <-(row_offset (sizes X)) by (by rewrite ?length_operand_strides). lia. }
  rewrite load_insert_ne.
  2:{ simpl. intros E. rewrite <-E, (ix_cells _ _ _ _ Hok) in Hl. done. }
  erewrite load_cell; [done|apply (ix_cells _ _ _ _ Hok)|done|lia|lia|].
  simpl. rewrite list_lookup_fmap, lookup_seqZ_lt by lia. simpl.
  rewrite Z2Nat.id by lia. done.
Qed.

Lemma indexer_loads X h1 l B o i ds :
  ∀ ts, Forall2 (index_ok X h1) ds ts → Forall (λ d, 0 ≤ d < dim X) ds →
  h1 !! l = None →
  o ∈ indices (removelast (sizes X)) → 0 ≤ i < default 1 (last (sizes X)) →
  Forall2 (λ pq v, load 8 (pq.1 +ₚ i * pq.2) (<[l := B]> h1) = (Ok v, <[l := B]> h1))
    (zip ((λ op, op_data op +ₚ offset_of (op_stride_bytes op) o)
            <$> (operand (sizes X) <$> ts))
         ((λ op, default 0 (last (op_stride_bytes op))) <$> (operand (sizes X) <$> ts)))
    ((λ d, (vget (sizes X) d - vget (row_idx (sizes X) o i) d - 1)
           * vget (strides X) d * element_size (dtype X)) <$> ds).
Proof.
  intros ts Hok. induction Hok as [|d t ds ts Hd _ IH]; intros Hds Hl Ho Hi.
  - constructor.
  - apply Forall_cons in Hds as [Hr Hds]. rewrite !fmap_cons. cbn [zip zip_with].
    constructor; [|by apply IH]. cbn [fst snd]. by eapply index_load.
Qed.

Lemma at_0 {A} (x : A) l : at_ (x :: l) 0 = Ok x.
Proof. reflexivity. Qed.

Lemma at_1 {A} (x y : A) l : at_ (x :: y :: l) 1 = Ok y.
Proof. reflexivity. Qed.

Section gather.
Variables (h h1 : gmap loc buffer) (X : Tensor) (b : Z) (idxs : list Tensor) (l : loc).
Hypothesis Hwf : tensor_wf h X.
Hypothesis Hsub : h ⊆ h1.
Hypothesis Hidx : Forall2 (index_ok X h1) (flip_dims_of b (dim X)) idxs.
Hypothesis Hl : h1 !! l = None.
Hypothesis Hne : flip_dims_of b (dim X) ≠ [].

Local Abbreviation es := (element_size (dtype X)).
Local Abbreviation fd := (flip_dims_of b (dim X)).
Local Abbreviation restr := (as_strided X (sizes X) (zero_strides (strides X) fd)).
Local Abbreviation out := (mkTensor l 0 (sizes X) (stride_contiguous (sizes X)) (dtype X)).
Local Abbreviation ops := (operand (sizes X) <$> out :: restr :: idxs).
Local Abbreviation F := (λ idx, default 0 (elem h X (flip_coords b 0 (sizes X) idx))).
Local Abbreviation n := (default 1 (last (sizes X))).

Lemma gather_fd_range : Forall (λ d, 0 ≤ d < dim X) fd.
Proof. apply Forall_forall. intros d Hd%elem_of_flip_dims_of. lia. Qed.

(** One turn of the inner loop: element [i] of row [o]. *)
Lemma gather_step (j : nat) o i (a c : list (option Z)) :
  indices (removelast (sizes X)) !! j = Some o → 0 ≤ i < n →
  length a = (j * Z.to_nat n + Z.to_nat i)%nat →
  (offset ← Indexer_get
      (mkIndexer (Z.of_nat (S (S (length idxs))) - 2)
         (drop 2 ((λ op, op_data op +ₚ offset_of (op_stride_bytes op) o) <$> ops))
         (drop 2 ((λ op, default 0 (last (op_stride_bytes op))) <$> ops))) i;
   v ← load es ((op_data (operand (sizes X) restr)
                  +ₚ offset_of (op_stride_bytes (operand (sizes X) restr)) o)
                +ₚ (default 0 (last (op_stride_bytes (operand (sizes X) restr))) * i + offset));
   store es ((op_data (operand (sizes X) out)
               +ₚ offset_of (op_stride_bytes (operand (sizes X) out)) o)
             +ₚ default 0 (last (op_stride_bytes (operand (sizes X) out))) * i) v)
    (<[l := Buffer es (a ++ None :: c)]> h1)
  = (Ok (), <[l := Buffer es (a ++ Some (F (row_idx (sizes X) o i)) :: c)]> h1).
Proof.
  intros Hj Hi Ha.
  pose proof (list_elem_of_lookup_2 _ _ _ Hj) as Ho.
  pose proof (row_idx_valid _ _ _ Ho Hi) as Hin.
  pose proof (element_size_pos (dtype X)) as Hes.
  pose proof (wf_sizes _ _ Hwf) as Hsz.
  pose proof (wf_strides _ _ Hwf) as Hst.
  set (idx := row_idx (sizes X) o i) in *.
  (* the indexer *)
  rewrite !fmap_cons. cbn [drop]. rewrite !drop_0.
  replace (Z.of_nat (S (S (length idxs))) - 2)
    with (Z.of_nat (length ((λ op, op_data op +ₚ offset_of (op_stride_bytes op) o)
                              <$> (operand (sizes X) <$> idxs))))
    by (rewrite !length_fmap; lia).
  erewrite bind_ok.
  2:{ apply Indexer_get_run.
      - intros E%fmap_nil_inv%fmap_nil_inv. subst idxs.
        by apply Forall2_nil_inv_r in Hidx.
      - by rewrite !length_fmap.
      - apply indexer_loads; [done|apply gather_fd_range|done..]. }
  rewrite sumZ_fmap_id. cbv beta. fold idx.
  (* the source element *)
  destruct (wf_elem _ _ Hwf (flip_coords b 0 (sizes X) idx)) as [v Hv].
  { by apply flip_coords_valid. }
  destruct (wf_buffer _ _ Hwf) as (bX & HbX & HwX).
  assert ((op_data (operand (sizes X) restr)
            +ₚ offset_of (op_stride_bytes (operand (sizes X) restr)) o)
          +ₚ (default 0 (last (op_stride_bytes (operand (sizes X) restr))) * i
              + sumZ (λ d, (vget (sizes X) d - vget idx d - 1) * vget (strides X) d * es) fd)
          = Ptr (storage X)
              ((storage_offset X + offset_of (strides X) (flip_coords b 0 (sizes X) idx)) * es))
    as ->.
  { unfold ptr_add. cbn [ploc poff op_data operand data_ptr as_strided storage
      storage_offset dtype]. f_equal.
    rewrite <-(gather_offset b (sizes X) (strides X) idx) by done.
    rewrite sumZ_scale.
    pose proof (row_offset (sizes X) (op_stride_bytes (operand (sizes X) restr)) o i) as Hrow.
    rewrite operand_same_shape in Hrow by (done || (simpl; by rewrite length_zero_strides)).
    rewrite operand_same_shape by (done || (simpl; by rewrite length_zero_strides)).
    cbn [as_strided strides dtype] in *.
    rewrite !offset_of_scale in Hrow. rewrite offset_of_scale. fold idx in Hrow.
    unfold dim in *.
    specialize (Hrow ltac:(by rewrite length_fmap, length_zero_strides) Ho). lia. }
  rewrite bind_unfold, load_insert_ne.
  2:{ simpl. intros E. rewrite <-E in Hl.
      apply (lookup_weaken _ h1) in HbX; [|done]. by rewrite HbX in Hl. }
  erewrite load_read_cell; [|by eapply lookup_weaken|done|done|reflexivity|].
  2:{ eapply read_cell_weaken; [done|]. exact Hv. }
  cbn [fst]. rewrite Hv. cbn [default from_option id].
  (* the destination cell *)
  apply store_next; [done|]. unfold ptr_add.
  cbn [ploc poff op_data operand data_ptr storage storage_offset dtype].
  pose proof (row_offset (sizes X) (op_stride_bytes (operand (sizes X) out)) o i) as Hrow.
  rewrite operand_same_shape in Hrow by (done || (simpl; by rewrite length_stride_contiguous)).
  rewrite operand_same_shape by (done || (simpl; by rewrite length_stride_contiguous)).
  cbn [strides dtype] in *.
  rewrite !offset_of_scale in Hrow. rewrite offset_of_scale. fold idx in Hrow.
  specialize (Hrow ltac:(by rewrite length_fmap, length_stride_contiguous) Ho).
  pose proof (row_position (sizes X) j o i Hsz Hj Hi) as Hpos. fold idx in Hpos.
  rewrite Ha, <-Hpos. lia.
Qed.

(** One row: the inner loop fills the cells of row [j]. *)
Lemma gather_row (j : nat) o (a c : list (option Z)) :
  indices (removelast (sizes X)) !! j = Some o →
  length a = (j * Z.to_nat n)%nat →
  flip_cpu_loop es (Z.of_nat (S (S (length idxs))))
    ((λ op, op_data op +ₚ offset_of (op_stride_bytes op) o) <$> ops)
    ((λ op, default 0 (last (op_stride_bytes op))) <$> ops) n
    (<[l := Buffer es (a ++ replicate (Z.to_nat n) None ++ c)]> h1)
  = (Ok (), <[l := Buffer es
       (a ++ (Some <$> (F ∘ row_idx (sizes X) o <$> seqZ 0 n)) ++ c)]> h1).
Proof.
  intros Hj Ha. unfold flip_cpu_loop.
  rewrite !fmap_cons.
  rewrite bind_lift, at_0, bind_lift, at_1, bind_lift, at_0, bind_lift, at_1.
  rewrite <-(list_fmap_compose (F ∘ row_idx (sizes X) o) Some (seqZ 0 n)).
  rewrite <-(length_seqZ 0 n).
  apply (forM_fill _ (F ∘ row_idx (sizes X) o) l es h1 (seqZ 0 n) (j * Z.to_nat n) a c); [done|].
  intros q i a' c' [-> Hq]%lookup_seqZ Ha'.
  pose proof (gather_step j o (0 + Z.of_nat q) a' c' Hj) as Hstep.
  rewrite !fmap_cons in Hstep. apply Hstep; lia.
Qed.

(** All rows: the kernel fills the output buffer with the mirrored
    elements in row-major order. *)
Lemma gather_rows :
  numel X ≠ 0 →
  forM_ (indices (removelast (sizes X))) (λ o,
    flip_cpu_loop es (Z.of_nat (S (S (length idxs))))
      ((λ op, op_data op +ₚ offset_of (op_stride_bytes op) o) <$> ops)
      ((λ op, default 0 (last (op_stride_bytes op))) <$> ops) n)
    (<[l := Buffer es (replicate (Z.to_nat (numel X)) None)]> h1)
  = (Ok (), <[l := Buffer es (Some ∘ F <$> indices (sizes X))]> h1).
Proof.
  intros HN. pose proof (wf_sizes _ _ Hwf) as Hsz.
  pose proof (forM_blocks
    (λ o, flip_cpu_loop es (Z.of_nat (S (S (length idxs))))
      ((λ op, op_data op +ₚ offset_of (op_stride_bytes op) o) <$> ops)
      ((λ op, default 0 (last (op_stride_bytes op))) <$> ops) n)
    (λ o, F ∘ row_idx (sizes X) o <$> seqZ 0 n) (Z.to_nat n) l es h1
    (indices (removelast (sizes X))) 0 [] [] eq_refl) as H.
  rewrite !app_nil_r in H. cbn [app Nat.add] in H.
  unfold numel. rewrite numel_rows by done.
  rewrite H.
  - do 3 f_equal. rewrite (rows_decomp (sizes X)).
    rewrite (list_fmap_compose _ Some), !list_fmap_of_bind.
    apply list_bind_ext; [|done]. intros o.
    by rewrite <-!list_fmap_compose.
  - intros j o a c Hj Ha. by apply (gather_row j).
  - intros o _. by rewrite length_fmap, length_seqZ.
Qed.

End gather.

(** ** The restride-and-gather flip *)

Lemma flip_cpu_internal_eq self dims : flip_cpu_internal self dims = flip_cpu self dims.
Proof. reflexivity. Qed.

Lemma make_index_iterator_run X h1 b idxs :
  Forall2 (index_ok X h1) (flip_dims_of b (dim X)) idxs →
  make_index_iterator
    (as_strided X (sizes X) (zero_strides (strides X) (flip_dims_of b (dim X)))) idxs h1
  = (Ok (mkIter (sizes X)
           (operand (sizes X) <$>
              mkTensor (fresh (dom h1)) 0 (sizes X) (stride_contiguous (sizes X)) (dtype X)
              :: as_strided X (sizes X) (zero_strides (strides X) (flip_dims_of b (dim X)))
              :: idxs)
           (mkTensor (fresh (dom h1)) 0 (sizes X) (stride_contiguous (sizes X)) (dtype X))),
     <[fresh (dom h1) := Buffer (element_size (dtype X))
         (replicate (Z.to_nat (numel X)) None)]> h1).
Proof.
  intros Hidx. unfold make_index_iterator, TensorIterator_build.
  rewrite bind_lift. cbn [as_strided sizes dtype].
  erewrite infer_shape_indices; [|apply gather_fd_range|done].
  by rewrite (bind_ok _ _ _ _ _ (empty_run _ _ _)).
Qed.

Theorem flip_cpu_spec h X dims b :
  tensor_wf h X → flip_supported (dtype X) = true →
  dim_list_to_bitset dims (dim X) = Ok b →
  flip_dims_of b (dim X) ≠ [] ∨ numel X = 0 →
  ∃ r h', flip_cpu X dims h = (Ok r, h') ∧ flip_post h X b r h'.
Proof.
  intros Hwf Hdt Hb Hcase.
  destruct (build_indices_loop_spec X (flip_dims_of b (dim X)) h Hwf)
    as (idxs & h1 & Hrun & Hsub & Hidx); [apply gather_fd_range|].
  pose proof (fresh_not_in h1) as Hl. set (l := fresh (dom h1)) in *.
  exists (mkTensor l 0 (sizes X) (stride_contiguous (sizes X)) (dtype X)),
    (<[l := Buffer (element_size (dtype X))
         (Some ∘ (λ idx, default 0 (elem h X (flip_coords b 0 (sizes X) idx)))
            <$> indices (sizes X))]> h1).
  split; [|by apply flip_post_intro].
  unfold flip_cpu. rewrite bind_lift, Hb.
  rewrite (bind_ok _ _ _ _ _ Hrun).
  rewrite (bind_ok _ _ _ _ _ (make_index_iterator_run X h1 b idxs Hidx)). fold l.
  unfold flip_stub, is_quantized. rewrite dispatch_supported by done.
  unfold flip_cpu_kernel, for_each, ntensors, output.
  cbn [it_shape it_operands it_output].
  destruct (decide (numel_of (sizes X) = 0)) as [Hz|Hnz].
  - rewrite bind_ret. unfold numel. rewrite Hz.
    assert (indices (sizes X) = []) as ->; [|done].
    apply length_zero_iff_nil. rewrite length_indices by apply Hwf. by rewrite Hz.
  - destruct Hcase as [Hne|Hz]; [|done].
    rewrite length_fmap. cbn [length].
    by rewrite (bind_ok _ _ _ _ _ (gather_rows h h1 X b idxs l Hwf Hsub Hidx Hl Hne Hnz)).
Qed.

(** With no axis to flip the kernel has two operands, and the first read
    of its indexer, [indexers[0]], is past the end of the operand list. *)
Theorem flip_cpu_no_axis h X dims b :
  tensor_wf h X → flip_supported (dtype X) = true →
  dim_list_to_bitset dims (dim X) = Ok b →
  flip_dims_of b (dim X) = [] → 0 < numel X →
  flip_cpu X dims h =
    (Err OutOfBounds,
     <[fresh (dom h) := Buffer (element_size (dtype X))
         (replicate (Z.to_nat (numel X)) None)]> h).
Proof.
  intros Hwf Hdt Hb Hfd HN.
  unfold flip_cpu. rewrite bind_lift, Hb, Hfd.
  unfold build_indices_loop. cbn [mapM]. rewrite bind_ret.
  pose proof (make_index_iterator_run X h b [] ) as Hit. rewrite Hfd in Hit.
  rewrite (bind_ok _ _ _ _ _ (Hit ltac:(constructor))).
  unfold flip_stub, is_quantized. rewrite dispatch_supported by done.
  unfold flip_cpu_kernel, for_each, ntensors.
  cbn [it_shape it_operands it_output].
  rewrite decide_False by (unfold numel in HN; lia).
  pose proof (wf_sizes _ _ Hwf) as Hsz.
  pose proof (numel_rows _ Hsz) as Hrows.
  pose proof (last_nonneg _ Hsz) as Hn.
  destruct (indices (removelast (sizes X))) as [|o rows] eqn:Erows.
  { simpl in Hrows. unfold numel in HN. lia. }
  assert (0 < default 1 (last (sizes X))) as Hn1.
  { destruct (decide (default 1 (last (sizes X)) = 0)) as [E|]; [|lia].
    rewrite E in Hrows. unfold numel in HN. lia. }
  erewrite bind_err; [done|].
  rewrite forM_cons. unfold flip_cpu_loop at 1.
  rewrite !fmap_cons.
  rewrite bind_lift, at_0, bind_lift, at_1, bind_lift, at_0, bind_lift, at_1.
  rewrite seqZ_cons by done. rewrite forM_cons.
  cbn [fmap list_fmap drop]. rewrite bind_unfold, Indexer_get_no_operand. done.
Qed.

(** ** Checking well-formedness by computation *)

Lemma tensor_wf_check_true h t : tensor_wf_check h t = true → tensor_wf h t.
Proof.
  unfold tensor_wf_check. rewrite !andb_true_iff.
  intros [[[H1%bool_decide_eq_true H2%bool_decide_eq_true] H3] H4%bool_decide_eq_true].
  split; [done|done| |by rewrite Forall_forall in H4].
  destruct (h !! storage t) as [b|]; [|done].
  apply bool_decide_eq_true in H3. eauto.
Qed.

(** ** The bitset of axes *)

Lemma dim_list_to_bitset_nil r : r ≤ 64 → dim_list_to_bitset [] r = Ok 0.
Proof.
  intros Hr. unfold dim_list_to_bitset, dim_bitset_size.
  by rewrite bool_decide_eq_true_2 by done.
Qed.

Lemma dim_list_to_bitset_rank dims r b : dim_list_to_bitset dims r = Ok b → r ≤ 64.
Proof.
  unfold dim_list_to_bitset, dim_bitset_size.
  destruct (bool_decide (r ≤ 64)) eqn:E; [|done]. by apply bool_decide_eq_true in E.
Qed.

Lemma flip_dims_of_zero r : flip_dims_of 0 r = [].
Proof.
  unfold flip_dims_of. induction (seqZ 0 r) as [|d l IH]; [done|].
  rewrite filter_cons, Z.testbit_0_l. simpl. done.
Qed.

Lemma maybe_wrap_dim_range d r d' : maybe_wrap_dim d r = Ok d' → 0 ≤ d' < r.
Proof.
  unfold maybe_wrap_dim. destruct (decide (0 ≤ _ < r)); [|done].
  by intros [= <-].
Qed.

Lemma bitset_loop_mono dims r :
  ∀ seen b m, dim_list_to_bitset_loop dims r seen = Ok b →
  Z.testbit seen m = true → Z.testbit b m = true.
Proof.
  induction dims as [|d dims IH]; intros seen b m Hrun Hm; simpl in Hrun.
  - by injection Hrun as <-.
  - destruct (maybe_wrap_dim d r) as [d'|] eqn:Ed; [|done]. simpl in Hrun.
    destruct (Z.testbit seen d') eqn:Eb; [done|]. simpl in Hrun.
    apply (IH _ _ _ Hrun).
    apply maybe_wrap_dim_range in Ed.
    destruct (decide (m < 0)).
    { by rewrite Z.testbit_neg_r in Hm by lia. }
    rewrite Z.setbit_eqb by lia. rewrite Hm. apply orb_true_r.
Qed.

Lemma flip_dims_of_nonempty dims r b :
  dims ≠ [] → dim_list_to_bitset dims r = Ok b → flip_dims_of b r ≠ [].
Proof.
  intros Hne Hb. destruct dims as [|d dims]; [done|].
  unfold dim_list_to_bitset in Hb.
  destruct (TORCH_CHECK _); [|done]. simpl in Hb.
  destruct (maybe_wrap_dim d r) as [d'|] eqn:Ed; [|done]. simpl in Hb.
  rewrite Z.testbit_0_l in Hb. simpl in Hb.
  pose proof (maybe_wrap_dim_range _ _ _ Ed) as Hd.
  assert (d' ∈ flip_dims_of b r) as Hin.
  { apply elem_of_flip_dims_of. split; [|done].
    apply (bitset_loop_mono _ _ _ _ _ Hb). rewrite Z.setbit_eqb by lia.
    by rewrite Z.eqb_refl. }
  intros E. rewrite E in Hin. by apply elem_of_nil in Hin.
Qed.

Lemma dim_list_to_bitset_single d r d' :
  r ≤ 64 → maybe_wrap_dim d r = Ok d' →
  dim_list_to_bitset [d] r = Ok (Z.setbit 0 d').
Proof.
  intros Hr Hd. unfold dim_list_to_bitset, dim_bitset_size.
  rewrite bool_decide_eq_true_2 by done. simpl. rewrite Hd. simpl.
  by rewrite Z.testbit_0_l.
Qed.

Lemma dim_list_to_bitset_pair d0 d1 r a c :
  r ≤ 64 → maybe_wrap_dim d0 r = Ok a → maybe_wrap_dim d1 r = Ok c → a ≠ c →
  dim_list_to_bitset [d0; d1] r = Ok (Z.setbit (Z.setbit 0 a) c).
Proof.
  intros Hr Ha Hc Hne. unfold dim_list_to_bitset, dim_bitset_size.
  rewrite bool_decide_eq_true_2 by done. simpl. rewrite Ha. simpl.
  rewrite Z.testbit_0_l. simpl. rewrite Hc. simpl.
  apply maybe_wrap_dim_range in Ha, Hc.
  rewrite Z.setbit_eqb, Z.testbit_0_l by lia.
  by rewrite (proj2 (Z.eqb_neq a c)).
Qed.

(** ** Flipping twice *)

Lemma flip_coords_involutive b shape :
  ∀ d idx, length idx = length shape →
  flip_coords b d shape (flip_coords b d shape idx) = idx.
Proof.
  induction shape as [|n shape IH]; intros d [|c idx] Hlen; simplify_eq/=; [done|].
  rewrite IH by done. f_equal. destruct (Z.testbit b d); lia.
Qed.

Lemma flip_post_dim h X b r h' : flip_post h X b r h' → dim r = dim X.
Proof. intros H. unfold dim. by rewrite (fp_sizes _ _ _ _ _ H). Qed.

Lemma flip_post_numel h X b r h' : flip_post h X b r h' → numel r = numel X.
Proof. intros H. unfold numel. by rewrite (fp_sizes _ _ _ _ _ H). Qed.

(** Two flips of the same axes give back the elements of the input. *)
Lemma flip_post_twice h X b r1 h1 r2 h2 :
  tensor_wf h X → flip_post h X b r1 h1 → flip_post h1 r1 b r2 h2 →
  sizes r2 = sizes X ∧ to_list h2 r2 = to_list h X ∧ is_Some (to_list h X).
Proof.
  intros Hwf H1 H2.
  pose proof (fp_sizes _ _ _ _ _ H1) as Hs1. pose proof (fp_sizes _ _ _ _ _ H2) as Hs2.
  split_and!; [congruence| |by apply to_list_is_Some].
  apply to_list_pointwise; [congruence|]. intros idx Hin.
  rewrite Hs2, Hs1 in Hin.
  rewrite (fp_elem _ _ _ _ _ H2) by (by rewrite Hs1).
  rewrite Hs1, (fp_elem _ _ _ _ _ H1) by (by apply flip_coords_valid).
  by rewrite flip_coords_involutive by (by apply indices_length).
Qed.

Theorem flip_old_cpu_involution h X dims b :
  tensor_wf h X → flip_supported (dtype X) = true →
  dim_list_to_bitset dims (dim X) = Ok b →
  ∃ r1 h1 r2 h2, flip_old_cpu X dims h = (Ok r1, h1)
    ∧ flip_old_cpu r1 dims h1 = (Ok r2, h2)
    ∧ sizes r2 = sizes X ∧ to_list h2 r2 = to_list h X ∧ is_Some (to_list h X).
Proof.
  intros Hwf Hdt Hb.
  destruct (flip_old_cpu_spec h X dims b Hwf Hdt Hb) as (r1 & h1 & Hrun1 & Hp1).
  destruct (flip_old_cpu_spec h1 r1 dims b) as (r2 & h2 & Hrun2 & Hp2).
  { by eapply flip_post_wf. }
  { by rewrite (fp_dtype _ _ _ _ _ Hp1). }
  { by rewrite (flip_post_dim _ _ _ _ _ Hp1). }
  exists r1, h1, r2, h2. split_and!; [done|done|..]; by eapply flip_post_twice.
Qed.

(** The involution of [flip] wherever the gather kernel has an indexer to
    read, that is for a non-empty axis list, and on empty tensors. *)
Theorem flip_involution_nonempty h X dims b :
  tensor_wf h X → flip_supported (dtype X) = true →
  dim_list_to_bitset dims (dim X) = Ok b →
  dims ≠ [] ∨ numel X = 0 →
  ∃ r1 h1 r2 h2, flip X dims h = (Ok r1, h1) ∧ flip r1 dims h1 = (Ok r2, h2)
    ∧ sizes r2 = sizes X ∧ to_list h2 r2 = to_list h X ∧ is_Some (to_list h X).
Proof.
  intros Hwf Hdt Hb Hcase.
  assert (flip_dims_of b (dim X) ≠ [] ∨ numel X = 0) as Hcase'.
  { destruct Hcase; [left|by right]. by eapply flip_dims_of_nonempty. }
  destruct (flip_cpu_spec h X dims b Hwf Hdt Hb Hcase') as (r1 & h1 & Hrun1 & Hp1).
  destruct (flip_cpu_spec h1 r1 dims b) as (r2 & h2 & Hrun2 & Hp2).
  { by eapply flip_post_wf. }
  { by rewrite (fp_dtype _ _ _ _ _ Hp1). }
  { by rewrite (flip_post_dim _ _ _ _ _ Hp1). }
  { by rewrite (flip_post_dim _ _ _ _ _ Hp1), (flip_post_numel _ _ _ _ _ Hp1). }
  exists r1, h1, r2, h2. split_and!; [done|done|..]; by eapply flip_post_twice.
Qed.

(** The two kernels agree wherever the gather kernel has an indexer to
    read. *)
Theorem flip_kernels_agree_nonempty h X dims b :
  tensor_wf h X → flip_supported (dtype X) = true →
  dim_list_to_bitset dims (dim X) = Ok b →
  dims ≠ [] ∨ numel X = 0 →
  ∃ r1 h1 r2 h2, flip_old_cpu X dims h = (Ok r1, h1)
    ∧ flip_cpu_internal X dims h = (Ok r2, h2)
    ∧ sizes r1 = sizes r2 ∧ strides r1 = strides r2 ∧ dtype r1 = dtype r2
    ∧ to_list h1 r1 = to_list h2 r2 ∧ is_Some (to_list h1 r1).
Proof.
  intros Hwf Hdt Hb Hcase.
  assert (flip_dims_of b (dim X) ≠ [] ∨ numel X = 0) as Hcase'.
  { destruct Hcase; [left|by right]. by eapply flip_dims_of_nonempty. }
  destruct (flip_old_cpu_spec h X dims b Hwf Hdt Hb) as (r1 & h1 & Hrun1 & Hp1).
  destruct (flip_cpu_spec h X dims b Hwf Hdt Hb Hcase') as (r2 & h2 & Hrun2 & Hp2).
  exists r1, h1, r2, h2. rewrite flip_cpu_internal_eq.
  destruct Hp1 as [Hs1 Hd1 Hst1 _ _ _ _ He1]. pose proof (flip_post_wf _ _ _ _ _ Hwf Hp2).
  destruct Hp2 as [Hs2 Hd2 Hst2 _ _ _ _ He2].
  split_and!; [done|done|congruence..| |].
  - apply to_list_pointwise; [congruence|]. intros idx Hin. rewrite Hs1 in Hin.
    by rewrite He1, He2.
  - erewrite to_list_pointwise; [by apply to_list_is_Some|congruence|].
    intros idx Hin. rewrite Hs1 in Hin. by rewrite He1, He2.
Qed.

(** ** Transposed views *)

Lemma length_swap_at {A} (i j : nat) (l : list A) : length (swap_at i j l) = length l.
Proof.
  unfold swap_at. destruct (l !! i), (l !! j); by rewrite ?length_insert.
Qed.

Lemma swap_at_lookup {A} (i j k : nat) (l : list A) :
  (i < length l)%nat → (j < length l)%nat →
  swap_at i j l !! k = l !! (if decide (k = i) then j else if decide (k = j) then i else k).
Proof.
  intros Hi Hj. unfold swap_at.
  destruct (lookup_lt_is_Some_2 l i Hi) as [x Hx].
  destruct (lookup_lt_is_Some_2 l j Hj) as [y Hy]. rewrite Hx, Hy.
  destruct (decide (k = i)) as [->|Hki].
  - by rewrite list_lookup_insert_eq by (by rewrite length_insert).
  - rewrite list_lookup_insert_ne by done.
    destruct (decide (k = j)) as [->|Hkj].
    + by rewrite list_lookup_insert_eq.
    + by rewrite list_lookup_insert_ne.
Qed.

Lemma swap_at_involutive {A} (i j : nat) (l : list A) :
  (i < length l)%nat → (j < length l)%nat → swap_at i j (swap_at i j l) = l.
Proof.
  intros Hi Hj. apply list_eq. intros k.
  rewrite !swap_at_lookup by (by rewrite ?length_swap_at).
  repeat case_decide; by subst.
Qed.

Lemma swap_at_valid (i j : nat) shape idx :
  (i < length shape)%nat → (j < length shape)%nat →
  idx ∈ indices (swap_at i j shape) → swap_at i j idx ∈ indices shape.
Proof.
  intros Hi Hj Hin. pose proof (indices_length _ _ Hin) as Hlen.
  rewrite length_swap_at in Hlen.
  apply elem_of_indices in Hin. apply elem_of_indices.
  apply Forall2_same_length_lookup. split; [by rewrite length_swap_at|].
  intros k c m Hc Hm. rewrite swap_at_lookup in Hc by lia.
  refine (Forall2_lookup_lr _ _ _ _ _ _ Hin Hc _).
  rewrite swap_at_lookup by done. rewrite <-Hm. f_equal.
  repeat case_decide; by subst.
Qed.

Lemma offset_of_insert_l st :
  ∀ idx (i : nat) s', length idx = length st → (i < length st)%nat →
  offset_of (<[i := s']> st) idx
  = offset_of st idx + (s' - default 0 (st !! i)) * default 0 (idx !! i).
Proof.
  induction st as [|s st IH]; intros [|c idx] [|i] s' Hlen Hi; simplify_eq/=; try lia.
  rewrite IH by lia. lia.
Qed.

Lemma offset_of_insert_r st :
  ∀ idx (i : nat) c', length idx = length st → (i < length st)%nat →
  offset_of st (<[i := c']> idx)
  = offset_of st idx + (c' - default 0 (idx !! i)) * default 0 (st !! i).
Proof.
  induction st as [|s st IH]; intros [|c idx] [|i] c' Hlen Hi; simplify_eq/=; try lia.
  rewrite IH by lia. lia.
Qed.

Lemma offset_of_swap_at (i j : nat) st idx :
  length idx = length st → (i < length st)%nat → (j < length st)%nat →
  offset_of (swap_at i j st) idx = offset_of st (swap_at i j idx).
Proof.
  intros Hlen Hi Hj. unfold swap_at.
  destruct (lookup_lt_is_Some_2 st i Hi) as [si Hsi].
  destruct (lookup_lt_is_Some_2 st j Hj) as [sj Hsj].
  destruct (lookup_lt_is_Some_2 idx i) as [ci Hci]; [lia|].
  destruct (lookup_lt_is_Some_2 idx j) as [cj Hcj]; [lia|].
  rewrite Hsi, Hsj, Hci, Hcj.
  rewrite !offset_of_insert_l, !offset_of_insert_r by (by rewrite ?length_insert).
  destruct (decide (i = j)) as [->|Hne].
  - rewrite !list_lookup_insert_eq by lia. rewrite Hsi, Hci. simplify_eq. simpl. lia.
  - rewrite !list_lookup_insert_ne by done. rewrite Hsi, Hsj, Hci, Hcj. simpl. lia.
Qed.

Lemma transpose_run t d0 d1 a c :
  maybe_wrap_dim d0 (dim t) = Ok a → maybe_wrap_dim d1 (dim t) = Ok c →
  transpose_ t d0 d1 =
    Ok (mkTensor (storage t) (storage_offset t)
          (swap_at (Z.to_nat a) (Z.to_nat c) (sizes t))
          (swap_at (Z.to_nat a) (Z.to_nat c) (strides t)) (dtype t)).
Proof. intros Ha Hc. unfold transpose_. by rewrite Ha, Hc. Qed.

(** A transposed view reads the element at the exchanged coordinates. *)
Lemma transpose_view h t (i j : nat) :
  tensor_wf h t → (i < length (sizes t))%nat → (j < length (sizes t))%nat →
  let t' := mkTensor (storage t) (storage_offset t)
              (swap_at i j (sizes t)) (swap_at i j (strides t)) (dtype t) in
  tensor_wf h t' ∧
  ∀ idx, idx ∈ indices (sizes t') → elem h t' idx = elem h t (swap_at i j idx).
Proof.
  intros Hwf Hi Hj t'.
  assert (∀ idx, idx ∈ indices (sizes t') → elem h t' idx = elem h t (swap_at i j idx)) as He.
  { intros idx Hin. unfold elem. simpl.
    pose proof (indices_length _ _ Hin) as Hlen. simpl in Hlen.
    rewrite length_swap_at in Hlen.
    rewrite offset_of_swap_at; [done|..]; rewrite (wf_strides _ _ Hwf); lia. }
  split; [|done]. split; simpl.
  - by rewrite !length_swap_at, (wf_strides _ _ Hwf).
  - apply Forall_forall. intros m Hm.
    apply list_elem_of_lookup in Hm as [k Hk].
    rewrite swap_at_lookup in Hk by done.
    pose proof (wf_sizes _ _ Hwf) as Hs. rewrite Forall_forall in Hs.
    apply Hs. by eapply list_elem_of_lookup_2.
  - apply Hwf.
  - intros idx Hin. rewrite He by done.
    apply (wf_elem _ _ Hwf). by apply swap_at_valid.
Qed.

(** ** rot90 *)

Lemma rem_fix_mod w n : 0 < n →
  (if decide (Z.rem w n < 0) then Z.rem w n + n else Z.rem w n) = w mod n.
Proof.
  intros Hn. pose proof (Z.quot_rem' w n) as Hqr.
  destruct (decide (0 ≤ w)) as [Hw|Hw].
  - pose proof (Z.rem_bound_pos w n Hw Hn). rewrite decide_False by lia.
    apply (Z.mod_unique_pos _ _ (w ÷ n)); lia.
  - pose proof (Z.rem_bound_pos (- w) n ltac:(lia) Hn) as Hb.
    rewrite Z.rem_opp_l in Hb by lia.
    destruct (decide (Z.rem w n < 0)).
    + apply (Z.mod_unique_pos _ _ (w ÷ n - 1)); lia.
    + apply (Z.mod_unique_pos _ _ (w ÷ n)); lia.
Qed.

Lemma rot90_k_norm k : Z.rem (4 + Z.rem k 4) 4 = k mod 4.
Proof.
  pose proof (rem_fix_mod k 4 ltac:(lia)) as H.
  pose proof (Z.mod_pos_bound k 4 ltac:(lia)) as Hb.
  destruct (decide (Z.rem k 4 < 0)).
  - replace (4 + Z.rem k 4) with (k mod 4) by lia.
    rewrite Z.rem_mod_nonneg by lia. by rewrite Z.mod_mod.
  - rewrite H. rewrite Z.rem_mod_nonneg by lia.
    replace (4 + k mod 4) with (k mod 4 + 1 * 4) by lia.
    rewrite Z.mod_add by lia. by rewrite Z.mod_mod.
Qed.

Lemma rot90_k_idem k : Z.rem (4 + Z.rem (k mod 4) 4) 4 = Z.rem (4 + Z.rem k 4) 4.
Proof. rewrite !rot90_k_norm. by rewrite Z.mod_mod. Qed.

Lemma int64_wrap_id z : - 2 ^ 63 ≤ z < 2 ^ 63 → Int64.wrap z = z.
Proof. intros Hz. unfold Int64.wrap. rewrite Z.mod_small; lia. Qed.

Lemma int64_abs_sub d0 d1 :
  - 2 ^ 62 ≤ d0 < 2 ^ 62 → - 2 ^ 62 ≤ d1 < 2 ^ 62 →
  Int64.abs (Int64.sub d0 d1) = Z.abs (d0 - d1).
Proof.
  intros H0 H1. unfold Int64.abs, Int64.sub.
  rewrite (int64_wrap_id (d0 - d1)) by lia. apply int64_wrap_id. lia.
Qed.

(** The checks of [rot90] on a pair of axes it accepts, and the two
    normalised axes. *)
Lemma rot90_accepts_wrap rank d0 d1 :
  ¬ rot90_rejects rank [d0; d1] →
  ∃ a c : nat, maybe_wrap_dim d0 rank = Ok (Z.of_nat a)
    ∧ maybe_wrap_dim d1 rank = Ok (Z.of_nat c)
    ∧ a ≠ c ∧ (Z.of_nat a < rank) ∧ (Z.of_nat c < rank).
Proof.
  intros Hok. simpl in Hok.
  assert (2 ≤ rank ∧ d0 ≠ d1 ∧ Z.abs (d0 - d1) ≠ rank
          ∧ - rank ≤ d0 < rank ∧ - rank ≤ d1 < rank) as (Hr & Hne & Habs & H0 & H1) by lia.
  exists (Z.to_nat (if decide (d0 < 0) then d0 + rank else d0)),
    (Z.to_nat (if decide (d1 < 0) then d1 + rank else d1)).
  unfold maybe_wrap_dim.
  destruct (decide (d0 < 0)), (decide (d1 < 0));
    rewrite !decide_True by lia; rewrite !Z2Nat.id by lia; split_and!; try done; lia.
Qed.

Lemma rot90_checks_run {A} (X : Tensor) d0 d1 (body : Z → Z → M A) h :
  dim X < 2 ^ 62 → ¬ rot90_rejects (dim X) [d0; d1] →
  (lift (TORCH_CHECK (bool_decide (Z.of_nat (length [d0; d1]) = 2)));;
   lift (TORCH_CHECK (bool_decide (2 ≤ dim X)));;
   dims0 ← lift (at_ [d0; d1] 0);
   dims1 ← lift (at_ [d0; d1] 1);
   lift (TORCH_CHECK (bool_decide (dims0 ≠ dims1) &&
                      bool_decide (Int64.abs (Int64.sub dims0 dims1) ≠ dim X)));;
   lift (TORCH_CHECK (bool_decide (dims0 < dim X) && bool_decide (- dim X ≤ dims0)));;
   lift (TORCH_CHECK (bool_decide (dims1 < dim X) && bool_decide (- dim X ≤ dims1)));;
   body dims0 dims1) h = body d0 d1 h.
Proof.
  intros Hrank Hok. simpl in Hok.
  assert (2 ≤ dim X ∧ d0 ≠ d1 ∧ Z.abs (d0 - d1) ≠ dim X
          ∧ - dim X ≤ d0 < dim X ∧ - dim X ≤ d1 < dim X) as (Hr & Hne & Habs & H0 & H1) by lia.
  rewrite bind_lift, bool_decide_eq_true_2 by done. cbn [TORCH_CHECK].
  rewrite bind_lift, bool_decide_eq_true_2 by done. cbn [TORCH_CHECK].
  rewrite bind_lift, at_0, bind_lift, at_1, bind_lift. cbv beta iota.
  rewrite int64_abs_sub by lia.
  rewrite !bool_decide_eq_true_2 by done. cbn [andb TORCH_CHECK].
  rewrite bind_lift, ?bool_decide_eq_true_2 by lia. cbn [andb TORCH_CHECK].
  rewrite bind_lift, ?bool_decide_eq_true_2 by lia. cbn [andb TORCH_CHECK]. done.
Qed.

Lemma testbit_setbit_0 (c k : nat) :
  Z.testbit (Z.setbit 0 (Z.of_nat c)) (Z.of_nat k) = bool_decide (c = k).
Proof.
  rewrite Z.setbit_eqb, Z.testbit_0_l, orb_false_r by lia.
  destruct (decide (c = k)) as [->|Hne].
  - by rewrite Z.eqb_refl, bool_decide_eq_true_2.
  - rewrite bool_decide_eq_false_2 by done. apply Z.eqb_neq. lia.
Qed.

Lemma testbit_setbit_pair (a c k : nat) :
  Z.testbit (Z.setbit (Z.setbit 0 (Z.of_nat a)) (Z.of_nat c)) (Z.of_nat k)
  = bool_decide (c = k) || bool_decide (a = k).
Proof.
  rewrite Z.setbit_eqb by lia. rewrite testbit_setbit_0. f_equal.
  destruct (decide (c = k)) as [->|Hne].
  - by rewrite Z.eqb_refl, bool_decide_eq_true_2.
  - rewrite bool_decide_eq_false_2 by done. apply Z.eqb_neq. lia.
Qed.

(** Flip one axis, transpose, flip it again, transpose: both axes are
    mirrored and the coordinates are back in place. *)
Lemma rot90_twice_coords shape idx (a c : nat) :
  a ≠ c → (a < length shape)%nat → (c < length shape)%nat → idx ∈ indices shape →
  flip_coords (Z.setbit 0 (Z.of_nat c)) 0 shape
    (swap_at a c (flip_coords (Z.setbit 0 (Z.of_nat c)) 0 (swap_at a c shape)
                    (swap_at a c idx)))
  = flip_coords (Z.setbit (Z.setbit 0 (Z.of_nat a)) (Z.of_nat c)) 0 shape idx.
Proof.
  intros Hne Ha Hc Hin. pose proof (indices_length _ _ Hin) as Hlen.
  apply (list_eq_same_length _ _ (length shape)).
  { by rewrite length_flip_coords. }
  { rewrite length_flip_coords; [done|].
    by rewrite length_swap_at, length_flip_coords, length_swap_at
      by (by rewrite !length_swap_at). }
  intros k x y Hk Hx Hy.
  destruct (lookup_lt_is_Some_2 shape k Hk) as [nk Hnk].
  destruct (lookup_lt_is_Some_2 idx k) as [ck Hck]; [lia|].
  destruct (lookup_lt_is_Some_2 shape a Ha) as [na Hna].
  destruct (lookup_lt_is_Some_2 idx a) as [ca Hca]; [lia|].
  destruct (lookup_lt_is_Some_2 shape c Hc) as [nc Hnc].
  destruct (lookup_lt_is_Some_2 idx c) as [cc Hcc]; [lia|].
  erewrite flip_coords_lookup in Hy by done.
  rewrite Z.add_0_l, testbit_setbit_pair in Hy. injection Hy as <-.
  (* the inner flip, read at the position exchanged with [k] *)
  set (k' := if decide (k = a) then c else if decide (k = c) then a else k).
  assert ((k' < length shape)%nat) as Hk' by (unfold k'; repeat case_decide; lia).
  destruct (lookup_lt_is_Some_2 shape
    (if decide (k' = a) then c else if decide (k' = c) then a else k')) as [m Hm].
  { repeat case_decide; lia. }
  destruct (lookup_lt_is_Some_2 idx
    (if decide (k' = a) then c else if decide (k' = c) then a else k')) as [e He].
  { repeat case_decide; lia. }
  erewrite flip_coords_lookup in Hx; [|done|].
  2:{ rewrite swap_at_lookup by (by rewrite length_flip_coords, !length_swap_at
                                   by (by rewrite !length_swap_at)).
      fold k'. erewrite flip_coords_lookup; [done| |].
      - rewrite swap_at_lookup by done. exact Hm.
      - rewrite swap_at_lookup by lia. exact He. }
  rewrite !Z.add_0_l, !testbit_setbit_0 in Hx. injection Hx as <-.
  unfold k' in *. clear k'.
  repeat (case_bool_decide || case_decide); simplify_eq/=; try lia.
Qed.

Lemma rot90_dispatch X k d0 d1 h :
  dim X < 2 ^ 62 → ¬ rot90_rejects (dim X) [d0; d1] →
  rot90 X k [d0; d1] h =
    match k mod 4 with
    | 1 => (t ← flip X [d1]; lift (transpose_ t d0 d1)) h
    | 2 => flip X [d0; d1] h
    | 3 => (t ← flip X [d0]; lift (transpose_ t d0 d1)) h
    | _ => clone X Contiguous h
    end.
Proof.
  intros Hrank Hok. unfold rot90. cbv zeta.
  rewrite (rot90_checks_run X d0 d1 (λ dims0 dims1,
    match Z.rem (4 + Z.rem k 4) 4 with
    | 1 => t ← flip X [dims1]; lift (transpose_ t dims0 dims1)
    | 2 => flip X [d0; d1]
    | 3 => t ← flip X [dims0]; lift (transpose_ t dims0 dims1)
    | _ => clone X Contiguous
    end)) by done.
  rewrite rot90_k_norm.
  destruct (k mod 4) as [|[p|p|]|]; try done; by destruct p.
Qed.

(** Flip one axis, then exchange the two axes of the rotation: the shape
    and the elements of the view that comes out. *)
Lemma flip_transpose_run h X d0 d1 fl (a c f : nat) :
  tensor_wf h X → flip_supported (dtype X) = true → dim X ≤ 64 →
  maybe_wrap_dim d0 (dim X) = Ok (Z.of_nat a) →
  maybe_wrap_dim d1 (dim X) = Ok (Z.of_nat c) →
  maybe_wrap_dim fl (dim X) = Ok (Z.of_nat f) →
  ∃ r h', (t ← flip X [fl]; lift (transpose_ t d0 d1)) h = (Ok r, h') ∧ tensor_wf h' r
    ∧ sizes r = swap_at a c (sizes X) ∧ dtype r = dtype X
    ∧ ∀ idx, idx ∈ indices (sizes r) →
        elem h' r idx
        = elem h X (flip_coords (Z.setbit 0 (Z.of_nat f)) 0 (sizes X) (swap_at a c idx)).
Proof.
  intros Hwf Hdt Hrank Ha Hc Hf.
  pose proof (maybe_wrap_dim_range _ _ _ Ha) as Har.
  pose proof (maybe_wrap_dim_range _ _ _ Hc) as Hcr.
  pose proof (dim_list_to_bitset_single fl (dim X) _ Hrank Hf) as Hb.
  destruct (flip_cpu_spec h X [fl] _ Hwf Hdt Hb) as (t & h' & Hrun & Hp).
  { left. by apply (flip_dims_of_nonempty [fl]). }
  pose proof (flip_post_wf _ _ _ _ _ Hwf Hp) as Hwft.
  pose proof (fp_sizes _ _ _ _ _ Hp) as Hst.
  destruct (transpose_view h' t a c Hwft) as [Hwfr Her].
  { rewrite Hst. unfold dim in Har. lia. }
  { rewrite Hst. unfold dim in Hcr. lia. }
  eexists _, h'. split_and!.
  - unfold flip. rewrite (bind_ok _ _ _ _ _ Hrun). unfold lift.
    erewrite transpose_run; [done|..]; unfold dim; rewrite Hst; fold (dim X);
      rewrite ?Ha, ?Hc, ?Nat2Z.id; done.
  - rewrite !Nat2Z.id. exact Hwfr.
  - simpl. by rewrite !Nat2Z.id, Hst.
  - simpl. apply Hp.
  - intros idx Hin. simpl in Hin. rewrite !Nat2Z.id in Hin |- *.
    rewrite Her by done. apply (fp_elem _ _ _ _ _ Hp).
    rewrite <-Hst. apply swap_at_valid; [rewrite Hst..|done]; unfold dim in *; lia.
Qed.

(** A quarter turn: flip the second axis, then exchange the two. *)
Lemma rot90_quarter h X d0 d1 (a c : nat) :
  tensor_wf h X → flip_supported (dtype X) = true → dim X ≤ 64 →
  ¬ rot90_rejects (dim X) [d0; d1] →
  maybe_wrap_dim d0 (dim X) = Ok (Z.of_nat a) →
  maybe_wrap_dim d1 (dim X) = Ok (Z.of_nat c) →
  ∃ r h', rot90 X 1 [d0; d1] h = (Ok r, h') ∧ tensor_wf h' r
    ∧ sizes r = swap_at a c (sizes X) ∧ dtype r = dtype X
    ∧ ∀ idx, idx ∈ indices (sizes r) →
        elem h' r idx
        = elem h X (flip_coords (Z.setbit 0 (Z.of_nat c)) 0 (sizes X) (swap_at a c idx)).
Proof.
  intros Hwf Hdt Hrank Hok Ha Hc.
  rewrite rot90_dispatch by (done || lia). change (1 mod 4) with 1.
  by apply flip_transpose_run.
Qed.

(** Two quarter turns are the flip of both axes, which is [rot90] with
    [k = 2]. *)
Theorem rot90_twice h X d0 d1 :
  tensor_wf h X → flip_supported (dtype X) = true → dim X ≤ 64 →
  ¬ rot90_rejects (dim X) [d0; d1] →
  ∃ r1 h1 r2 h2 r3 h3,
    rot90 X 1 [d0; d1] h = (Ok r1, h1) ∧ rot90 r1 1 [d0; d1] h1 = (Ok r2, h2)
    ∧ rot90 X 2 [d0; d1] h = (Ok r3, h3) ∧ flip X [d0; d1] h = (Ok r3, h3)
    ∧ sizes r2 = sizes r3 ∧ to_list h2 r2 = to_list h3 r3 ∧ is_Some (to_list h3 r3).
Proof.
  intros Hwf Hdt Hrank Hok.
  destruct (rot90_accepts_wrap _ _ _ Hok) as (a & c & Ha & Hc & Hne & Har & Hcr).
  destruct (rot90_quarter h X d0 d1 a c Hwf Hdt Hrank Hok Ha Hc)
    as (r1 & h1 & Hrun1 & Hwf1 & Hs1 & Hd1 & He1).
  assert (dim r1 = dim X) as Hdim1 by (unfold dim; by rewrite Hs1, length_swap_at).
  destruct (rot90_quarter h1 r1 d0 d1 a c Hwf1)
    as (r2 & h2 & Hrun2 & Hwf2 & Hs2 & Hd2 & He2); rewrite ?Hdim1, ?Hd1; try done.
  assert (Z.of_nat a ≠ Z.of_nat c) as Hne' by lia.
  pose proof (dim_list_to_bitset_pair d0 d1 (dim X) _ _ Hrank Ha Hc Hne') as Hb.
  destruct (flip_cpu_spec h X [d0; d1] _ Hwf Hdt Hb) as (r3 & h3 & Hrun3 & Hp3).
  { left. by apply (flip_dims_of_nonempty [d0; d1]). }
  pose proof (flip_post_wf _ _ _ _ _ Hwf Hp3) as Hwf3.
  pose proof (fp_sizes _ _ _ _ _ Hp3) as Hs3.
  assert ((a < length (sizes X))%nat ∧ (c < length (sizes X))%nat) as [Hal Hcl]
    by (unfold dim in *; lia).
  assert (sizes r2 = sizes X) as Hs2'.
  { by rewrite Hs2, Hs1, swap_at_involutive. }
  exists r1, h1, r2, h2, r3, h3. split_and!; try done.
  - rewrite rot90_dispatch by (done || lia). by change (2 mod 4) with 2.
  - congruence.
  - apply to_list_pointwise; [congruence|]. intros idx Hin.
    rewrite He2 by done. rewrite Hs2' in Hin.
    rewrite He1.
    2:{ apply flip_coords_valid. rewrite Hs1.
        rewrite <-(swap_at_involutive a c (sizes X)) in Hin by done.
        apply swap_at_valid in Hin; by rewrite ?length_swap_at. }
    rewrite Hs1, rot90_twice_coords by done.
    symmetry. by apply (fp_elem _ _ _ _ _ Hp3).
  - by apply to_list_is_Some.
Qed.

(** ** Copies *)

Lemma flip_coords_zero shape :
  ∀ d idx, length idx = length shape → flip_coords 0 d shape idx = idx.
Proof.
  induction shape as [|n shape IH]; intros d [|c idx] Hlen; simplify_eq/=; [done|].
  by rewrite Z.testbit_0_l, IH.
Qed.

(** [clone] into the contiguous format is the flip of no axis. *)
Theorem clone_contiguous_spec h X :
  tensor_wf h X →
  ∃ r h', clone X Contiguous h = (Ok r, h') ∧ flip_post h X 0 r h'.
Proof.
  intros Hwf.
  pose proof (fresh_not_in h) as Hfresh. set (l := fresh (dom h)) in *.
  exists (mkTensor l 0 (sizes X) (stride_contiguous (sizes X)) (dtype X)),
    (<[l := Buffer (element_size (dtype X))
         (Some ∘ (λ idx, default 0 (elem h X (flip_coords 0 0 (sizes X) idx)))
            <$> indices (sizes X))]> h).
  split; [|by apply flip_post_intro].
  pose proof (wf_sizes _ _ Hwf) as Hsz.
  pose proof (element_size_pos (dtype X)) as Hes.
  unfold clone. rewrite (bind_ok _ _ _ _ _ (empty_like_contiguous_run X h)). fold l.
  rewrite bind_unfold. unfold copy_. cbn [sizes dtype].
  rewrite bind_lift, bool_decide_eq_true_2 by done. cbn [TORCH_CHECK].
  pose proof (forM_fill
    (λ idx, v ← load (element_size (dtype X)) (elem_ptr X idx);
            store (element_size (dtype X))
              (elem_ptr (mkTensor l 0 (sizes X) (stride_contiguous (sizes X)) (dtype X)) idx) v)
    (λ idx, default 0 (elem h X (flip_coords 0 0 (sizes X) idx)))
    l (element_size (dtype X)) h (indices (sizes X)) 0 [] [] eq_refl) as Hfill.
  rewrite !app_nil_r in Hfill. cbn [app Nat.add] in Hfill.
  unfold numel. rewrite <-length_indices by done.
  rewrite Hfill; [done|].
  intros j idx a c Hj Ha.
  pose proof (list_elem_of_lookup_2 _ _ _ Hj) as Hin.
  destruct (wf_elem _ _ Hwf idx Hin) as [v Hv].
  destruct (wf_buffer _ _ Hwf) as (bX & HbX & HwX).
  rewrite flip_coords_zero by (by apply indices_length).
  rewrite bind_unfold, elem_ptr_eq, load_insert_ne.
  2:{ simpl. intros E. rewrite E in HbX. by rewrite Hfresh in HbX. }
  erewrite load_read_cell; [|done|done|done|reflexivity|exact Hv].
  cbn [fst]. rewrite Hv. cbn [default from_option id].
  rewrite elem_ptr_eq. cbn [storage storage_offset strides dtype].
  apply store_next; [done|].
  rewrite (lookup_indices_offset _ j idx) by done. lia.
Qed.

(** [clone] of an empty tensor in the preserving format: a fresh empty
    buffer under the metadata of the input. *)
Lemma clone_preserve_empty h X :
  numel X = 0 → Forall (λ n, 0 ≤ n) (sizes X) →
  clone X Preserve h =
    (Ok (mkTensor (fresh (dom h)) 0 (sizes X) (strides X) (dtype X)),
     <[fresh (dom h) := Buffer (element_size (dtype X)) []]> h).
Proof.
  intros HN Hsz.
  assert (indices (sizes X) = []) as Hidx.
  { apply length_zero_iff_nil. rewrite length_indices by done.
    unfold numel in HN. by rewrite HN. }
  unfold clone, empty_like. rewrite bind_unfold.
  rewrite (bind_ok _ _ _ _ _ (empty_run _ _ _)).
  unfold non_overlapping_and_dense. rewrite Hidx. cbn [fmap list_fmap].
  rewrite bool_decide_eq_true_2 by (split; constructor).
  cbn [mret M_ret]. rewrite bind_unfold. unfold copy_. cbn [sizes dtype storage].
  rewrite bind_lift, bool_decide_eq_true_2 by done. cbn [TORCH_CHECK].
  rewrite Hidx. unfold numel in HN. by rewrite HN.
Qed.

(** ** Narrowed views *)

Lemma narrow_run X d start len (k : nat) n s :
  maybe_wrap_dim d (dim X) = Ok (Z.of_nat k) →
  sizes X !! k = Some n → strides X !! k = Some s →
  0 ≤ start → 0 ≤ len → start + len ≤ n →
  narrow X d start len =
    Ok (mkTensor (storage X) (storage_offset X + start * s)
          (<[k := len]> (sizes X)) (strides X) (dtype X)).
Proof.
  intros Hd Hn Hs H1 H2 H3. unfold narrow. rewrite Hd. simpl.
  rewrite (at_lookup (sizes X) (Z.of_nat k) n); [|lia|by rewrite Nat2Z.id]. simpl.
  rewrite (at_lookup (strides X) (Z.of_nat k) s); [|lia|by rewrite Nat2Z.id]. simpl.
  rewrite bool_decide_eq_true_2 by done. simpl. by rewrite Nat2Z.id.
Qed.

(** A coordinate vector of the narrowed shape, moved by [start] along the
    axis, is a coordinate vector of the whole shape. *)
Lemma narrow_index_valid shape (k : nat) n len start idx :
  shape !! k = Some n → 0 ≤ start → start + len ≤ n →
  idx ∈ indices (<[k := len]> shape) →
  <[k := default 0 (idx !! k) + start]> idx ∈ indices shape.
Proof.
  intros Hn Hs Hl Hin. pose proof (indices_length _ _ Hin) as Hlen.
  rewrite length_insert in Hlen.
  apply elem_of_indices in Hin. apply elem_of_indices.
  apply Forall2_same_length_lookup. split; [by rewrite length_insert|].
  intros j c m Hc Hm.
  destruct (decide (j = k)) as [->|Hne].
  - rewrite list_lookup_insert_eq in Hc by (apply lookup_lt_Some in Hm; lia).
    simplify_eq.
    destruct (lookup_lt_is_Some_2 idx k) as [ck Hck].
    { apply lookup_lt_Some in Hn. lia. }
    rewrite Hck. simpl.
    assert (0 ≤ ck < len); [|lia].
    refine (Forall2_lookup_lr _ _ _ _ _ _ Hin Hck _).
    apply list_lookup_insert_eq. by apply lookup_lt_Some in Hn.
  - rewrite list_lookup_insert_ne in Hc by done.
    refine (Forall2_lookup_lr _ _ _ _ _ _ Hin Hc _).
    by rewrite list_lookup_insert_ne.
Qed.

Lemma narrow_offset st idx (k : nat) s start :
  length idx = length st → st !! k = Some s →
  offset_of st (<[k := default 0 (idx !! k) + start]> idx)
  = offset_of st idx + start * s.
Proof.
  intros Hlen Hs. rewrite offset_of_insert_r; [|done|by apply lookup_lt_Some in Hs].
  rewrite Hs. simpl. lia.
Qed.

Lemma narrow_wf h X (k : nat) n s start len :
  tensor_wf h X → sizes X !! k = Some n → strides X !! k = Some s →
  0 ≤ start → 0 ≤ len → start + len ≤ n →
  tensor_wf h (mkTensor (storage X) (storage_offset X + start * s)
                 (<[k := len]> (sizes X)) (strides X) (dtype X)).
Proof.
  intros Hwf Hn Hs H1 H2 H3. split; simpl.
  - by rewrite length_insert, (wf_strides _ _ Hwf).
  - apply Forall_insert; [apply Hwf|done].
  - apply Hwf.
  - intros idx Hin. pose proof (indices_length _ _ Hin) as Hlen.
    rewrite length_insert in Hlen.
    pose proof (narrow_index_valid _ _ _ _ _ _ Hn H1 H3 Hin) as Hin'.
    destruct (wf_elem _ _ Hwf _ Hin') as [v Hv]. exists v.
    unfold elem in *. simpl.
    rewrite (narrow_offset _ _ _ s) in Hv by (done || by rewrite (wf_strides _ _ Hwf)).
    rewrite <-Hv. f_equal. lia.
Qed.

(** The cells a slice of a dense array addresses lie inside the array. *)
Lemma narrow_bounds shape (k : nat) n start len idx :
  Forall (λ m, 0 ≤ m) shape → shape !! k = Some n → 0 ≤ start → start + len ≤ n →
  idx ∈ indices (<[k := len]> shape) →
  0 ≤ start * default 0 (stride_contiguous shape !! k)
      + offset_of (stride_contiguous shape) idx < numel_of shape.
Proof.
  intros Hsz Hn H1 H3 Hin. pose proof (indices_length _ _ Hin) as Hlen.
  rewrite length_insert in Hlen.
  pose proof (narrow_index_valid _ _ _ _ _ _ Hn H1 H3 Hin) as Hin'.
  destruct (lookup_lt_is_Some_2 (stride_contiguous shape) k) as [s Hs].
  { rewrite length_stride_contiguous. by apply lookup_lt_Some in Hn. }
  destruct (indices_lookup_offset _ _ Hsz Hin') as [Hb _].
  rewrite (narrow_offset _ _ _ s) in Hb
    by (done || by rewrite length_stride_contiguous).
  rewrite Hs. simpl. lia.
Qed.

(** ** Copying into a buffer under construction *)

Lemma store_at h0 l w off k v cs :
  0 < w → 0 ≤ k → off = k * w → (Z.to_nat k < length cs)%nat →
  store w (Ptr l off) v (<[l := Buffer w cs]> h0) =
    (Ok (), <[l := Buffer w (<[Z.to_nat k := Some v]> cs)]> h0).
Proof.
  intros Hw Hk -> Hlt.
  erewrite store_cell; [|apply lookup_insert_eq|done..].
  by rewrite insert_insert_eq.
Qed.

Lemma copy_loop h0 l dst src xs :
  h0 !! l = None → storage dst = l → tensor_wf h0 src → dtype dst = dtype src →
  ∀ cs : list (option Z),
  Forall (λ idx, idx ∈ indices (sizes src)
                 ∧ 0 ≤ storage_offset dst + offset_of (strides dst) idx
                     < Z.of_nat (length cs)) xs →
  ∃ cs', length cs' = length cs ∧
    forM_ xs (λ idx,
      v ← load (element_size (dtype src)) (elem_ptr src idx);
      store (element_size (dtype dst)) (elem_ptr dst idx) v)
      (<[l := Buffer (element_size (dtype src)) cs]> h0)
    = (Ok (), <[l := Buffer (element_size (dtype src)) cs']> h0).
Proof.
  intros Hl Hdst Hwf Hdt.
  pose proof (element_size_pos (dtype src)) as Hes.
  destruct (wf_buffer _ _ Hwf) as (bs & Hbs & Hws).
  induction xs as [|idx xs IH]; intros cs Hxs.
  - by exists cs.
  - apply Forall_cons in Hxs as [[Hin Hb] Hxs].
    destruct (wf_elem _ _ Hwf idx Hin) as [v Hv].
    destruct (IH (<[Z.to_nat (storage_offset dst + offset_of (strides dst) idx)
                    := Some v]> cs)) as (cs' & Hlen & Hrun).
    { rewrite length_insert. done. }
    exists cs'. split; [by rewrite Hlen, length_insert|].
    rewrite forM_cons, bind_unfold, elem_ptr_eq, load_insert_ne.
    2:{ simpl. intros E. rewrite E in Hbs. by rewrite Hl in Hbs. }
    erewrite load_read_cell; [|done|done|done|reflexivity|exact Hv].
    cbn [fst]. rewrite elem_ptr_eq, Hdst. rewrite Hdt in Hrun |- *.
    rewrite (store_at h0 l _ _ (storage_offset dst + offset_of (strides dst) idx) v cs);
      [exact Hrun|done|lia|reflexivity|lia].
Qed.

Lemma copy_into h0 l dst src cs :
  h0 !! l = None → storage dst = l → tensor_wf h0 src →
  sizes dst = sizes src → dtype dst = dtype src →
  (∀ idx, idx ∈ indices (sizes src) →
     0 ≤ storage_offset dst + offset_of (strides dst) idx < Z.of_nat (length cs)) →
  ∃ cs', length cs' = length cs ∧
    copy_ dst src (<[l := Buffer (element_size (dtype src)) cs]> h0)
    = (Ok (), <[l := Buffer (element_size (dtype src)) cs']> h0).
Proof.
  intros Hl Hdst Hwf Hsz Hdt Hb.
  destruct (copy_loop h0 l dst src (indices (sizes src)) Hl Hdst Hwf Hdt cs)
    as (cs' & Hlen & Hrun).
  { apply Forall_forall. auto. }
  exists cs'. split; [done|]. unfold copy_.
  rewrite bind_lift, bool_decide_eq_true_2 by done. cbn [TORCH_CHECK].
  by rewrite Hsz.
Qed.

(** ** Concatenation *)

Lemma maybe_wrap_dim_nat (k : nat) r :
  Z.of_nat k < r → maybe_wrap_dim (Z.of_nat k) r = Ok (Z.of_nat k).
Proof. intros. apply maybe_wrap_dim_nonneg. lia. Qed.

Lemma same_shape_insert (k : nat) (a b : list Z) x :
  same_shape_except k a b → <[k := x]> a = <[k := x]> b.
Proof.
  unfold same_shape_except. intros H.
  rewrite <-(list_insert_insert_eq a k x 0), <-(list_insert_insert_eq b k x 0).
  by rewrite H.
Qed.

Lemma same_shape_length (k : nat) (a b : list Z) :
  same_shape_except k a b → length a = length b.
Proof.
  unfold same_shape_except. intros H.
  apply (f_equal length) in H. by rewrite !length_insert in H.
Qed.

Lemma cat_size_run h (k : nat) S0 ts :
  Forall (λ t, tensor_wf h t ∧ same_shape_except k S0 (sizes t)) ts →
  (k < length S0)%nat →
  ∃ m, cat_size (Z.of_nat k) ts = Ok m ∧ 0 ≤ m.
Proof.
  intros Hts Hk. induction Hts as [|t ts [Hwf Hsame] _ (m & Hm & Hm0)].
  - by exists 0.
  - destruct (lookup_lt_is_Some_2 (sizes t) k) as [n Hn].
    { by rewrite <-(same_shape_length _ _ _ Hsame). }
    exists (n + m). simpl.
    rewrite (at_lookup _ _ n); [|lia|by rewrite Nat2Z.id]. simpl. rewrite Hm. simpl.
    split; [done|].
    pose proof (wf_sizes _ _ Hwf) as Hsz. rewrite Forall_forall in Hsz.
    assert (0 ≤ n); [|lia]. apply Hsz. by eapply list_elem_of_lookup_2.
Qed.

Lemma cat_copy_run h0 l (k : nat) S0 total dt ts :
  h0 !! l = None → (k < length S0)%nat →
  Forall (λ m, 0 ≤ m) (<[k := total]> S0) →
  ∀ off (cs : list (option Z)) m,
  length cs = Z.to_nat (numel_of (<[k := total]> S0)) →
  Forall (λ t, tensor_wf h0 t ∧ same_shape_except k S0 (sizes t) ∧ dtype t = dt) ts →
  0 ≤ off → cat_size (Z.of_nat k) ts = Ok m → off + m ≤ total →
  ∃ cs', length cs' = length cs ∧
    cat_copy (mkTensor l 0 (<[k := total]> S0)
                (stride_contiguous (<[k := total]> S0)) dt) (Z.of_nat k) off ts
      (<[l := Buffer (element_size dt) cs]> h0)
    = (Ok (), <[l := Buffer (element_size dt) cs']> h0).
Proof.
  intros Hl Hk Hout.
  induction ts as [|t ts IH]; intros off cs m Hcs Hts Hoff Hm Htot.
  - by exists cs.
  - apply Forall_cons in Hts as [(Hwf & Hsame & Hdt) Hts].
    destruct (lookup_lt_is_Some_2 (sizes t) k) as [n Hn].
    { by rewrite <-(same_shape_length _ _ _ Hsame). }
    assert (0 ≤ n) as Hn0.
    { pose proof (wf_sizes _ _ Hwf) as Hsz. rewrite Forall_forall in Hsz.
      apply Hsz. by eapply list_elem_of_lookup_2. }
    simpl in Hm. rewrite (at_lookup _ _ n) in Hm; [|lia|by rewrite Nat2Z.id].
    simpl in Hm.
    destruct (cat_size_run h0 k S0 ts) as (m' & Hm' & Hm0); [|done|].
    { eapply Forall_impl; [exact Hts|]. by intros ? (? & ? & ?). }
    rewrite Hm' in Hm. simpl in Hm. injection Hm as <-.
    destruct (lookup_lt_is_Some_2 (stride_contiguous (<[k := total]> S0)) k) as [s Hs].
    { by rewrite length_stride_contiguous, length_insert. }
    set (out := mkTensor l 0 (<[k := total]> S0) (stride_contiguous (<[k := total]> S0)) dt).
    assert (narrow out (Z.of_nat k) off n
            = Ok (mkTensor l (0 + off * s) (<[k := n]> (<[k := total]> S0))
                    (stride_contiguous (<[k := total]> S0)) dt)) as Hnarrow.
    { apply (narrow_run out _ _ _ k total s); try done; try lia.
      - apply maybe_wrap_dim_nat. unfold dim, out. simpl. rewrite length_insert. lia.
      - simpl. by apply list_lookup_insert_eq. }
    assert (<[k := n]> (<[k := total]> S0) = sizes t) as Hview.
    { rewrite list_insert_insert_eq, (same_shape_insert _ _ _ n Hsame).
      by apply list_insert_id. }
    destruct (copy_into h0 l
      (mkTensor l (0 + off * s) (<[k := n]> (<[k := total]> S0))
         (stride_contiguous (<[k := total]> S0)) dt) t cs Hl eq_refl Hwf)
      as (cs1 & Hlen1 & Hcopy); [done|done| |].
    { intros idx Hin. simpl. rewrite Hcs, Z2Nat.id by (by apply numel_of_nonneg).
      rewrite <-Hview in Hin.
      pose proof (narrow_bounds (<[k := total]> S0) k total off n idx Hout) as Hb.
      rewrite Hs in Hb. simpl in Hb.
      apply Hb; [by apply list_lookup_insert_eq|done|lia|done]. }
    destruct (IH (off + n) cs1 m') as (cs' & Hlen' & Hrun);
      [by rewrite Hlen1|done|lia|done|lia|].
    exists cs'. split; [congruence|].
    cbn [cat_copy]. fold out.
    rewrite bind_lift, (at_lookup _ _ n); [|lia|by rewrite Nat2Z.id].
    rewrite bind_lift, Hnarrow. rewrite <-Hdt in Hcopy |- *.
    rewrite (bind_ok _ _ _ _ _ Hcopy). rewrite Hdt. exact Hrun.
Qed.

(** [cat] of well-formed views of one shape up to the axis: a fresh dense
    tensor whose size along the axis is the sum of theirs. *)
Lemma cat_run h t0 ts d (k : nat) :
  maybe_wrap_dim d (dim t0) = Ok (Z.of_nat k) →
  Forall (λ t, tensor_wf h t ∧ same_shape_except k (sizes t0) (sizes t)
               ∧ dtype t = dtype t0) (t0 :: ts) →
  ∃ total cs,
    cat (t0 :: ts) d h =
      (Ok (mkTensor (fresh (dom h)) 0 (<[k := total]> (sizes t0))
             (stride_contiguous (<[k := total]> (sizes t0))) (dtype t0)),
       <[fresh (dom h) := Buffer (element_size (dtype t0)) cs]> h)
    ∧ cat_size (Z.of_nat k) (t0 :: ts) = Ok total ∧ 0 ≤ total
    ∧ length cs = Z.to_nat (numel_of (<[k := total]> (sizes t0))).
Proof.
  intros Hd Hts.
  pose proof (maybe_wrap_dim_range _ _ _ Hd) as Hk. unfold dim in Hk.
  destruct (cat_size_run h k (sizes t0) (t0 :: ts)) as (total & Htot & Htot0); [|lia|].
  { eapply Forall_impl; [exact Hts|]. by intros ? (? & ? & ?). }
  pose proof (fresh_not_in h) as Hl. set (l := fresh (dom h)) in *.
  assert (Forall (λ m, 0 ≤ m) (<[k := total]> (sizes t0))) as Hout.
  { apply Forall_insert; [|done].
    apply Forall_cons in Hts as [(Hwf & _) _]. apply Hwf. }
  destruct (cat_copy_run h l k (sizes t0) total (dtype t0) (t0 :: ts) Hl ltac:(lia) Hout 0
    (replicate (Z.to_nat (numel_of (<[k := total]> (sizes t0)))) None) total)
    as (cs & Hlen & Hrun); [by rewrite length_replicate|done|done|done|lia|].
  exists total, cs. split_and!; [|done|done|by rewrite Hlen, length_replicate].
  unfold cat. rewrite bind_lift, Hd. rewrite bind_lift.
  rewrite Nat2Z.id, bool_decide_eq_true_2.
  2:{ eapply Forall_impl; [exact Hts|]. by intros ? (? & ? & ?). }
  cbn [TORCH_CHECK]. rewrite bind_lift, Htot.
  rewrite (bind_ok _ _ _ _ _ (empty_run _ _ _)). fold l.
  by rewrite (bind_ok _ _ _ _ _ Hrun).
Qed.

(** ** roll *)

Lemma roll_start_range n w :
  0 < n →
  (if decide (Z.rem w n < 0) then Z.rem w n + n else Z.rem w n) = w mod n
  ∧ 0 ≤ w mod n < n.
Proof. intros Hn. split; [by apply rem_fix_mod|]. apply Z.mod_pos_bound. lia. Qed.

Lemma size_lookup X d (k : nat) n :
  maybe_wrap_dim d (dim X) = Ok (Z.of_nat k) → sizes X !! k = Some n →
  size X d = Ok n.
Proof.
  intros Hd Hn. unfold size. rewrite Hd. simpl.
  apply at_lookup; [lia|by rewrite Nat2Z.id].
Qed.

Section roll.
Variable roll_common : Tensor → list Z → list Z → M Tensor.

(** On an empty tensor the single-axis path is the copy, whatever the
    shift and the axis. *)
Lemma roll_cpu_empty X s d h :
  numel X = 0 → roll_cpu roll_common X [s] [d] h = clone X Preserve h.
Proof.
  intros HN. unfold roll_cpu.
  rewrite decide_False by (simpl; lia). by rewrite decide_True.
Qed.

(** The single-axis path on a non-empty tensor: the two slices and their
    concatenation. *)
Lemma roll_cpu_single h X s d (k : nat) n :
  tensor_wf h X → numel X ≠ 0 →
  maybe_wrap_dim d (dim X) = Ok (Z.of_nat k) → sizes X !! k = Some n →
  ∃ st t0 t1,
    strides X !! k = Some st ∧ 0 < n ∧ 0 ≤ Int64.sub n s mod n < n
    ∧ t0 = mkTensor (storage X) (storage_offset X + Int64.sub n s mod n * st)
             (<[k := n - Int64.sub n s mod n]> (sizes X)) (strides X) (dtype X)
    ∧ t1 = mkTensor (storage X) (storage_offset X + 0 * st)
             (<[k := Int64.sub n s mod n]> (sizes X)) (strides X) (dtype X)
    ∧ narrow X d (Int64.sub n s mod n) (n - Int64.sub n s mod n) = Ok t0
    ∧ narrow X d 0 (Int64.sub n s mod n) = Ok t1
    ∧ tensor_wf h t0 ∧ tensor_wf h t1
    ∧ roll_cpu roll_common X [s] [d] h = cat [t0; t1] d h.
Proof.
  intros Hwf HN Hd Hn.
  assert (0 < n) as Hn0.
  { pose proof (numel_of_nonzero _ (wf_sizes _ _ Hwf) HN) as Hpos.
    rewrite Forall_forall in Hpos. apply Hpos. by eapply list_elem_of_lookup_2. }
  destruct (roll_start_range n (Int64.sub n s) Hn0) as [Hfix Hrange].
  destruct (lookup_lt_is_Some_2 (strides X) k) as [st Hst].
  { rewrite (wf_strides _ _ Hwf). by apply lookup_lt_Some in Hn. }
  eexists st, _, _.
  do 5 (split; [done || reflexivity|]). split_and!.
  - apply (narrow_run X d _ _ k n st); try done; lia.
  - apply (narrow_run X d _ _ k n st); try done; lia.
  - apply (narrow_wf h X k n st); try done; lia.
  - apply (narrow_wf h X k n st); try done; lia.
  - unfold roll_cpu.
    rewrite decide_False by (simpl; lia). rewrite decide_False by done.
    rewrite bind_lift, at_0, bind_lift, (size_lookup X d k n) by done.
    rewrite bind_lift, at_0. cbv beta iota zeta. rewrite Hfix.
    rewrite bind_lift, (narrow_run X d _ _ k n st) by (done || lia).
    rewrite bind_lift, (narrow_run X d _ _ k n st) by (done || lia). done.
Qed.

(** What the single-axis path returns on a non-empty tensor. *)
Lemma roll_cpu_result h X s d (k : nat) n :
  tensor_wf h X → numel X ≠ 0 →
  maybe_wrap_dim d (dim X) = Ok (Z.of_nat k) → sizes X !! k = Some n →
  ∃ cs, roll_cpu roll_common X [s] [d] h =
      (Ok (mkTensor (fresh (dom h)) 0 (sizes X) (stride_contiguous (sizes X)) (dtype X)),
       <[fresh (dom h) := Buffer (element_size (dtype X)) cs]> h)
    ∧ length cs = Z.to_nat (numel X).
Proof.
  intros Hwf HN Hd Hn.
  destruct (roll_cpu_single h X s d k n Hwf HN Hd Hn)
    as (st & t0 & t1 & Hst & Hn0 & Hrange & -> & -> & Hn0' & Hn1 & Hwf0 & Hwf1 & Hrun).
  set (start := Int64.sub n s mod n) in *.
  destruct (cat_run h
    (mkTensor (storage X) (storage_offset X + start * st)
       (<[k := n - start]> (sizes X)) (strides X) (dtype X))
    [mkTensor (storage X) (storage_offset X + 0 * st)
       (<[k := start]> (sizes X)) (strides X) (dtype X)] d k)
    as (total & cs & Hcat & Htot & _ & Hlen).
  { unfold dim. cbn [sizes]. rewrite length_insert. exact Hd. }
  { constructor; [by split_and!|]. constructor; [|constructor].
    split_and!; [done| |done]. unfold same_shape_except. cbn [sizes].
    by rewrite !list_insert_insert_eq. }
  assert (total = n) as ->.
  { assert (k < length (sizes X))%nat as Hk by (by apply lookup_lt_Some in Hn).
    cbn [cat_size sizes] in Htot.
    rewrite (at_lookup (<[k := n - start]> (sizes X)) (Z.of_nat k) (n - start)) in Htot;
      [|lia|by rewrite Nat2Z.id, list_lookup_insert_eq].
    rewrite (at_lookup (<[k := start]> (sizes X)) (Z.of_nat k) start) in Htot;
      [|lia|by rewrite Nat2Z.id, list_lookup_insert_eq].
    simpl in Htot. injection Htot as <-. lia. }
  cbn [sizes dtype] in Hcat, Hlen.
  rewrite list_insert_insert_eq, (list_insert_id _ _ _ Hn) in Hcat, Hlen.
  exists cs. by rewrite Hrun.
Qed.

End roll.

(** ** Inserted axes *)

Lemma mapM_fmap_compose {A B C} (f : B → option C) (g : A → B) (l : list A) :
  mapM f (g <$> l) = mapM (f ∘ g) l.
Proof. induction l as [|x l IH]; [done|]. simpl. by rewrite <-IH. Qed.

Lemma indices_front_one shape : indices (1 :: shape) = (0 ::.) <$> indices shape.
Proof.
  rewrite indices_cons. change (seqZ 0 1) with [0].
  by rewrite bind_singleton.
Qed.

Lemma indices_back_one shape : indices (shape ++ [1]) = (.++ [0]) <$> indices shape.
Proof.
  rewrite indices_snoc. change (seqZ 0 1) with [0].
  apply (list_bind_ret_fmap (λ o : list Z, o ++ [0])).
Qed.

Lemma unsqueeze_front t :
  unsqueeze t 0 =
    Ok (mkTensor (storage t) (storage_offset t) (1 :: sizes t)
          (match sizes t !! 0%nat, strides t !! 0%nat with
           | Some n, Some s => n * s
           | _, _ => 1
           end :: strides t) (dtype t)).
Proof.
  unfold unsqueeze. rewrite maybe_wrap_dim_nonneg by (unfold dim; lia). done.
Qed.

Lemma unsqueeze_back t :
  length (strides t) = length (sizes t) →
  unsqueeze t (-1) =
    Ok (mkTensor (storage t) (storage_offset t) (sizes t ++ [1])
          (strides t ++ [1]) (dtype t)).
Proof.
  intros Hlen. unfold unsqueeze.
  rewrite maybe_wrap_dim_neg by (unfold dim; lia). simpl.
  replace (Z.to_nat (-1 + (dim t + 1))) with (length (sizes t)) by (unfold dim; lia).
  rewrite (lookup_ge_None_2 (sizes t)) by done.
  rewrite firstn_all, skipn_all. rewrite <-Hlen, firstn_all, skipn_all. done.
Qed.

(** The element list of a view does not change when an axis of size one
    is put in front or at the back. *)
Lemma to_list_front h st0 t :
  to_list h (mkTensor (storage t) (storage_offset t) (1 :: sizes t)
               (st0 :: strides t) (dtype t)) = to_list h t.
Proof.
  unfold to_list. cbn [sizes]. rewrite indices_front_one, mapM_fmap_compose.
  apply mapM_ext. intros idx. unfold elem. simpl. do 2 f_equal; try lia.
Qed.

Lemma to_list_back h t :
  length (strides t) = length (sizes t) →
  to_list h (mkTensor (storage t) (storage_offset t) (sizes t ++ [1])
               (strides t ++ [1]) (dtype t)) = to_list h t.
Proof.
  intros Hlen. unfold to_list. cbn [sizes].
  rewrite indices_back_one, mapM_fmap_compose.
  apply Forall_mapM_ext, Forall_forall. intros idx Hin.
  unfold elem. simpl. rewrite offset_of_snoc; [do 2 f_equal; lia|].
  by rewrite Hlen, (indices_length _ _ Hin).
Qed.

(** [atleast_3d] by rank: what it returns, without touching the heap. *)
Lemma atleast_3d_run h t :
  length (strides t) = length (sizes t) →
  ∃ r, atleast_3d t h = (Ok r, h)
    ∧ sizes r = match sizes t with
                | [] => [1; 1; 1]
                | [n] => [1; n; 1]
                | [a; b] => [a; b; 1]
                | s => s
                end
    ∧ storage r = storage t ∧ storage_offset r = storage_offset t
    ∧ dtype r = dtype t ∧ to_list h r = to_list h t.
Proof.
  intros Hlen. unfold atleast_3d, dim.
  destruct (sizes t) as [|n [|m [|p rest]]] eqn:Es.
  - destruct (strides t) as [|] eqn:Est; [|done]. simpl.
    unfold reshape. rewrite bind_lift.
    rewrite bool_decide_eq_true_2 by (unfold numel; by rewrite Es).
    cbn [TORCH_CHECK]. unfold is_contiguous.
    rewrite bool_decide_eq_true_2 by (right; rewrite Es, Est; constructor).
    rewrite bind_ret. eexists. split; [reflexivity|]. split_and!; try done.
    unfold to_list. simpl. rewrite Es. simpl. unfold elem. simpl. by rewrite Est.
  - simpl. unfold lift. rewrite unsqueeze_front. simpl.
    rewrite unsqueeze_back by (simpl; by rewrite Hlen, Es). simpl.
    eexists. split; [reflexivity|]. rewrite Es. split_and!; try done.
    rewrite <-Es.
    pose proof (to_list_back h
      (mkTensor (storage t) (storage_offset t) (1 :: sizes t)
         (match sizes t !! 0%nat, strides t !! 0%nat with
          | Some n, Some s => n * s
          | _, _ => 1
          end :: strides t) (dtype t))) as Hb.
    simpl in Hb. rewrite Hb by (by rewrite Hlen, Es). apply to_list_front.
  - simpl. unfold lift. rewrite unsqueeze_back by (by rewrite Hlen, Es).
    eexists. split; [reflexivity|]. simpl. rewrite Es. split_and!; try done.
    rewrite <-Es. apply to_list_back. by rewrite Hlen, Es.
  - destruct (Z.of_nat (length (n :: m :: p :: rest))) as [|q|q] eqn:E;
      [simpl in E; lia| |lia].
    destruct q as [q|[q|q|]|]; try (simpl in E; lia); by exists t.
Qed.

(** ** What rot90 rejects and what it returns *)

Lemma odd_mod_4 k : Z.odd k = Z.odd (k mod 4).
Proof.
  rewrite (Z.div_mod k 4) at 1 by lia.
  replace (4 * (k / 4) + k mod 4) with (k mod 4 + 2 * (2 * (k / 4))) by lia.
  apply Z.odd_add_mul_2.
Qed.

Lemma numel_of_zero shape : numel_of shape = 0 ↔ 0 ∈ shape.
Proof.
  induction shape as [|n shape IH]; [by rewrite elem_of_nil|].
  rewrite numel_of_cons, elem_of_cons, <-IH. lia.
Qed.

Lemma numel_of_swap_at (i j : nat) shape :
  (i < length shape)%nat → (j < length shape)%nat →
  numel_of shape = 0 → numel_of (swap_at i j shape) = 0.
Proof.
  intros Hi Hj. rewrite !numel_of_zero.
  intros [k Hk]%list_elem_of_lookup.
  apply (list_elem_of_lookup_2 _
    (if decide (k = i) then j else if decide (k = j) then i else k)).
  rewrite swap_at_lookup by done. repeat case_decide; by simplify_eq.
Qed.

(** Every argument pair of [rot90_rejects] stops [rot90] at one of its
    checks, with the heap as it was. *)
Lemma rot90_rejected X k dims h :
  dim X < 2 ^ 62 → rot90_rejects (dim X) dims →
  rot90 X k dims h = (Err InvalidArgument, h).
Proof.
  intros Hr Hrej. unfold rot90. cbv zeta.
  destruct dims as [|d0 [|d1 [|d2 rest]]];
    try (by rewrite bind_lift, bool_decide_eq_false_2 by (simpl; lia)).
  rewrite bind_lift, bool_decide_eq_true_2 by done. cbn [TORCH_CHECK].
  rewrite bind_lift.
  destruct (decide (2 ≤ dim X)) as [H2|H2];
    [rewrite bool_decide_eq_true_2 by done|by rewrite bool_decide_eq_false_2 by done].
  cbn [TORCH_CHECK]. rewrite bind_lift, at_0, bind_lift, at_1, bind_lift. cbv beta iota.
  destruct (bool_decide (d0 ≠ d1) && _) eqn:E3; [|done]. cbn [TORCH_CHECK].
  apply andb_true_iff in E3 as [E3a%bool_decide_eq_true E3b%bool_decide_eq_true].
  rewrite bind_lift.
  destruct (bool_decide (d0 < dim X) && _) eqn:E4; [|done]. cbn [TORCH_CHECK].
  apply andb_true_iff in E4 as [E4a%bool_decide_eq_true E4b%bool_decide_eq_true].
  rewrite bind_lift.
  destruct (bool_decide (d1 < dim X) && _) eqn:E5; [|done]. cbn [TORCH_CHECK].
  apply andb_true_iff in E5 as [E5a%bool_decide_eq_true E5b%bool_decide_eq_true].
  rewrite int64_abs_sub in E3b by lia. simpl in Hrej. lia.
Qed.

(** Past its own checks [rot90] still raises when the rank does not fit
    the bitset of the flip it calls. *)
Lemma flip_rank_limit X dims h :
  64 < dim X → flip X dims h = (Err InvalidArgument, h).
Proof.
  intros Hr. unfold flip, flip_cpu. cbv zeta. rewrite bind_lift.
  unfold dim_list_to_bitset, dim_bitset_size.
  by rewrite bool_decide_eq_false_2 by lia.
Qed.

Lemma rot90_rank_limit X k d0 d1 h :
  dim X < 2 ^ 62 → ¬ rot90_rejects (dim X) [d0; d1] → 64 < dim X → k mod 4 ≠ 0 →
  rot90 X k [d0; d1] h = (Err InvalidArgument, h).
Proof.
  intros Hr Hok Hbig Hk. rewrite rot90_dispatch by done.
  pose proof (Z.mod_pos_bound k 4 ltac:(lia)) as Hb.
  assert (k mod 4 = 1 ∨ k mod 4 = 2 ∨ k mod 4 = 3) as [-> | [-> | ->]] by lia.
  - by rewrite (bind_err _ _ _ _ _ (flip_rank_limit X [d1] h Hbig)).
  - by apply flip_rank_limit.
  - by rewrite (bind_err _ _ _ _ _ (flip_rank_limit X [d0] h Hbig)).
Qed.

(** On arguments it accepts [rot90] returns a well-formed tensor: of the
    shape of the input for an even [k], with the two axes exchanged for an
    odd one. *)
Lemma rot90_run h X k d0 d1 (a c : nat) :
  tensor_wf h X → flip_supported (dtype X) = true → dim X < 2 ^ 62 →
  dim X ≤ 64 ∨ k mod 4 = 0 →
  ¬ rot90_rejects (dim X) [d0; d1] →
  maybe_wrap_dim d0 (dim X) = Ok (Z.of_nat a) →
  maybe_wrap_dim d1 (dim X) = Ok (Z.of_nat c) →
  ∃ r h', rot90 X k [d0; d1] h = (Ok r, h') ∧ tensor_wf h' r
    ∧ sizes r = (if Z.odd k then swap_at a c (sizes X) else sizes X)
    ∧ dtype r = dtype X.
Proof.
  intros Hwf Hdt Hr Hcase Hok Ha Hc. rewrite rot90_dispatch by done.
  rewrite odd_mod_4.
  pose proof (Z.mod_pos_bound k 4 ltac:(lia)) as Hb.
  assert (k mod 4 = 0 ∨ dim X ≤ 64 ∧ (k mod 4 = 1 ∨ k mod 4 = 2 ∨ k mod 4 = 3))
    as [-> | [Hrank [-> | [-> | ->]]]] by lia.
  - destruct (clone_contiguous_spec h X Hwf) as (r & h' & Hrun & Hp).
    exists r, h'. split_and!; [done|by eapply flip_post_wf|apply Hp..].
  - destruct (flip_transpose_run h X d0 d1 d1 a c c Hwf Hdt Hrank Ha Hc Hc)
      as (r & h' & Hrun & Hwfr & Hs & Hd & _).
    by exists r, h'.
  - assert (a ≠ c) as Hne.
    { destruct (rot90_accepts_wrap _ _ _ Hok) as (a' & c' & Ha' & Hc' & Hne & _).
      rewrite Ha in Ha'. rewrite Hc in Hc'. simplify_eq. lia. }
    assert (Z.of_nat a ≠ Z.of_nat c) as Hne' by lia.
    pose proof (dim_list_to_bitset_pair d0 d1 (dim X) _ _ Hrank Ha Hc Hne') as Hbits.
    destruct (flip_cpu_spec h X [d0; d1] _ Hwf Hdt Hbits) as (r & h' & Hrun & Hp).
    { left. by apply (flip_dims_of_nonempty [d0; d1]). }
    exists r, h'. split_and!; [done|by eapply flip_post_wf|apply Hp..].
  - destruct (flip_transpose_run h X d0 d1 d0 a c a Hwf Hdt Hrank Ha Hc Ha)
      as (r & h' & Hrun & Hwfr & Hs & Hd & _).
    by exists r, h'.
Qed.

(** ** Dense layouts *)

Lemma is_contiguous_dense t :
  strides t = stride_contiguous (sizes t) → is_contiguous t = true.
Proof.
  intros Hst. unfold is_contiguous. apply bool_decide_eq_true_2. right.
  rewrite Hst. apply Forall2_same_length_lookup. split.
  - by rewrite length_zip, length_stride_contiguous, Nat.min_id.
  - intros i n [s1 s2] _ Hz. right.
    apply lookup_zip_with_Some in Hz as (x & y & [= -> ->] & Hx & Hy). simpl. congruence.
Qed.

Lemma is_contiguous_empty t : numel t = 0 → is_contiguous t = true.
Proof. intros HN. unfold is_contiguous. apply bool_decide_eq_true_2. by left. Qed.

(** * The claims of the specification *)

(** ** The two flip kernels on an empty axis list *)

(** C1: the two flip kernels do not agree on every input. On the vector
    [1, 2] with no axis to flip, [flip_old_cpu] returns the copy [1, 2],
    and [flip_cpu_internal] has no result: its first chunk reads operand
    slot 2 of an iterator that has two operands. *)
Theorem flip_kernels_differ_without_axes :
  observe (flip_old_cpu sample_vec.1 []) sample_vec.2 = inr (Some ([2], [1; 2]))
  ∧ observe (flip_cpu_internal sample_vec.1 []) sample_vec.2 = inl OutOfBounds.
Proof. split; vm_compute; reflexivity. Qed.

(** C2: [flip(flip(X, dims), dims)] is not [X] for the empty axis list: on
    the vector [1, 2] already the first [flip] stops at the read of operand
    slot 2, and so does the composition. *)
Theorem flip_twice_without_axes :
  observe (flip sample_vec.1 []) sample_vec.2 = inl OutOfBounds
  ∧ observe (r ← flip sample_vec.1 []; flip r []) sample_vec.2 = inl OutOfBounds
  ∧ to_list sample_vec.2 sample_vec.1 = Some [1; 2].
Proof. split_and!; vm_compute; reflexivity. Qed.

(** ** The concrete scenario *)

(** C3: on the 2×3 array [[1,2,3],[4,5,6]], [flip] with [dims = [1]] gives
    [[3,2,1],[6,5,4]], [flip] with [dims = [0,1]] gives [[6,5,4],[3,2,1]],
    [roll] with shift 1 along axis 1 gives [[3,1,2],[6,4,5]], and [rot90]
    with [k = 1] and [dims = [0,1]] gives the 3×2 array [[3,6],[2,5],[1,4]]. *)
Theorem scenario_2x3 (roll_common : Tensor → list Z → list Z → M Tensor) :
  observe (flip sample_2x3.1 [1]) sample_2x3.2 = inr (Some ([2; 3], [3; 2; 1; 6; 5; 4]))
  ∧ observe (flip sample_2x3.1 [0; 1]) sample_2x3.2
    = inr (Some ([2; 3], [6; 5; 4; 3; 2; 1]))
  ∧ observe (roll_cpu roll_common sample_2x3.1 [1] [1]) sample_2x3.2
    = inr (Some ([2; 3], [3; 1; 2; 6; 4; 5]))
  ∧ observe (rot90 sample_2x3.1 1 [0; 1]) sample_2x3.2
    = inr (Some ([3; 2], [3; 6; 2; 5; 1; 4])).
Proof. split_and!; vm_compute; reflexivity. Qed.

(** ** The Indexer *)

(** A chunk of an iterator with two operands, the output and the input:
    the [Indexer] is built over no operand and its first [get] reads past
    the operand list. *)
Lemma flip_cpu_loop_no_indexer scalar_t dst src s0 s1 n h :
  0 < n → flip_cpu_loop scalar_t 2 [dst; src] [s0; s1] n h = (Err OutOfBounds, h).
Proof.
  intros Hn. unfold flip_cpu_loop. cbv zeta.
  rewrite bind_lift, at_0, bind_lift, at_1, bind_lift, at_0, bind_lift, at_1.
  rewrite seqZ_cons by lia. rewrite forM_cons, bind_unfold. cbn [drop].
  by rewrite Indexer_get_no_operand.
Qed.

(** C10: [Indexer.get] reads [indexers[0]] before its loop. Over no
    operand this read is outside the operand list, whatever
    [num_indexers] says; over at least one operand [get] returns the sum
    of the entries it reads. With an empty list of flip axes no lookup
    array is built, a chunk of the two-operand iterator builds its
    [Indexer] over no operand, and the gather flip of a non-empty tensor
    stops at that read. *)
Theorem indexer_get_first_operand h X :
  tensor_wf h X → flip_supported (dtype X) = true → dim X ≤ 64 → 0 < numel X →
  (∀ n ss i h0, Indexer_get (mkIndexer n [] ss) i h0 = (Err OutOfBounds, h0))
  ∧ (∀ i ps ss vs h0, ps ≠ [] → length ps = length ss →
       Forall2 (λ pq v, load 8 (pq.1 +ₚ i * pq.2) h0 = (Ok v, h0)) (zip ps ss) vs →
       Indexer_get (mkIndexer (Z.of_nat (length ps)) ps ss) i h0 = (Ok (sumZ id vs), h0))
  ∧ (∀ scalar_t dst src s0 s1 n h0, 0 < n →
       flip_cpu_loop scalar_t 2 [dst; src] [s0; s1] n h0 = (Err OutOfBounds, h0))
  ∧ build_indices_loop X (flip_dims_of 0 (dim X)) h = (Ok [], h)
  ∧ ∃ h', flip_cpu X [] h = (Err OutOfBounds, h')
          ∧ flip_cpu_internal X [] h = (Err OutOfBounds, h').
Proof.
  intros Hwf Hdt Hrank HN. split_and!.
  - intros. apply Indexer_get_no_operand.
  - intros. by apply Indexer_get_run.
  - intros. by apply flip_cpu_loop_no_indexer.
  - by rewrite flip_dims_of_zero.
  - pose proof (flip_cpu_no_axis h X [] 0 Hwf Hdt
      (dim_list_to_bitset_nil _ Hrank) (flip_dims_of_zero _) HN) as Hrun.
    eexists. split; [exact Hrun|].
    change (flip_cpu_internal X []) with (flip_cpu X []). exact Hrun.
Qed.

Lemma indexer_get_first_operand_witness :
  tensor_wf sample_vec.2 sample_vec.1
  ∧ flip_supported (dtype sample_vec.1) = true
  ∧ dim sample_vec.1 ≤ 64 ∧ 0 < numel sample_vec.1
  ∧ ∃ h', flip_cpu sample_vec.1 [] sample_vec.2 = (Err OutOfBounds, h').
Proof.
  assert (tensor_wf sample_vec.2 sample_vec.1) as Hwf
    by (apply tensor_wf_check_true; vm_compute; reflexivity).
  assert (dim sample_vec.1 ≤ 64) as Hrank by (vm_compute; discriminate).
  assert (0 < numel sample_vec.1) as HN by reflexivity.
  split_and!; [exact Hwf|reflexivity|exact Hrank|exact HN|].
  destruct (indexer_get_first_operand sample_vec.2 sample_vec.1 Hwf eq_refl Hrank HN)
    as (_ & _ & _ & _ & h' & Hrun & _).
  by exists h'.
Defined.

(** ** roll along one axis *)

(** A slice reads the elements of its source from [start] on. *)
Lemma narrow_elem h X (k : nat) s start len idx :
  length (strides X) = length (sizes X) → strides X !! k = Some s →
  idx ∈ indices (<[k := len]> (sizes X)) →
  elem h (mkTensor (storage X) (storage_offset X + start * s)
            (<[k := len]> (sizes X)) (strides X) (dtype X)) idx
  = elem h X (<[k := default 0 (idx !! k) + start]> idx).
Proof.
  intros Hlen Hs Hin. pose proof (indices_length _ _ Hin) as Hl.
  rewrite length_insert in Hl. unfold elem. cbn [storage storage_offset strides].
  rewrite (narrow_offset _ _ _ s) by (done || congruence). f_equal. lia.
Qed.

Section roll_claims.
Variable roll_common : Tensor → list Z → list Z → M Tensor.

(** C4: on a non-empty tensor, with one shift [s] and one axis [d] of
    size [n], [roll] is the concatenation along [d] of the slice of the
    positions [start, n) and the slice of the positions [0, start). Here
    [start] is [(n - s) mod n] with the difference taken in 64 bits; it
    lies in [0, n) whatever the sign of [s], and it is [(n - s) mod n] in
    the integers whenever [n - s] is a 64-bit value. The concatenation
    returns a tensor of the shape of the input. *)
Theorem roll_single_axis h X s d (k : nat) n :
  tensor_wf h X → numel X ≠ 0 →
  maybe_wrap_dim d (dim X) = Ok (Z.of_nat k) → sizes X !! k = Some n →
  let start := Int64.sub n s mod n in
  0 < n ∧ 0 ≤ start < n
  ∧ (Int64.in_range (n - s) → start = (n - s) mod n)
  ∧ ∃ t0 t1 r h',
      narrow X d start (n - start) = Ok t0 ∧ narrow X d 0 start = Ok t1
      ∧ sizes t0 = <[k := n - start]> (sizes X) ∧ sizes t1 = <[k := start]> (sizes X)
      ∧ (∀ idx, idx ∈ indices (sizes t0) →
           elem h t0 idx = elem h X (<[k := default 0 (idx !! k) + start]> idx))
      ∧ (∀ idx, idx ∈ indices (sizes t1) → elem h t1 idx = elem h X idx)
      ∧ roll_cpu roll_common X [s] [d] h = cat [t0; t1] d h
      ∧ cat [t0; t1] d h = (Ok r, h') ∧ sizes r = sizes X.
Proof.
  intros Hwf HN Hd Hn start.
  destruct (roll_cpu_single roll_common h X s d k n Hwf HN Hd Hn)
    as (st & t0 & t1 & Hst & Hn0 & Hrange & Ht0 & Ht1 & Hn0' & Hn1 & Hwf0 & Hwf1 & Hrun).
  destruct (roll_cpu_result roll_common h X s d k n Hwf HN Hd Hn) as (cs & Hres & Hcs).
  fold start in Hrange, Ht0, Ht1, Hn0', Hn1.
  split; [done|]. split; [exact Hrange|]. split.
  - intros Hr. unfold start, Int64.sub. rewrite int64_wrap_id; [done|].
    unfold Int64.in_range, Int64.min_signed, Int64.max_signed in Hr. lia.
  - exists t0, t1. eexists _, _.
    split; [exact Hn0'|]. split; [exact Hn1|].
    split; [by rewrite Ht0|]. split; [by rewrite Ht1|].
    split; [|split; [|split; [exact Hrun|split; [rewrite <-Hrun; exact Hres|done]]]].
    + intros idx Hin. rewrite Ht0 in Hin |- *.
      apply narrow_elem; [apply Hwf|done..].
    + intros idx Hin. rewrite Ht1 in Hin |- *. cbn [sizes] in Hin.
      rewrite (narrow_elem h X k st 0 start) by (apply Hwf || done).
      f_equal. rewrite Z.add_0_r.
      pose proof (indices_length _ _ Hin) as Hl. rewrite length_insert in Hl.
      destruct (lookup_lt_is_Some_2 idx k) as [c Hc].
      { rewrite Hl. by apply lookup_lt_Some in Hn. }
      rewrite Hc. simpl. by apply list_insert_id.
Qed.

End roll_claims.

Lemma roll_single_axis_witness :
  tensor_wf sample_2x3.2 sample_2x3.1 ∧ numel sample_2x3.1 ≠ 0
  ∧ maybe_wrap_dim 1 (dim sample_2x3.1) = Ok (Z.of_nat 1)
  ∧ sizes sample_2x3.1 !! 1%nat = Some 3
  ∧ Int64.sub 3 1 mod 3 = 2
  ∧ ∀ roll_common, ∃ t0 t1,
      narrow sample_2x3.1 1 2 (3 - 2) = Ok t0 ∧ narrow sample_2x3.1 1 0 2 = Ok t1
      ∧ roll_cpu roll_common sample_2x3.1 [1] [1] sample_2x3.2
        = cat [t0; t1] 1 sample_2x3.2.
Proof.
  assert (tensor_wf sample_2x3.2 sample_2x3.1) as Hwf
    by (apply tensor_wf_check_true; vm_compute; reflexivity).
  assert (numel sample_2x3.1 ≠ 0) as HN by (vm_compute; discriminate).
  split; [exact Hwf|]. split; [exact HN|].
  split; [vm_compute; reflexivity|]. split; [reflexivity|].
  split; [vm_compute; reflexivity|].
  intros roll_common.
  destruct (roll_single_axis roll_common sample_2x3.2 sample_2x3.1 1 1 1%nat 3
              Hwf HN eq_refl eq_refl)
    as (_ & _ & _ & t0 & t1 & r & h' & H0 & H1 & _ & _ & _ & _ & Hrun & _).
  exists t0, t1. split; [exact H0|]. split; [exact H1|exact Hrun].
Defined.

(** ** rot90 *)

(** C5: for a tensor of rank at least two and a valid pair of rotation
    axes, [rot90] with [k] is [rot90] with [k mod 4] for every integer
    [k], two quarter turns end as [rot90] with [k = 2] does, and [rot90]
    with [k = 2] is the [flip] of the two axes. *)
Theorem rot90_group_law h X d0 d1 :
  tensor_wf h X → flip_supported (dtype X) = true → dim X < 2 ^ 62 →
  ¬ rot90_rejects (dim X) [d0; d1] →
  (∀ k, rot90 X k [d0; d1] h = rot90 X (k mod 4) [d0; d1] h)
  ∧ same_outcome ((r ← rot90 X 1 [d0; d1]; rot90 r 1 [d0; d1]) h) (rot90 X 2 [d0; d1] h)
  ∧ rot90 X 2 [d0; d1] h = flip X [d0; d1] h.
Proof.
  intros Hwf Hdt Hr Hok. split_and!.
  - intros k. unfold rot90. cbv zeta. by rewrite rot90_k_idem.
  - destruct (decide (dim X ≤ 64)) as [Hrank|Hbig].
    + destruct (rot90_twice h X d0 d1 Hwf Hdt Hrank Hok)
        as (r1 & h1 & r2 & h2 & r3 & h3 & H1 & H2 & H3 & _ & Hs & Hl & Hsome).
      rewrite (bind_ok _ _ _ _ _ H1), H2, H3. simpl.
      split_and!; [done|done|]. by rewrite Hl.
    + rewrite (bind_err _ _ _ _ _ (rot90_rank_limit X 1 d0 d1 h Hr Hok ltac:(lia) ltac:(done))).
      by rewrite (rot90_rank_limit X 2 d0 d1 h Hr Hok ltac:(lia) ltac:(done)).
  - rewrite rot90_dispatch by done. by change (2 mod 4) with 2.
Qed.

Lemma rot90_group_law_witness :
  tensor_wf sample_2x3.2 sample_2x3.1
  ∧ flip_supported (dtype sample_2x3.1) = true
  ∧ dim sample_2x3.1 < 2 ^ 62
  ∧ ¬ rot90_rejects (dim sample_2x3.1) [0; 1]
  ∧ rot90 sample_2x3.1 (-3) [0; 1] sample_2x3.2
    = rot90 sample_2x3.1 (-3 mod 4) [0; 1] sample_2x3.2
  ∧ rot90 sample_2x3.1 2 [0; 1] sample_2x3.2 = flip sample_2x3.1 [0; 1] sample_2x3.2.
Proof.
  assert (tensor_wf sample_2x3.2 sample_2x3.1) as Hwf
    by (apply tensor_wf_check_true; vm_compute; reflexivity).
  assert (dim sample_2x3.1 < 2 ^ 62) as Hr by (vm_compute; reflexivity).
  assert (¬ rot90_rejects (dim sample_2x3.1) [0; 1]) as Hok by (unfold rot90_rejects, dim; simpl; lia).
  split; [exact Hwf|]. split; [reflexivity|]. split; [exact Hr|]. split; [exact Hok|].
  destruct (rot90_group_law sample_2x3.2 sample_2x3.1 0 1 Hwf eq_refl Hr Hok)
    as (Hk & _ & H2).
  split; [exact (Hk (-3))|exact H2].
Defined.

(** C6 as the specification states it fails: on a tensor of rank 65 none
    of the listed conditions holds for the axes 0 and 1, and [rot90] with
    [k = 1] raises [InvalidArgument] all the same, from the bitset of the
    flip it calls. *)
Lemma rot90_rank65_raises :
  rot90 sample_rank65.1 1 [0; 1] sample_rank65.2 = (Err InvalidArgument, sample_rank65.2)
  ∧ ¬ rot90_rejects (dim sample_rank65.1) [0; 1].
Proof.
  split; [vm_compute; reflexivity|].
  unfold rot90_rejects, dim. simpl. lia.
Qed.

(** C6 (amended): [rot90] raises [InvalidArgument], with the heap
    untouched, whenever the rank is below two, the two axes are equal,
    their distance is the rank, the axes are not exactly two, or one is
    out of range. On a tensor of rank at most 64, and for [k] a multiple
    of four on any rank, it raises [InvalidArgument] only then. On a rank
    above 64 with [k] not a multiple of four it raises [InvalidArgument]
    on every argument. *)
Theorem rot90_validation h X k dims :
  tensor_wf h X → flip_supported (dtype X) = true → dim X < 2 ^ 62 →
  (rot90_rejects (dim X) dims → rot90 X k dims h = (Err InvalidArgument, h))
  ∧ (dim X ≤ 64 ∨ k mod 4 = 0 →
       ((∃ h', rot90 X k dims h = (Err InvalidArgument, h'))
        ↔ rot90_rejects (dim X) dims))
  ∧ (64 < dim X → k mod 4 ≠ 0 → rot90 X k dims h = (Err InvalidArgument, h)).
Proof.
  intros Hwf Hdt Hr.
  assert (rot90_rejects (dim X) dims ∨
          ∃ d0 d1, dims = [d0; d1] ∧ ¬ rot90_rejects (dim X) [d0; d1]) as Hcases.
  { destruct dims as [|d0 [|d1 [|d2 rest]]]; try (by left).
    destruct (decide (dim X < 2 ∨ d0 = d1 ∨ Z.abs (d0 - d1) = dim X
                      ∨ ¬ (- dim X ≤ d0 < dim X) ∨ ¬ (- dim X ≤ d1 < dim X)));
      [by left|right; by exists d0, d1]. }
  split_and!.
  - intros Hrej. by apply rot90_rejected.
  - intros Hcase. split; [|intros Hrej; exists h; by apply rot90_rejected].
    intros [h' Herr]. destruct Hcases as [|(d0 & d1 & -> & Hok)]; [done|].
    destruct (rot90_accepts_wrap _ _ _ Hok) as (a & c & Ha & Hc & _).
    destruct (rot90_run h X k d0 d1 a c Hwf Hdt Hr Hcase Hok Ha Hc) as (r & h'' & Hrun & _).
    congruence.
  - intros Hbig Hk. destruct Hcases as [Hrej|(d0 & d1 & -> & Hok)].
    + by apply rot90_rejected.
    + by apply rot90_rank_limit.
Qed.

Lemma rot90_validation_witness :
  tensor_wf sample_2x3.2 sample_2x3.1
  ∧ flip_supported (dtype sample_2x3.1) = true
  ∧ dim sample_2x3.1 < 2 ^ 62
  ∧ rot90_rejects (dim sample_2x3.1) [0; -2]
  ∧ rot90 sample_2x3.1 1 [0; -2] sample_2x3.2 = (Err InvalidArgument, sample_2x3.2).
Proof.
  assert (tensor_wf sample_2x3.2 sample_2x3.1) as Hwf
    by (apply tensor_wf_check_true; vm_compute; reflexivity).
  assert (dim sample_2x3.1 < 2 ^ 62) as Hr by (vm_compute; reflexivity).
  assert (rot90_rejects (dim sample_2x3.1) [0; -2]) as Hrej
    by (unfold rot90_rejects, dim; simpl; lia).
  split; [exact Hwf|]. split; [reflexivity|]. split; [exact Hr|]. split; [exact Hrej|].
  exact (proj1 (rot90_validation sample_2x3.2 sample_2x3.1 1 [0; -2] Hwf eq_refl Hr) Hrej).
Defined.

(** ** Tensors without elements *)

(** C7 as the specification states it fails for [rot90]: on the empty
    0×3 array a quarter turn returns an empty array of shape 3×0, not
    0×3. *)
Lemma rot90_empty_changes_shape :
  numel sample_0x3.1 = 0
  ∧ sizes sample_0x3.1 = [0; 3]
  ∧ observe (rot90 sample_0x3.1 1 [0; 1]) sample_0x3.2 = inr (Some ([3; 0], [])).
Proof. split_and!; vm_compute; reflexivity. Qed.

Section empty_claims.
Variable roll_common : Tensor → list Z → list Z → M Tensor.

(** C7 (amended): on a tensor without elements, with arguments the
    operation accepts, [flip] returns a tensor without elements of the
    same shape; [roll] with one shift and one axis returns the structural
    copy, of the same shape and strides, whatever the shift and the axis,
    and computes no remainder; [rot90] returns a tensor without elements
    whose shape is that of the input for an even [k] and that of the input
    with the two rotation axes exchanged for an odd [k]. None of them
    raises. *)
Theorem empty_tensor_ops h X :
  tensor_wf h X → flip_supported (dtype X) = true → numel X = 0 →
  (∀ dims b, dim_list_to_bitset dims (dim X) = Ok b →
     ∃ r h', flip X dims h = (Ok r, h') ∧ sizes r = sizes X ∧ numel r = 0)
  ∧ (∀ s d, ∃ r h', roll_cpu roll_common X [s] [d] h = (Ok r, h')
       ∧ roll_cpu roll_common X [s] [d] h = clone X Preserve h
       ∧ sizes r = sizes X ∧ strides r = strides X ∧ numel r = 0)
  ∧ (∀ k d0 d1, dim X ≤ 64 ∨ k mod 4 = 0 → dim X < 2 ^ 62 →
       ¬ rot90_rejects (dim X) [d0; d1] →
       ∃ (a c : nat) r h',
         maybe_wrap_dim d0 (dim X) = Ok (Z.of_nat a)
         ∧ maybe_wrap_dim d1 (dim X) = Ok (Z.of_nat c)
         ∧ rot90 X k [d0; d1] h = (Ok r, h')
         ∧ sizes r = (if Z.odd k then swap_at a c (sizes X) else sizes X)
         ∧ numel r = 0).
Proof.
  intros Hwf Hdt HN. split_and!.
  - intros dims b Hb.
    destruct (flip_cpu_spec h X dims b Hwf Hdt Hb (or_intror HN)) as (r & h' & Hrun & Hp).
    exists r, h'. split_and!; [done|apply Hp|].
    by rewrite (flip_post_numel _ _ _ _ _ Hp).
  - intros s d. eexists _, _. rewrite roll_cpu_empty by done.
    rewrite clone_preserve_empty by (done || apply Hwf). done.
  - intros k d0 d1 Hcase Hr Hok.
    destruct (rot90_accepts_wrap _ _ _ Hok) as (a & c & Ha & Hc & _ & Har & Hcr).
    destruct (rot90_run h X k d0 d1 a c Hwf Hdt Hr Hcase Hok Ha Hc)
      as (r & h' & Hrun & _ & Hs & _).
    exists a, c, r, h'. split_and!; try done.
    unfold numel. rewrite Hs. destruct (Z.odd k); [|done].
    apply numel_of_swap_at; unfold dim in *; (lia || done).
Qed.

End empty_claims.

Lemma empty_tensor_ops_witness :
  tensor_wf sample_0x3.2 sample_0x3.1
  ∧ flip_supported (dtype sample_0x3.1) = true
  ∧ numel sample_0x3.1 = 0
  ∧ ∀ roll_common, ∃ r h',
      roll_cpu roll_common sample_0x3.1 [5] [7] sample_0x3.2 = (Ok r, h')
      ∧ sizes r = sizes sample_0x3.1.
Proof.
  assert (tensor_wf sample_0x3.2 sample_0x3.1) as Hwf
    by (apply tensor_wf_check_true; vm_compute; reflexivity).
  split; [exact Hwf|]. split; [reflexivity|]. split; [reflexivity|].
  intros roll_common.
  destruct (empty_tensor_ops roll_common sample_0x3.2 sample_0x3.1 Hwf eq_refl eq_refl)
    as (_ & Hroll & _).
  destruct (Hroll 5 7) as (r & h' & Hrun & _ & Hs & _).
  exists r, h'. split; [exact Hrun|exact Hs].
Defined.

(** ** Where the result lives *)

Lemma flip_post_fresh_output h X b r h' :
  tensor_wf h X → flip_post h X b r h' → fresh_output h X r h'.
Proof.
  intros Hwf Hp. destruct (wf_buffer _ _ Hwf) as (bf & Hbf & _).
  split; try apply Hp.
  - intros E. apply (fp_fresh _ _ _ _ _ Hp). rewrite E. by apply elem_of_dom_2 in Hbf.
  - apply is_contiguous_dense.
    by rewrite (fp_strides _ _ _ _ _ Hp), (fp_sizes _ _ _ _ _ Hp).
  - destruct (fp_cells _ _ _ _ _ Hp) as (data & Hd & Hlen).
    eexists. split; [exact Hd|]. by rewrite length_fmap.
Qed.

Section output_claims.
Variable roll_common : Tensor → list Z → list Z → M Tensor.

(** C8: the tensor [flip] returns, and the tensor [roll] returns along one
    axis, has the shape of the input, on a dense or strided view and on a
    tensor without elements alike, and lies contiguous, from offset zero,
    in a buffer that did not exist before the call and so is not the
    buffer of the input; the buffers that existed are unchanged. *)
Theorem flip_roll_fresh_output h X :
  tensor_wf h X →
  (∀ dims b, flip_supported (dtype X) = true → dim_list_to_bitset dims (dim X) = Ok b →
     ∃ r h', flip_old_cpu X dims h = (Ok r, h') ∧ fresh_output h X r h')
  ∧ (∀ dims b, flip_supported (dtype X) = true → dim_list_to_bitset dims (dim X) = Ok b →
     dims ≠ [] ∨ numel X = 0 →
     ∃ r h', flip X dims h = (Ok r, h') ∧ fresh_output h X r h')
  ∧ (∀ s d (k : nat), numel X = 0 ∨ maybe_wrap_dim d (dim X) = Ok (Z.of_nat k) →
     ∃ r h', roll_cpu roll_common X [s] [d] h = (Ok r, h') ∧ fresh_output h X r h').
Proof.
  intros Hwf. destruct (wf_buffer _ _ Hwf) as (bf & Hbf & _).
  pose proof (fresh_not_in h) as Hfresh.
  assert (fresh (dom h) ≠ storage X) as Hne.
  { intros E. rewrite E in Hfresh. congruence. }
  assert (fresh (dom h) ∉ dom h) as Hnew by (by apply not_elem_of_dom).
  assert (∀ bf', h ⊆ <[fresh (dom h) := bf']> h) as Hsub.
  { intros bf'. by apply insert_subseteq. }
  split_and!.
  - intros dims b Hdt Hb.
    destruct (flip_old_cpu_spec h X dims b Hwf Hdt Hb) as (r & h' & Hrun & Hp).
    exists r, h'. split; [done|]. by eapply flip_post_fresh_output.
  - intros dims b Hdt Hb Hcase.
    destruct (flip_cpu_spec h X dims b Hwf Hdt Hb) as (r & h' & Hrun & Hp).
    { destruct Hcase; [left|by right]. by eapply flip_dims_of_nonempty. }
    exists r, h'. split; [done|]. by eapply flip_post_fresh_output.
  - intros s d k Hcase. destruct (decide (numel X = 0)) as [HN|HN].
    + eexists _, _. rewrite roll_cpu_empty by done.
      rewrite clone_preserve_empty by (done || apply Hwf).
      split; [reflexivity|]. split; simpl; try done.
      * by apply is_contiguous_empty.
      * exists []. rewrite lookup_insert_eq. split; [done|]. by rewrite HN.
    + destruct Hcase as [|Hd]; [done|].
      destruct (lookup_lt_is_Some_2 (sizes X) k) as [n Hn].
      { apply maybe_wrap_dim_range in Hd. unfold dim in Hd. lia. }
      destruct (roll_cpu_result roll_common h X s d k n Hwf HN Hd Hn) as (cs & Hrun & Hcs).
      eexists _, _. split; [exact Hrun|]. split; simpl; try done.
      * by apply is_contiguous_dense.
      * exists cs. by rewrite lookup_insert_eq.
Qed.

End output_claims.

Lemma flip_roll_fresh_output_witness :
  tensor_wf sample_2x3.2 sample_2x3.1
  ∧ ∃ r h', flip_old_cpu sample_2x3.1 [] sample_2x3.2 = (Ok r, h')
      ∧ fresh_output sample_2x3.2 sample_2x3.1 r h'.
Proof.
  assert (tensor_wf sample_2x3.2 sample_2x3.1) as Hwf
    by (apply tensor_wf_check_true; vm_compute; reflexivity).
  split; [exact Hwf|].
  destruct (flip_roll_fresh_output (λ t _ _, mret t) sample_2x3.2 sample_2x3.1 Hwf)
    as (Hflip & _).
  exact (Hflip [] 0 eq_refl eq_refl).
Defined.

(** ** Rank promotion *)

(** C9 as the specification states it fails for rank one: [atleast_3d] of
    a vector of two elements has the shape 1×2×1, one axis in front and one
    at the back, not 2×1×1. *)
Lemma atleast_3d_vector_shape :
  observe (atleast_3d sample_vec.1) sample_vec.2 = inr (Some ([1; 2; 1], [1; 2]))
  ∧ observe (atleast_3d sample_vec.1) sample_vec.2 ≠ inr (Some ([2; 1; 1], [1; 2])).
Proof. split; vm_compute; [reflexivity|discriminate]. Qed.

(** C9 (amended): [atleast_3d] never fails and leaves the heap as it is.
    Of a tensor of rank one and size [n] it returns the view of shape
    [1, n, 1], one axis of size one in front and one at the back; of a
    tensor of rank two it returns the view with one axis of size one
    appended. The view is on the storage of the input and holds the same
    elements. *)
Theorem atleast_3d_promotes h t :
  length (strides t) = length (sizes t) →
  (∃ r, atleast_3d t h = (Ok r, h))
  ∧ (∀ n, sizes t = [n] →
       ∃ r, atleast_3d t h = (Ok r, h) ∧ sizes r = [1; n; 1]
         ∧ storage r = storage t ∧ to_list h r = to_list h t)
  ∧ (∀ a b, sizes t = [a; b] →
       ∃ r, atleast_3d t h = (Ok r, h) ∧ sizes r = [a; b; 1]
         ∧ storage r = storage t ∧ to_list h r = to_list h t).
Proof.
  intros Hlen.
  destruct (atleast_3d_run h t Hlen) as (r & Hrun & Hs & Hst & _ & _ & Hl).
  split_and!.
  - by exists r.
  - intros n Hn. exists r. by rewrite Hn in Hs.
  - intros a b Hab. exists r. by rewrite Hab in Hs.
Qed.

Lemma atleast_3d_promotes_witness :
  length (strides sample_vec.1) = length (sizes sample_vec.1)
  ∧ ∃ r, atleast_3d sample_vec.1 sample_vec.2 = (Ok r, sample_vec.2)
      ∧ sizes r = [1; 2; 1].
Proof.
  split; [reflexivity|].
  destruct (atleast_3d_promotes sample_vec.2 sample_vec.1 eq_refl) as (_ & H1 & _).
  destruct (H1 2 eq_refl) as (r & Hrun & Hs & _).
  exists r. split; [exact Hrun|exact Hs].
Defined.

(** * Further properties of the code *)

(** ** The axes of a flip *)

Lemma maybe_wrap_dim_axis_of d r j : maybe_wrap_dim d r = Ok j → j = axis_of r d.
Proof.
  unfold maybe_wrap_dim, axis_of. destruct (decide (0 ≤ _ < r)); [|done]. by intros [= <-].
Qed.

Lemma maybe_wrap_dim_in_range d r : - r ≤ d < r → maybe_wrap_dim d r = Ok (axis_of r d).
Proof.
  intros Hd. unfold axis_of. destruct (decide (d < 0)).
  - apply maybe_wrap_dim_neg. lia.
  - apply maybe_wrap_dim_nonneg. lia.
Qed.

Lemma maybe_wrap_dim_error d r e : maybe_wrap_dim d r = Err e → e = InvalidArgument ∧ ¬ (- r ≤ d < r).
Proof.
  intros He. split.
  - unfold maybe_wrap_dim in He. destruct (decide (0 ≤ _ < r)); [done|]. by injection He as <-.
  - intros Hd. by rewrite maybe_wrap_dim_in_range in He.
Qed.

Lemma maybe_wrap_dim_ok_range d r j : maybe_wrap_dim d r = Ok j → - r ≤ d < r.
Proof.
  unfold maybe_wrap_dim. destruct (decide (0 ≤ _ < r)) as [H|]; [|done].
  intros _. destruct (decide (d < 0)); lia.
Qed.

Lemma bitset_loop_testbit dims r :
  ∀ seen b j, dim_list_to_bitset_loop dims r seen = Ok b →
  (Z.testbit b j = true ↔
   Z.testbit seen j = true ∨ ∃ d, d ∈ dims ∧ maybe_wrap_dim d r = Ok j).
Proof.
  induction dims as [|d dims IH]; intros seen b j Hrun; simpl in Hrun.
  - injection Hrun as <-. split; [by left|].
    intros [|(d & Hd & _)]; [done|]. by apply elem_of_nil in Hd.
  - destruct (maybe_wrap_dim d r) as [d'|] eqn:Ed; [|done]. simpl in Hrun.
    destruct (Z.testbit seen d') eqn:Eb; [done|]. simpl in Hrun.
    pose proof (maybe_wrap_dim_range _ _ _ Ed) as Hd'.
    rewrite (IH _ _ j Hrun), Z.setbit_eqb by lia.
    rewrite orb_true_iff, Z.eqb_eq. split.
    + intros [[<-|?]|(d2 & Hin & Hw)].
      * right. exists d. split; [left|done].
      * by left.
      * right. exists d2. split; [by right|done].
    + intros [?|(d2 & Hin & Hw)]; [left; by right|].
      apply elem_of_cons in Hin as [->|Hin]; [|right; eauto].
      left. left. congruence.
Qed.

Lemma bitset_loop_ok_iff dims r :
  ∀ seen, (∃ b, dim_list_to_bitset_loop dims r seen = Ok b)
    ↔ Forall (λ d, - r ≤ d < r) dims ∧ NoDup (axis_of r <$> dims)
      ∧ Forall (λ d, Z.testbit seen (axis_of r d) = false) dims.
Proof.
  induction dims as [|d dims IH]; intros seen.
  - split; [intros _; split_and!; constructor|by eexists].
  - rewrite fmap_cons, NoDup_cons, !Forall_cons. cbn [dim_list_to_bitset_loop]. split.
    + intros [b Hrun].
      destruct (maybe_wrap_dim d r) as [d'|] eqn:Ed; [|done]. simpl in Hrun.
      destruct (Z.testbit seen d') eqn:Eb; [done|]. simpl in Hrun.
      pose proof (maybe_wrap_dim_range _ _ _ Ed) as Hd'.
      pose proof (maybe_wrap_dim_axis_of _ _ _ Ed) as ->.
      destruct (proj1 (IH _) (ex_intro _ b Hrun)) as (Hr & Hnd & Hseen).
      pose proof (maybe_wrap_dim_ok_range _ _ _ Ed) as Hd.
      split; [done|]. split; [split; [|done]|split; [done|]].
      * intros Hin. apply list_elem_of_fmap in Hin as (d2 & E & Hin).
        rewrite Forall_forall in Hseen. specialize (Hseen d2 Hin).
        rewrite <-E, Z.setbit_eqb, Z.eqb_refl in Hseen by lia. done.
      * apply Forall_forall. intros d2 Hin.
        rewrite Forall_forall in Hseen. specialize (Hseen d2 Hin).
        rewrite Z.setbit_eqb in Hseen by lia. by apply orb_false_iff in Hseen as [_ ?].
    + intros ([Hd Hr] & [Hnin Hnd] & [Hs Hseen]).
      rewrite (maybe_wrap_dim_in_range d r Hd). simpl. rewrite Hs. simpl.
      apply IH. split; [done|]. split; [done|].
      apply Forall_forall. intros d2 Hin.
      rewrite Forall_forall in Hseen.
      assert (0 ≤ axis_of r d) as H0 by (unfold axis_of; case_decide; lia).
      rewrite Z.setbit_eqb by done. apply orb_false_iff. split; [|by apply Hseen].
      apply Z.eqb_neq. intros E. apply Hnin. rewrite E. by apply list_elem_of_fmap_2.
Qed.

Lemma bitset_loop_error dims r :
  ∀ seen e, dim_list_to_bitset_loop dims r seen = Err e → e = InvalidArgument.
Proof.
  induction dims as [|d dims IH]; intros seen e Hrun; [done|].
  cbn [dim_list_to_bitset_loop] in Hrun.
  destruct (maybe_wrap_dim d r) as [d'|e'] eqn:Ed.
  - simpl in Hrun. destruct (Z.testbit seen d'); simpl in Hrun; [by injection Hrun as <-|].
    by eapply IH.
  - simpl in Hrun. injection Hrun as <-. by apply maybe_wrap_dim_error in Ed as [-> _].
Qed.

(** An axis list is accepted exactly when it is valid, and is refused with
    [InvalidArgument] otherwise. *)
Lemma dim_list_to_bitset_ok_iff dims r :
  (∃ b, dim_list_to_bitset dims r = Ok b) ↔ valid_axes r dims.
Proof.
  unfold dim_list_to_bitset, dim_bitset_size, valid_axes.
  destruct (decide (r ≤ 64)) as [Hr|Hr].
  - rewrite bool_decide_eq_true_2 by done. cbn [TORCH_CHECK]. simpl.
    rewrite bitset_loop_ok_iff. split.
    + intros (? & ? & _). done.
    + intros (_ & ? & ?). split_and!; [done..|].
      apply Forall_forall. intros d _. apply Z.testbit_0_l.
  - rewrite bool_decide_eq_false_2 by done. simpl. split; [by intros [? ?]|by intros [? _]].
Qed.

Lemma dim_list_to_bitset_invalid dims r :
  ¬ valid_axes r dims → dim_list_to_bitset dims r = Err InvalidArgument.
Proof.
  intros Hn. destruct (dim_list_to_bitset dims r) as [b|e] eqn:E.
  - destruct Hn. apply dim_list_to_bitset_ok_iff. eauto.
  - f_equal. revert E. unfold dim_list_to_bitset.
    destruct (TORCH_CHECK _) eqn:Ec; simpl.
    + apply bitset_loop_error.
    + intros [= <-]. unfold TORCH_CHECK in Ec.
      destruct (bool_decide _); [done|]. by injection Ec as <-.
Qed.

(** The bits of the set are the axes the list names. *)
Lemma dim_list_to_bitset_axes dims r b j :
  dim_list_to_bitset dims r = Ok b →
  (Z.testbit b j = true ↔ j ∈ axis_of r <$> dims).
Proof.
  intros Hb.
  destruct (proj1 (dim_list_to_bitset_ok_iff dims r) (ex_intro _ b Hb)) as (_ & Hr & _).
  unfold dim_list_to_bitset in Hb. destruct (TORCH_CHECK _); [|done]. simpl in Hb.
  rewrite (bitset_loop_testbit _ _ _ _ j Hb), Z.testbit_0_l, list_elem_of_fmap.
  rewrite Forall_forall in Hr. split.
  - intros [|(d & Hin & Hw)]; [done|]. exists d. split; [|done].
    by apply maybe_wrap_dim_axis_of in Hw.
  - intros (d & -> & Hin). right. exists d. split; [done|].
    by apply maybe_wrap_dim_in_range, Hr.
Qed.

Lemma valid_axes_range r dims j : valid_axes r dims → j ∈ axis_of r <$> dims → 0 ≤ j < r.
Proof.
  intros (_ & Hr & _) (d & -> & Hin)%list_elem_of_fmap.
  rewrite Forall_forall in Hr. specialize (Hr d Hin). unfold axis_of. case_decide; lia.
Qed.

(** ** Mirrored coordinates *)

Lemma length_mirror_axes axes shape idx : length (mirror_axes axes shape idx) = length idx.
Proof. unfold mirror_axes. by rewrite length_imap. Qed.

Lemma mirror_axes_lookup axes shape idx (j : nat) n c :
  shape !! j = Some n → idx !! j = Some c →
  mirror_axes axes shape idx !! j
  = Some (if decide (Z.of_nat j ∈ axes) then n - 1 - c else c).
Proof.
  intros Hn Hc. unfold mirror_axes. rewrite list_lookup_imap, Hc. simpl. by rewrite Hn.
Qed.

Lemma flip_coords_mirror_axes b axes shape idx :
  (∀ j, 0 ≤ j → Z.testbit b j = true ↔ j ∈ axes) →
  length idx = length shape →
  flip_coords b 0 shape idx = mirror_axes axes shape idx.
Proof.
  intros Hb Hlen. apply (list_eq_same_length _ _ (length shape)).
  { by rewrite length_mirror_axes. }
  { by rewrite length_flip_coords. }
  intros j x y Hj Hx Hy.
  destruct (lookup_lt_is_Some_2 shape j Hj) as [n Hn].
  destruct (lookup_lt_is_Some_2 idx j) as [c Hc]; [lia|].
  rewrite (flip_coords_lookup _ _ _ _ _ _ _ Hn Hc) in Hx.
  rewrite (mirror_axes_lookup _ _ _ _ _ _ Hn Hc) in Hy.
  rewrite Z.add_0_l in Hx. simplify_eq.
  specialize (Hb (Z.of_nat j) ltac:(lia)).
  destruct (Z.testbit b (Z.of_nat j)); destruct (decide (Z.of_nat j ∈ axes)) as [Hin|Hin];
    try done.
  - destruct Hin. by apply Hb.
  - by apply Hb in Hin.
Qed.

Lemma mirror_axes_valid axes shape idx :
  idx ∈ indices shape → mirror_axes axes shape idx ∈ indices shape.
Proof.
  intros Hin. pose proof (indices_length _ _ Hin) as Hlen.
  apply elem_of_indices in Hin. apply elem_of_indices.
  apply Forall2_same_length_lookup. split; [by rewrite length_mirror_axes|].
  intros j c' n Hc' Hn.
  destruct (lookup_lt_is_Some_2 idx j) as [c Hc].
  { rewrite Hlen. by apply lookup_lt_Some in Hn. }
  rewrite (mirror_axes_lookup _ _ _ _ _ _ Hn Hc) in Hc'. simplify_eq.
  pose proof (Forall2_lookup_lr _ _ _ _ _ _ Hin Hc Hn) as Hb. simpl in Hb.
  case_decide; lia.
Qed.

(** ** What the two flips return *)

Lemma to_list_frame h h' X : tensor_wf h X → h ⊆ h' → to_list h' X = to_list h X.
Proof.
  intros Hwf Hsub. apply to_list_pointwise; [done|]. intros idx Hin.
  destruct (wf_elem _ _ Hwf idx Hin) as [v Hv]. rewrite Hv. by eapply elem_weaken.
Qed.

(** What [flip_post] says in terms of the axis list. *)
Lemma flip_post_elements h X dims b r h' :
  tensor_wf h X → dim_list_to_bitset dims (dim X) = Ok b → flip_post h X b r h' →
  sizes r = sizes X ∧ dtype r = dtype X ∧ tensor_wf h' r
  ∧ (∀ idx, idx ∈ indices (sizes X) →
       elem h' r idx = elem h X (mirror_axes (axis_of (dim X) <$> dims) (sizes X) idx))
  ∧ to_list h' X = to_list h X.
Proof.
  intros Hwf Hb Hp. split_and!; [apply Hp..|by eapply flip_post_wf| |].
  - intros idx Hin. rewrite (fp_elem _ _ _ _ _ Hp) by done. f_equal.
    apply flip_coords_mirror_axes; [|by apply indices_length].
    intros j _. by apply dim_list_to_bitset_axes.
  - apply to_list_frame; [done|apply Hp].
Qed.

(** X1: [flip_old_cpu] on a well-formed tensor of a supported element type
    and a valid axis list returns a well-formed tensor of the same shape
    and type whose element at every coordinate vector is the element of
    the input at the coordinates mirrored on the listed axes (negative axes
    counted from the back); the elements of the input are as before. *)
Theorem flip_old_cpu_elements h X dims :
  tensor_wf h X → flip_supported (dtype X) = true → valid_axes (dim X) dims →
  ∃ r h', flip_old_cpu X dims h = (Ok r, h')
    ∧ sizes r = sizes X ∧ dtype r = dtype X ∧ tensor_wf h' r
    ∧ (∀ idx, idx ∈ indices (sizes X) →
         elem h' r idx = elem h X (mirror_axes (axis_of (dim X) <$> dims) (sizes X) idx))
    ∧ to_list h' X = to_list h X.
Proof.
  intros Hwf Hdt Hv. apply dim_list_to_bitset_ok_iff in Hv as [b Hb].
  destruct (flip_old_cpu_spec h X dims b Hwf Hdt Hb) as (r & h' & Hrun & Hp).
  exists r, h'. split; [done|]. by eapply flip_post_elements.
Qed.

Lemma flip_old_cpu_elements_witness :
  tensor_wf sample_2x3.2 sample_2x3.1
  ∧ flip_supported (dtype sample_2x3.1) = true
  ∧ valid_axes (dim sample_2x3.1) [-1]
  ∧ ∃ r h', flip_old_cpu sample_2x3.1 [-1] sample_2x3.2 = (Ok r, h')
      ∧ sizes r = sizes sample_2x3.1.
Proof.
  assert (tensor_wf sample_2x3.2 sample_2x3.1) as Hwf
    by (apply tensor_wf_check_true; vm_compute; reflexivity).
  assert (valid_axes (dim sample_2x3.1) [-1]) as Hv
    by (apply (bool_decide_unpack _); vm_compute; exact I).
  split; [exact Hwf|]. split; [reflexivity|]. split; [exact Hv|].
  destruct (flip_old_cpu_elements sample_2x3.2 sample_2x3.1 [-1] Hwf eq_refl Hv)
    as (r & h' & Hrun & Hs & _).
  exists r, h'. split; [exact Hrun|exact Hs].
Defined.

(** X2: the gather flip, [flip_cpu] and [flip_cpu_internal], given at least
    one axis or a tensor without elements, returns a well-formed tensor of
    the same shape and type whose element at every coordinate vector is the
    element of the input at the coordinates mirrored on the listed axes;
    the elements of the input are as before. *)
Theorem flip_cpu_elements h X dims :
  tensor_wf h X → flip_supported (dtype X) = true → valid_axes (dim X) dims →
  dims ≠ [] ∨ numel X = 0 →
  ∃ r h', flip_cpu X dims h = (Ok r, h') ∧ flip_cpu_internal X dims h = (Ok r, h')
    ∧ sizes r = sizes X ∧ dtype r = dtype X ∧ tensor_wf h' r
    ∧ (∀ idx, idx ∈ indices (sizes X) →
         elem h' r idx = elem h X (mirror_axes (axis_of (dim X) <$> dims) (sizes X) idx))
    ∧ to_list h' X = to_list h X.
Proof.
  intros Hwf Hdt Hv Hcase. apply dim_list_to_bitset_ok_iff in Hv as [b Hb].
  destruct (flip_cpu_spec h X dims b Hwf Hdt Hb) as (r & h' & Hrun & Hp).
  { destruct Hcase; [left|by right]. by eapply flip_dims_of_nonempty. }
  exists r, h'. split; [done|]. split; [by rewrite flip_cpu_internal_eq|].
  by eapply flip_post_elements.
Qed.

Lemma flip_cpu_elements_witness :
  tensor_wf sample_2x3.2 sample_2x3.1
  ∧ flip_supported (dtype sample_2x3.1) = true
  ∧ valid_axes (dim sample_2x3.1) [1; -2]
  ∧ ([1; -2] ≠ [] ∨ numel sample_2x3.1 = 0)
  ∧ ∃ r h', flip_cpu sample_2x3.1 [1; -2] sample_2x3.2 = (Ok r, h')
      ∧ sizes r = sizes sample_2x3.1.
Proof.
  assert (tensor_wf sample_2x3.2 sample_2x3.1) as Hwf
    by (apply tensor_wf_check_true; vm_compute; reflexivity).
  assert (valid_axes (dim sample_2x3.1) [1; -2]) as Hv
    by (apply (bool_decide_unpack _); vm_compute; exact I).
  assert ([1; -2] ≠ [] ∨ numel sample_2x3.1 = 0) as Hc by (left; discriminate).
  split; [exact Hwf|]. split; [reflexivity|]. split; [exact Hv|]. split; [exact Hc|].
  destruct (flip_cpu_elements sample_2x3.2 sample_2x3.1 [1; -2] Hwf eq_refl Hv Hc)
    as (r & h' & Hrun & _ & Hs & _).
  exists r, h'. split; [exact Hrun|exact Hs].
Defined.

(** ** Which axis lists a flip accepts *)

Lemma flip_old_cpu_invalid X dims h :
  ¬ valid_axes (dim X) dims → flip_old_cpu X dims h = (Err InvalidArgument, h).
Proof.
  intros Hn. unfold flip_old_cpu. cbv zeta.
  by rewrite bind_lift, (dim_list_to_bitset_invalid _ _ Hn).
Qed.

Lemma flip_cpu_invalid X dims h :
  ¬ valid_axes (dim X) dims → flip_cpu X dims h = (Err InvalidArgument, h).
Proof.
  intros Hn. unfold flip_cpu. cbv zeta.
  by rewrite bind_lift, (dim_list_to_bitset_invalid _ _ Hn).
Qed.

(** X3: the axis list is checked before anything is allocated. On a
    well-formed tensor of a supported type [flip_old_cpu] returns exactly
    when the rank is at most 64, every axis lies in [-rank, rank) and no
    axis is named twice, also under its negative spelling; on every other
    list [flip_old_cpu], [flip_cpu] and [flip_cpu_internal] raise
    [InvalidArgument] and leave the heap as it was. *)
Theorem flip_axis_validation h X dims :
  tensor_wf h X → flip_supported (dtype X) = true →
  ((∃ r h', flip_old_cpu X dims h = (Ok r, h')) ↔ valid_axes (dim X) dims)
  ∧ (¬ valid_axes (dim X) dims →
       flip_old_cpu X dims h = (Err InvalidArgument, h)
       ∧ flip_cpu X dims h = (Err InvalidArgument, h)
       ∧ flip_cpu_internal X dims h = (Err InvalidArgument, h)).
Proof.
  intros Hwf Hdt. split.
  - split.
    + intros (r & h' & Hrun). destruct (decide (valid_axes (dim X) dims)) as [|Hn]; [done|].
      rewrite (flip_old_cpu_invalid X dims h Hn) in Hrun. done.
    + intros Hv. apply dim_list_to_bitset_ok_iff in Hv as [b Hb].
      destruct (flip_old_cpu_spec h X dims b Hwf Hdt Hb) as (r & h' & Hrun & _). eauto.
  - intros Hn. split_and!.
    + by apply flip_old_cpu_invalid.
    + by apply flip_cpu_invalid.
    + rewrite flip_cpu_internal_eq. by apply flip_cpu_invalid.
Qed.

Lemma flip_axis_validation_witness :
  tensor_wf sample_2x3.2 sample_2x3.1
  ∧ flip_supported (dtype sample_2x3.1) = true
  ∧ ¬ valid_axes (dim sample_2x3.1) [1; -1]
  ∧ flip_cpu sample_2x3.1 [1; -1] sample_2x3.2 = (Err InvalidArgument, sample_2x3.2).
Proof.
  assert (tensor_wf sample_2x3.2 sample_2x3.1) as Hwf
    by (apply tensor_wf_check_true; vm_compute; reflexivity).
  assert (¬ valid_axes (dim sample_2x3.1) [1; -1]) as Hn
    by (apply (bool_decide_unpack _); vm_compute; exact I).
  split; [exact Hwf|]. split; [reflexivity|]. split; [exact Hn|].
  destruct (flip_axis_validation sample_2x3.2 sample_2x3.1 [1; -1] Hwf eq_refl)
    as (_ & Herr).
  exact (proj1 (proj2 (Herr Hn))).
Defined.

(** ** Flipping twice, and the two kernels side by side *)

(** X4: [flip_old_cpu] is an involution on every valid axis list, the
    empty one included: flipping the result again on the same axes returns
    a tensor of the shape of the input that holds the same elements. *)
Theorem flip_old_cpu_twice h X dims :
  tensor_wf h X → flip_supported (dtype X) = true → valid_axes (dim X) dims →
  ∃ r1 h1 r2 h2, flip_old_cpu X dims h = (Ok r1, h1)
    ∧ flip_old_cpu r1 dims h1 = (Ok r2, h2)
    ∧ sizes r2 = sizes X ∧ to_list h2 r2 = to_list h X ∧ is_Some (to_list h X).
Proof.
  intros Hwf Hdt Hv. apply dim_list_to_bitset_ok_iff in Hv as [b Hb].
  destruct (flip_old_cpu_spec h X dims b Hwf Hdt Hb) as (r1 & h1 & Hrun1 & Hp1).
  destruct (flip_old_cpu_spec h1 r1 dims b) as (r2 & h2 & Hrun2 & Hp2).
  { by eapply flip_post_wf. }
  { by rewrite (fp_dtype _ _ _ _ _ Hp1). }
  { by rewrite (flip_post_dim _ _ _ _ _ Hp1). }
  exists r1, h1, r2, h2. split; [done|]. split; [done|].
  by eapply flip_post_twice.
Qed.

Lemma flip_old_cpu_twice_witness :
  tensor_wf sample_2x3.2 sample_2x3.1
  ∧ flip_supported (dtype sample_2x3.1) = true
  ∧ valid_axes (dim sample_2x3.1) []
  ∧ ∃ r1 h1 r2 h2, flip_old_cpu sample_2x3.1 [] sample_2x3.2 = (Ok r1, h1)
      ∧ flip_old_cpu r1 [] h1 = (Ok r2, h2)
      ∧ to_list h2 r2 = to_list sample_2x3.2 sample_2x3.1.
Proof.
  assert (tensor_wf sample_2x3.2 sample_2x3.1) as Hwf
    by (apply tensor_wf_check_true; vm_compute; reflexivity).
  assert (valid_axes (dim sample_2x3.1) []) as Hv
    by (apply (bool_decide_unpack _); vm_compute; exact I).
  split; [exact Hwf|]. split; [reflexivity|]. split; [exact Hv|].
  destruct (flip_old_cpu_twice sample_2x3.2 sample_2x3.1 [] Hwf eq_refl Hv)
    as (r1 & h1 & r2 & h2 & H1 & H2 & _ & Hl & _).
  exists r1, h1, r2, h2. split; [exact H1|]. split; [exact H2|exact Hl].
Defined.

(** X5: with at least one axis, or on a tensor without elements, [flip]
    is an involution: [flip(flip(X, dims), dims)] has the shape and the
    elements of [X]. *)
Theorem flip_twice_with_axes h X dims :
  tensor_wf h X → flip_supported (dtype X) = true → valid_axes (dim X) dims →
  dims ≠ [] ∨ numel X = 0 →
  ∃ r1 h1 r2 h2, flip X dims h = (Ok r1, h1) ∧ flip r1 dims h1 = (Ok r2, h2)
    ∧ sizes r2 = sizes X ∧ to_list h2 r2 = to_list h X ∧ is_Some (to_list h X).
Proof.
  intros Hwf Hdt Hv Hcase. apply dim_list_to_bitset_ok_iff in Hv as [b Hb].
  assert (flip_dims_of b (dim X) ≠ [] ∨ numel X = 0) as Hcase'.
  { destruct Hcase; [left|by right]. by eapply flip_dims_of_nonempty. }
  destruct (flip_cpu_spec h X dims b Hwf Hdt Hb Hcase') as (r1 & h1 & Hrun1 & Hp1).
  destruct (flip_cpu_spec h1 r1 dims b) as (r2 & h2 & Hrun2 & Hp2).
  { by eapply flip_post_wf. }
  { by rewrite (fp_dtype _ _ _ _ _ Hp1). }
  { by rewrite (flip_post_dim _ _ _ _ _ Hp1). }
  { by rewrite (flip_post_dim _ _ _ _ _ Hp1), (flip_post_numel _ _ _ _ _ Hp1). }
  exists r1, h1, r2, h2. split; [done|]. split; [done|].
  by eapply flip_post_twice.
Qed.

Lemma flip_twice_with_axes_witness :
  tensor_wf sample_2x3.2 sample_2x3.1
  ∧ flip_supported (dtype sample_2x3.1) = true
  ∧ valid_axes (dim sample_2x3.1) [0]
  ∧ ([0] ≠ [] ∨ numel sample_2x3.1 = 0)
  ∧ ∃ r1 h1 r2 h2, flip sample_2x3.1 [0] sample_2x3.2 = (Ok r1, h1)
      ∧ flip r1 [0] h1 = (Ok r2, h2)
      ∧ to_list h2 r2 = to_list sample_2x3.2 sample_2x3.1.
Proof.
  assert (tensor_wf sample_2x3.2 sample_2x3.1) as Hwf
    by (apply tensor_wf_check_true; vm_compute; reflexivity).
  assert (valid_axes (dim sample_2x3.1) [0]) as Hv
    by (apply (bool_decide_unpack _); vm_compute; exact I).
  assert ([0] ≠ [] ∨ numel sample_2x3.1 = 0) as Hc by (left; discriminate).
  split; [exact Hwf|]. split; [reflexivity|]. split; [exact Hv|]. split; [exact Hc|].
  destruct (flip_twice_with_axes sample_2x3.2 sample_2x3.1 [0] Hwf eq_refl Hv Hc)
    as (r1 & h1 & r2 & h2 & H1 & H2 & _ & Hl & _).
  exists r1, h1, r2, h2. split; [exact H1|]. split; [exact H2|exact Hl].
Defined.

(** X6: with at least one axis, or on a tensor without elements, the
    coordinate-decomposition kernel [flip_old_cpu] and the gather kernel
    [flip_cpu_internal] return tensors of the same shape, strides and type
    that hold the same elements. *)
Theorem flip_kernels_agree_with_axes h X dims :
  tensor_wf h X → flip_supported (dtype X) = true → valid_axes (dim X) dims →
  dims ≠ [] ∨ numel X = 0 →
  ∃ r1 h1 r2 h2, flip_old_cpu X dims h = (Ok r1, h1)
    ∧ flip_cpu_internal X dims h = (Ok r2, h2)
    ∧ sizes r1 = sizes r2 ∧ strides r1 = strides r2 ∧ dtype r1 = dtype r2
    ∧ storage_offset r1 = storage_offset r2
    ∧ to_list h1 r1 = to_list h2 r2 ∧ is_Some (to_list h1 r1).
Proof.
  intros Hwf Hdt Hv Hcase. apply dim_list_to_bitset_ok_iff in Hv as [b Hb].
  assert (flip_dims_of b (dim X) ≠ [] ∨ numel X = 0) as Hcase'.
  { destruct Hcase; [left|by right]. by eapply flip_dims_of_nonempty. }
  destruct (flip_old_cpu_spec h X dims b Hwf Hdt Hb) as (r1 & h1 & Hrun1 & Hp1).
  destruct (flip_cpu_spec h X dims b Hwf Hdt Hb Hcase') as (r2 & h2 & Hrun2 & Hp2).
  exists r1, h1, r2, h2. rewrite flip_cpu_internal_eq.
  split; [done|]. split; [done|].
  split; [by rewrite (fp_sizes _ _ _ _ _ Hp1), (fp_sizes _ _ _ _ _ Hp2)|].
  split; [by rewrite (fp_strides _ _ _ _ _ Hp1), (fp_strides _ _ _ _ _ Hp2)|].
  split; [by rewrite (fp_dtype _ _ _ _ _ Hp1), (fp_dtype _ _ _ _ _ Hp2)|].
  split; [by rewrite (fp_offset _ _ _ _ _ Hp1), (fp_offset _ _ _ _ _ Hp2)|].
  split; [|by eapply to_list_is_Some, flip_post_wf].
  apply to_list_pointwise.
  { by rewrite (fp_sizes _ _ _ _ _ Hp1), (fp_sizes _ _ _ _ _ Hp2). }
  intros idx Hin. rewrite (fp_sizes _ _ _ _ _ Hp1) in Hin.
  by rewrite (fp_elem _ _ _ _ _ Hp1), (fp_elem _ _ _ _ _ Hp2).
Qed.

Lemma flip_kernels_agree_with_axes_witness :
  tensor_wf sample_2x3.2 sample_2x3.1
  ∧ flip_supported (dtype sample_2x3.1) = true
  ∧ valid_axes (dim sample_2x3.1) [0; 1]
  ∧ ([0; 1] ≠ [] ∨ numel sample_2x3.1 = 0)
  ∧ ∃ r1 h1 r2 h2, flip_old_cpu sample_2x3.1 [0; 1] sample_2x3.2 = (Ok r1, h1)
      ∧ flip_cpu_internal sample_2x3.1 [0; 1] sample_2x3.2 = (Ok r2, h2)
      ∧ to_list h1 r1 = to_list h2 r2.
Proof.
  assert (tensor_wf sample_2x3.2 sample_2x3.1) as Hwf
    by (apply tensor_wf_check_true; vm_compute; reflexivity).
  assert (valid_axes (dim sample_2x3.1) [0; 1]) as Hv
    by (apply (bool_decide_unpack _); vm_compute; exact I).
  assert ([0; 1] ≠ [] ∨ numel sample_2x3.1 = 0) as Hc by (left; discriminate).
  split; [exact Hwf|]. split; [reflexivity|]. split; [exact Hv|]. split; [exact Hc|].
  destruct (flip_kernels_agree_with_axes sample_2x3.2 sample_2x3.1 [0; 1] Hwf eq_refl Hv Hc)
    as (r1 & h1 & r2 & h2 & H1 & H2 & _ & _ & _ & _ & Hl & _).
  exists r1, h1, r2, h2. split; [exact H1|]. split; [exact H2|exact Hl].
Defined.

(** ** The set of axes *)

(** Two valid lists that name the same axes give the same call. *)
Lemma flip_axes_perm X dims1 dims2 h :
  valid_axes (dim X) dims1 →
  axis_of (dim X) <$> dims1 ≡ₚ axis_of (dim X) <$> dims2 →
  flip X dims1 h = flip X dims2 h ∧ flip_old_cpu X dims1 h = flip_old_cpu X dims2 h.
Proof.
  intros Hv Hp.
  assert (valid_axes (dim X) dims2) as Hv2.
  { destruct Hv as (Hr & Hrange & Hnd). split_and!; [done| |by rewrite <-Hp].
    apply Forall_forall. intros d Hin.
    assert (axis_of (dim X) d ∈ axis_of (dim X) <$> dims1) as Hd
      by (rewrite Hp; by apply list_elem_of_fmap_2).
    apply (valid_axes_range (dim X) dims1) in Hd; [|done].
    unfold axis_of in Hd. case_decide; lia. }
  apply dim_list_to_bitset_ok_iff in Hv as [b1 Hb1].
  apply dim_list_to_bitset_ok_iff in Hv2 as [b2 Hb2].
  assert (b1 = b2) as ->.
  { apply Z.bits_inj'. intros n _. apply Bool.eq_iff_eq_true.
    rewrite (dim_list_to_bitset_axes _ _ _ n Hb1), (dim_list_to_bitset_axes _ _ _ n Hb2).
    by rewrite Hp. }
  unfold flip, flip_cpu, flip_old_cpu. cbv zeta. by rewrite !bind_lift, Hb1, Hb2.
Qed.


(** X7: a flip depends on the set of axes only, not on the order in which
    they are listed nor on whether an axis is written from the front or,
    negative, from the back: two lists that name the same axes give the
    same call, for [flip] and for [flip_old_cpu]. *)
Theorem flip_axis_order X dims1 dims2 h :
  valid_axes (dim X) dims1 →
  axis_of (dim X) <$> dims1 ≡ₚ axis_of (dim X) <$> dims2 →
  flip X dims1 h = flip X dims2 h ∧ flip_old_cpu X dims1 h = flip_old_cpu X dims2 h.
Proof. apply flip_axes_perm. Qed.

Lemma flip_axis_order_witness :
  valid_axes (dim sample_2x3.1) [0; 1]
  ∧ axis_of (dim sample_2x3.1) <$> [0; 1] ≡ₚ axis_of (dim sample_2x3.1) <$> [-1; -2]
  ∧ flip sample_2x3.1 [0; 1] sample_2x3.2 = flip sample_2x3.1 [-1; -2] sample_2x3.2.
Proof.
  assert (valid_axes (dim sample_2x3.1) [0; 1]) as Hv
    by (apply (bool_decide_unpack _); vm_compute; exact I).
  assert (axis_of (dim sample_2x3.1) <$> [0; 1]
          ≡ₚ axis_of (dim sample_2x3.1) <$> [-1; -2]) as Hp
    by (apply (bool_decide_unpack _); vm_compute; exact I).
  split; [exact Hv|]. split; [exact Hp|].
  exact (proj1 (flip_axis_order sample_2x3.1 [0; 1] [-1; -2] sample_2x3.2 Hv Hp)).
Defined.

(** ** Layout and element type of the input *)

Lemma to_list_eq_elem h1 X h2 Y :
  sizes X = sizes Y → tensor_wf h1 X → to_list h1 X = to_list h2 Y →
  ∀ idx, idx ∈ indices (sizes X) → elem h1 X idx = elem h2 Y idx.
Proof.
  intros Hs Hwf Hl idx Hin.
  destruct (to_list_is_Some _ _ Hwf) as [l Hl1]. rewrite Hl1 in Hl. symmetry in Hl.
  unfold to_list in Hl1, Hl. rewrite <-Hs in Hl.
  apply mapM_Some in Hl1. apply mapM_Some in Hl.
  apply list_elem_of_lookup in Hin as [i Hi].
  destruct (Forall2_lookup_l _ _ _ _ _ Hl1 Hi) as (v & Hv & ->).
  destruct (Forall2_lookup_l _ _ _ _ _ Hl Hi) as (v' & Hv' & ->). congruence.
Qed.

(** X8: what a flip returns depends on the shape and the elements of its
    input only, not on its strides, offset, storage or element type: on two
    well-formed tensors of one shape that hold the same elements, a dense
    copy and a strided view for instance, [flip_old_cpu], and [flip] given
    an axis, return tensors of one shape that hold the same elements. *)
Theorem flip_layout_independent h1 X h2 Y dims :
  tensor_wf h1 X → tensor_wf h2 Y →
  flip_supported (dtype X) = true → flip_supported (dtype Y) = true →
  valid_axes (dim X) dims →
  sizes X = sizes Y → to_list h1 X = to_list h2 Y →
  (∃ r1 h1' r2 h2', flip_old_cpu X dims h1 = (Ok r1, h1')
     ∧ flip_old_cpu Y dims h2 = (Ok r2, h2')
     ∧ sizes r1 = sizes r2 ∧ to_list h1' r1 = to_list h2' r2)
  ∧ (dims ≠ [] ∨ numel X = 0 →
     ∃ r1 h1' r2 h2', flip X dims h1 = (Ok r1, h1') ∧ flip Y dims h2 = (Ok r2, h2')
       ∧ sizes r1 = sizes r2 ∧ to_list h1' r1 = to_list h2' r2).
Proof.
  intros HwfX HwfY HdX HdY Hv Hs Hl.
  assert (dim Y = dim X) as Hdim by (unfold dim; by rewrite Hs).
  assert (numel Y = numel X) as Hnum by (unfold numel; by rewrite Hs).
  apply dim_list_to_bitset_ok_iff in Hv as [b Hb].
  pose proof (to_list_eq_elem _ _ _ _ Hs HwfX Hl) as He.
  assert (∀ r1 h1' r2 h2', flip_post h1 X b r1 h1' → flip_post h2 Y b r2 h2' →
            sizes r1 = sizes r2 ∧ to_list h1' r1 = to_list h2' r2) as Hsame.
  { intros r1 h1' r2 h2' Hp1 Hp2.
    assert (sizes r1 = sizes r2) as Hsr
      by (by rewrite (fp_sizes _ _ _ _ _ Hp1), (fp_sizes _ _ _ _ _ Hp2)).
    split; [done|]. apply to_list_pointwise; [done|]. intros idx Hin.
    rewrite (fp_sizes _ _ _ _ _ Hp1) in Hin.
    rewrite (fp_elem _ _ _ _ _ Hp1) by done.
    rewrite (fp_elem _ _ _ _ _ Hp2) by (by rewrite <-Hs).
    rewrite <-Hs. apply He. by apply flip_coords_valid. }
  split.
  - destruct (flip_old_cpu_spec h1 X dims b HwfX HdX Hb) as (r1 & h1' & Hrun1 & Hp1).
    destruct (flip_old_cpu_spec h2 Y dims b HwfY HdY) as (r2 & h2' & Hrun2 & Hp2);
      [by rewrite Hdim|].
    exists r1, h1', r2, h2'. split; [done|]. split; [done|]. by apply Hsame.
  - intros Hcase.
    assert (flip_dims_of b (dim X) ≠ [] ∨ numel X = 0) as Hcase'.
    { destruct Hcase; [left|by right]. by eapply flip_dims_of_nonempty. }
    destruct (flip_cpu_spec h1 X dims b HwfX HdX Hb Hcase') as (r1 & h1' & Hrun1 & Hp1).
    destruct (flip_cpu_spec h2 Y dims b HwfY HdY) as (r2 & h2' & Hrun2 & Hp2);
      [by rewrite Hdim|by rewrite Hdim, Hnum|].
    exists r1, h1', r2, h2'. split; [done|]. split; [done|]. by apply Hsame.
Qed.

Lemma flip_layout_independent_witness :
  tensor_wf sample_2x3.2 sample_2x3.1
  ∧ tensor_wf sample_2x3_strided.2 sample_2x3_strided.1
  ∧ flip_supported (dtype sample_2x3.1) = true
  ∧ flip_supported (dtype sample_2x3_strided.1) = true
  ∧ valid_axes (dim sample_2x3.1) [1]
  ∧ sizes sample_2x3.1 = sizes sample_2x3_strided.1
  ∧ to_list sample_2x3.2 sample_2x3.1 = to_list sample_2x3_strided.2 sample_2x3_strided.1
  ∧ ∃ r1 h1' r2 h2',
      flip_old_cpu sample_2x3.1 [1] sample_2x3.2 = (Ok r1, h1')
      ∧ flip_old_cpu sample_2x3_strided.1 [1] sample_2x3_strided.2 = (Ok r2, h2')
      ∧ sizes r1 = sizes r2 ∧ to_list h1' r1 = to_list h2' r2.
Proof.
  assert (tensor_wf sample_2x3.2 sample_2x3.1) as Hwf1
    by (apply tensor_wf_check_true; vm_compute; reflexivity).
  assert (tensor_wf sample_2x3_strided.2 sample_2x3_strided.1) as Hwf2
    by (apply tensor_wf_check_true; vm_compute; reflexivity).
  assert (valid_axes (dim sample_2x3.1) [1]) as Hv
    by (apply (bool_decide_unpack _); vm_compute; exact I).
  assert (to_list sample_2x3.2 sample_2x3.1
          = to_list sample_2x3_strided.2 sample_2x3_strided.1) as Hl
    by (vm_compute; reflexivity).
  split; [exact Hwf1|]. split; [exact Hwf2|]. split; [reflexivity|]. split; [reflexivity|].
  split; [exact Hv|]. split; [reflexivity|]. split; [exact Hl|].
  exact (proj1 (flip_layout_independent _ _ _ _ [1] Hwf1 Hwf2 eq_refl eq_refl Hv eq_refl Hl)).
Defined.

(** X9: on a tensor of the type [ComplexHalf], the one element type that
    neither dispatch lists, both flips raise [NotImplemented]. The check
    comes after the allocations, so the heap has grown, but no buffer
    that existed is changed and no element is copied. *)
Theorem flip_unsupported_type h X dims :
  tensor_wf h X → flip_supported (dtype X) = false → valid_axes (dim X) dims →
  ∃ h1 h2, flip_old_cpu X dims h = (Err NotImplemented, h1)
    ∧ flip_cpu X dims h = (Err NotImplemented, h2)
    ∧ flip_cpu_internal X dims h = (Err NotImplemented, h2)
    ∧ h ⊆ h1 ∧ h ⊆ h2
    ∧ h1 !! fresh (dom h) = Some (Buffer (element_size (dtype X))
                                    (replicate (Z.to_nat (numel X)) None)).
Proof.
  intros Hwf Hdt Hv. apply dim_list_to_bitset_ok_iff in Hv as [b Hb].
  assert (dtype X = kComplexHalf) as Et by (destruct (dtype X); done).
  destruct (build_indices_loop_spec X (flip_dims_of b (dim X)) h Hwf)
    as (idxs & h' & Hrun & Hsub & Hidx); [apply gather_fd_range|].
  pose proof (fresh_not_in h) as Hl. pose proof (fresh_not_in h') as Hl'.
  eexists _, _. split_and!.
  - unfold flip_old_cpu. rewrite bind_lift, Hb.
    rewrite (bind_ok _ _ _ _ _ (empty_like_contiguous_run X h)).
    unfold is_quantized. rewrite Et. reflexivity.
  - unfold flip_cpu. rewrite bind_lift, Hb.
    rewrite (bind_ok _ _ _ _ _ Hrun).
    rewrite (bind_ok _ _ _ _ _ (make_index_iterator_run X h' b idxs Hidx)).
    unfold flip_stub, is_quantized. rewrite Et. reflexivity.
  - rewrite flip_cpu_internal_eq. unfold flip_cpu. rewrite bind_lift, Hb.
    rewrite (bind_ok _ _ _ _ _ Hrun).
    rewrite (bind_ok _ _ _ _ _ (make_index_iterator_run X h' b idxs Hidx)).
    unfold flip_stub, is_quantized. rewrite Et. reflexivity.
  - by apply insert_subseteq.
  - etrans; [exact Hsub|]. by apply insert_subseteq.
  - by rewrite lookup_insert_eq, Et.
Qed.

Lemma flip_unsupported_type_witness :
  tensor_wf sample_complex_half.2 sample_complex_half.1
  ∧ flip_supported (dtype sample_complex_half.1) = false
  ∧ valid_axes (dim sample_complex_half.1) [0]
  ∧ ∃ h1, flip_old_cpu sample_complex_half.1 [0] sample_complex_half.2
          = (Err NotImplemented, h1).
Proof.
  assert (tensor_wf sample_complex_half.2 sample_complex_half.1) as Hwf
    by (apply tensor_wf_check_true; vm_compute; reflexivity).
  assert (valid_axes (dim sample_complex_half.1) [0]) as Hv
    by (apply (bool_decide_unpack _); vm_compute; exact I).
  split; [exact Hwf|]. split; [reflexivity|]. split; [exact Hv|].
  destruct (flip_unsupported_type sample_complex_half.2 sample_complex_half.1 [0]
              Hwf eq_refl Hv) as (h1 & h2 & Hrun & _).
  by exists h1.
Defined.

(** ** Flips one after another *)

Lemma mirror_axes_compose A1 A2 shape idx :
  length idx = length shape → (∀ j, j ∈ A1 → j ∉ A2) →
  mirror_axes A1 shape (mirror_axes A2 shape idx) = mirror_axes (A1 ++ A2) shape idx.
Proof.
  intros Hlen Hdis. apply (list_eq_same_length _ _ (length shape)).
  { by rewrite length_mirror_axes. }
  { by rewrite !length_mirror_axes. }
  intros j x y Hj Hx Hy.
  destruct (lookup_lt_is_Some_2 shape j Hj) as [n Hn].
  destruct (lookup_lt_is_Some_2 idx j) as [c Hc]; [lia|].
  rewrite (mirror_axes_lookup _ _ _ _ n _ Hn (mirror_axes_lookup _ _ _ _ _ _ Hn Hc)) in Hx.
  rewrite (mirror_axes_lookup _ _ _ _ _ _ Hn Hc) in Hy. simplify_eq.
  specialize (Hdis (Z.of_nat j)).
  destruct (decide (Z.of_nat j ∈ A1)) as [H1|H1], (decide (Z.of_nat j ∈ A2)) as [H2|H2].
  - by destruct (Hdis H1).
  - rewrite decide_True by (apply elem_of_app; by left). done.
  - rewrite decide_True by (apply elem_of_app; by right). done.
  - rewrite decide_False; [done|]. by intros [?|?]%elem_of_app.
Qed.

Lemma valid_axes_app r dims1 dims2 :
  valid_axes r (dims1 ++ dims2) →
  valid_axes r dims1 ∧ valid_axes r dims2
  ∧ ∀ j, j ∈ axis_of r <$> dims1 → j ∉ axis_of r <$> dims2.
Proof.
  intros (Hr & Hrange & Hnd). rewrite fmap_app in Hnd.
  apply Forall_app in Hrange as [H1 H2]. apply NoDup_app in Hnd as (N1 & Hdis & N2).
  by split_and!.
Qed.

(** X10: flips compose by the union of their axes. When [dims1 ++ dims2]
    is a valid axis list, flipping on [dims1] and then the result on
    [dims2] returns a tensor of the same shape and elements as one flip
    on [dims1 ++ dims2]: for [flip_old_cpu] always, for [flip] when
    neither list is empty. *)
Theorem flip_composes h X dims1 dims2 :
  tensor_wf h X → flip_supported (dtype X) = true →
  valid_axes (dim X) (dims1 ++ dims2) →
  (∃ r1 h1 r2 h2 r3 h3, flip_old_cpu X dims1 h = (Ok r1, h1)
     ∧ flip_old_cpu r1 dims2 h1 = (Ok r2, h2)
     ∧ flip_old_cpu X (dims1 ++ dims2) h = (Ok r3, h3)
     ∧ sizes r2 = sizes r3 ∧ to_list h2 r2 = to_list h3 r3)
  ∧ (dims1 ≠ [] → dims2 ≠ [] →
     ∃ r1 h1 r2 h2 r3 h3, flip X dims1 h = (Ok r1, h1)
       ∧ flip r1 dims2 h1 = (Ok r2, h2)
       ∧ flip X (dims1 ++ dims2) h = (Ok r3, h3)
       ∧ sizes r2 = sizes r3 ∧ to_list h2 r2 = to_list h3 r3).
Proof.
  intros Hwf Hdt Hv.
  destruct (valid_axes_app _ _ _ Hv) as (Hv1 & Hv2 & Hdis).
  apply dim_list_to_bitset_ok_iff in Hv as [b Hb].
  apply dim_list_to_bitset_ok_iff in Hv1 as [b1 Hb1].
  apply dim_list_to_bitset_ok_iff in Hv2 as [b2 Hb2].
  assert (∀ r1 h1 r2 h2 r3 h3,
    flip_post h X b1 r1 h1 → flip_post h1 r1 b2 r2 h2 → flip_post h X b r3 h3 →
    sizes r2 = sizes r3 ∧ to_list h2 r2 = to_list h3 r3) as Hsame.
  { intros r1 h1 r2 h2 r3 h3 Hp1 Hp2 Hp3.
    pose proof (flip_post_wf _ _ _ _ _ Hwf Hp1) as Hwf1.
    pose proof (flip_post_dim _ _ _ _ _ Hp1) as Hdim1.
    destruct (flip_post_elements h X dims1 b1 r1 h1 Hwf Hb1 Hp1) as (Hs1 & _ & _ & He1 & _).
    destruct (flip_post_elements h1 r1 dims2 b2 r2 h2 Hwf1) as (Hs2 & _ & _ & He2 & _);
      [by rewrite Hdim1|done|].
    destruct (flip_post_elements h X _ b r3 h3 Hwf Hb Hp3) as (Hs3 & _ & _ & He3 & _).
    assert (sizes r2 = sizes r3) as Hs by congruence.
    split; [done|]. apply to_list_pointwise; [done|]. intros idx Hin.
    rewrite Hs2, Hs1 in Hin. rewrite He2 by (by rewrite Hs1).
    rewrite Hs1, Hdim1, He1 by (by apply mirror_axes_valid).
    rewrite He3 by done. f_equal. rewrite fmap_app.
    apply mirror_axes_compose; [by apply indices_length|done]. }
  split.
  - destruct (flip_old_cpu_spec h X dims1 b1 Hwf Hdt Hb1) as (r1 & h1 & Hrun1 & Hp1).
    destruct (flip_old_cpu_spec h1 r1 dims2 b2) as (r2 & h2 & Hrun2 & Hp2).
    { by eapply flip_post_wf. }
    { by rewrite (fp_dtype _ _ _ _ _ Hp1). }
    { by rewrite (flip_post_dim _ _ _ _ _ Hp1). }
    destruct (flip_old_cpu_spec h X _ b Hwf Hdt Hb) as (r3 & h3 & Hrun3 & Hp3).
    exists r1, h1, r2, h2, r3, h3. split; [done|]. split; [done|]. split; [done|].
    by eapply Hsame.
  - intros Hne1 Hne2.
    destruct (flip_cpu_spec h X dims1 b1 Hwf Hdt Hb1) as (r1 & h1 & Hrun1 & Hp1).
    { left. by apply (flip_dims_of_nonempty dims1). }
    destruct (flip_cpu_spec h1 r1 dims2 b2) as (r2 & h2 & Hrun2 & Hp2).
    { by eapply flip_post_wf. }
    { by rewrite (fp_dtype _ _ _ _ _ Hp1). }
    { by rewrite (flip_post_dim _ _ _ _ _ Hp1). }
    { left. rewrite (flip_post_dim _ _ _ _ _ Hp1). by apply (flip_dims_of_nonempty dims2). }
    destruct (flip_cpu_spec h X _ b Hwf Hdt Hb) as (r3 & h3 & Hrun3 & Hp3).
    { left. apply (flip_dims_of_nonempty (dims1 ++ dims2)); [|done]. by destruct dims1. }
    exists r1, h1, r2, h2, r3, h3. split; [done|]. split; [done|]. split; [done|].
    by eapply Hsame.
Qed.

Lemma flip_composes_witness :
  tensor_wf sample_2x3.2 sample_2x3.1
  ∧ flip_supported (dtype sample_2x3.1) = true
  ∧ valid_axes (dim sample_2x3.1) ([0] ++ [1])
  ∧ ∃ r1 h1 r2 h2 r3 h3, flip sample_2x3.1 [0] sample_2x3.2 = (Ok r1, h1)
      ∧ flip r1 [1] h1 = (Ok r2, h2)
      ∧ flip sample_2x3.1 ([0] ++ [1]) sample_2x3.2 = (Ok r3, h3)
      ∧ sizes r2 = sizes r3 ∧ to_list h2 r2 = to_list h3 r3.
Proof.
  assert (tensor_wf sample_2x3.2 sample_2x3.1) as Hwf
    by (apply tensor_wf_check_true; vm_compute; reflexivity).
  assert (valid_axes (dim sample_2x3.1) ([0] ++ [1])) as Hv
    by (apply (bool_decide_unpack _); vm_compute; exact I).
  split; [exact Hwf|]. split; [reflexivity|]. split; [exact Hv|].
  refine (proj2 (flip_composes sample_2x3.2 sample_2x3.1 [0] [1] Hwf eq_refl Hv) _ _);
    discriminate.
Defined.

(** ** Flipping every axis *)

Lemma reverse_bind {A B} (f : A → list B) (l : list A) :
  reverse (l ≫= f) = reverse l ≫= (reverse ∘ f).
Proof.
  induction l as [|x l IH]; [done|].
  rewrite bind_cons, reverse_app, reverse_cons, bind_app, bind_singleton, IH. done.
Qed.

Lemma reverse_seqZ n : reverse (seqZ 0 n) = (λ c, n - 1 - c) <$> seqZ 0 n.
Proof.
  apply (list_eq_same_length _ _ (Z.to_nat n)).
  { by rewrite length_fmap, length_seqZ. }
  { by rewrite length_reverse, length_seqZ. }
  intros i x y Hi Hx Hy.
  rewrite reverse_lookup in Hx by (rewrite length_seqZ; lia).
  rewrite length_seqZ in Hx. apply lookup_seqZ in Hx as [-> _].
  rewrite list_lookup_fmap, lookup_seqZ_lt in Hy by lia. simpl in Hy. simplify_eq. lia.
Qed.

Lemma mapM_reverse {A B} (f : A → option B) (l : list A) :
  mapM f (reverse l) = reverse <$> mapM f l.
Proof.
  destruct (mapM f l) as [k|] eqn:E; simpl.
  - apply mapM_Some, Forall2_reverse. by apply mapM_Some.
  - apply mapM_None, Exists_exists. apply mapM_None, Exists_exists in E as (x & Hx & Hn).
    exists x. split; [by apply elem_of_reverse|done].
Qed.

(** With every axis of the shape in the bitset, the source coordinates run
    through the shape backwards. *)
Lemma reverse_indices b shape :
  ∀ d, (∀ j, d ≤ j < d + Z.of_nat (length shape) → Z.testbit b j = true) →
  flip_coords b d shape <$> indices shape = reverse (indices shape).
Proof.
  induction shape as [|n rest IH]; intros d Hb; [done|].
  rewrite indices_cons, reverse_bind, reverse_seqZ, list_fmap_bind, list_fmap_of_bind.
  apply list_bind_ext; [|done]. intros c. cbn [compose].
  rewrite <-fmap_reverse, <-(IH (d + 1)).
  2:{ intros j Hj. apply Hb. simpl. lia. }
  rewrite <-!list_fmap_compose. apply list_fmap_ext. intros i idx _. cbn [compose].
  cbn [flip_coords]. rewrite Hb by (simpl; lia). done.
Qed.

(** X11: flipping every axis reverses the row-major sequence of the
    elements: when the axis list names all axes of the tensor, the elements
    of the result of [flip_old_cpu], and of [flip] given an axis, read in
    row-major order are those of the input read backwards. *)
Theorem flip_all_axes_reverses h X dims :
  tensor_wf h X → flip_supported (dtype X) = true → valid_axes (dim X) dims →
  Forall (λ j, j ∈ axis_of (dim X) <$> dims) (seqZ 0 (dim X)) →
  (∃ r h', flip_old_cpu X dims h = (Ok r, h') ∧ sizes r = sizes X
     ∧ to_list h' r = reverse <$> to_list h X)
  ∧ (dims ≠ [] ∨ numel X = 0 →
     ∃ r h', flip X dims h = (Ok r, h') ∧ sizes r = sizes X
       ∧ to_list h' r = reverse <$> to_list h X).
Proof.
  intros Hwf Hdt Hv Hall. apply dim_list_to_bitset_ok_iff in Hv as [b Hb].
  assert (∀ r h', flip_post h X b r h' →
            sizes r = sizes X ∧ to_list h' r = reverse <$> to_list h X) as Hrev.
  { intros r h' Hp. split; [apply Hp|].
    unfold to_list. rewrite (fp_sizes _ _ _ _ _ Hp), <-mapM_reverse.
    rewrite <-(reverse_indices b (sizes X) 0), mapM_fmap_compose.
    - apply Forall_mapM_ext, Forall_forall. intros idx Hin. by apply (fp_elem _ _ _ _ _ Hp).
    - intros j Hj. apply (dim_list_to_bitset_axes _ _ _ j Hb).
      rewrite Forall_forall in Hall. apply Hall. apply elem_of_seqZ. unfold dim. lia. }
  split.
  - destruct (flip_old_cpu_spec h X dims b Hwf Hdt Hb) as (r & h' & Hrun & Hp).
    exists r, h'. split; [done|]. by apply Hrev.
  - intros Hcase.
    destruct (flip_cpu_spec h X dims b Hwf Hdt Hb) as (r & h' & Hrun & Hp).
    { destruct Hcase; [left|by right]. by apply (flip_dims_of_nonempty dims). }
    exists r, h'. split; [done|]. by apply Hrev.
Qed.

Lemma flip_all_axes_reverses_witness :
  tensor_wf sample_2x3.2 sample_2x3.1
  ∧ flip_supported (dtype sample_2x3.1) = true
  ∧ valid_axes (dim sample_2x3.1) [1; 0]
  ∧ Forall (λ j, j ∈ axis_of (dim sample_2x3.1) <$> [1; 0]) (seqZ 0 (dim sample_2x3.1))
  ∧ ∃ r h', flip_old_cpu sample_2x3.1 [1; 0] sample_2x3.2 = (Ok r, h')
      ∧ sizes r = sizes sample_2x3.1
      ∧ to_list h' r = reverse <$> to_list sample_2x3.2 sample_2x3.1.
Proof.
  assert (tensor_wf sample_2x3.2 sample_2x3.1) as Hwf
    by (apply tensor_wf_check_true; vm_compute; reflexivity).
  assert (valid_axes (dim sample_2x3.1) [1; 0]) as Hv
    by (apply (bool_decide_unpack _); vm_compute; exact I).
  assert (Forall (λ j, j ∈ axis_of (dim sample_2x3.1) <$> [1; 0])
            (seqZ 0 (dim sample_2x3.1))) as Hall
    by (apply (bool_decide_unpack _); vm_compute; exact I).
  split; [exact Hwf|]. split; [reflexivity|]. split; [exact Hv|]. split; [exact Hall|].
  exact (proj1 (flip_all_axes_reverses sample_2x3.2 sample_2x3.1 [1; 0]
                  Hwf eq_refl Hv Hall)).
Defined.

(** ** The lookup tables of the gather flip *)

Lemma to_list_dense h t w data :
  Forall (λ n, 0 ≤ n) (sizes t) →
  strides t = stride_contiguous (sizes t) → storage_offset t = 0 →
  h !! storage t = Some (Buffer w (Some <$> data)) →
  length data = Z.to_nat (numel t) →
  to_list h t = Some data.
Proof.
  intros Hsz Hst Hoff Hbuf Hlen. apply mapM_Some, Forall2_same_length_lookup. split.
  - by rewrite length_indices.
  - intros i idx y Hidx Hy.
    rewrite (elem_contiguous h t w data idx) by (done || by eapply list_elem_of_lookup_2).
    by rewrite (lookup_indices_offset _ _ _ Hsz Hidx), Nat2Z.id.
Qed.

(** X12: [build_indices_loop] returns one lookup table per flip axis and
    changes no buffer that existed. The table of axis [d] is a tensor of
    64-bit integers whose shape is 1 on every axis but [d], where it is the
    size [n] of the input on [d], and whose entry [i] is the distance in
    bytes from position 0 to the mirrored position [n - i - 1] along [d]:
    [(n - i - 1) * stride(d) * element_size]. *)
Theorem build_indices_loop_tables h X fd :
  tensor_wf h X → Forall (λ d, 0 ≤ d < dim X) fd →
  ∃ idxs h1, build_indices_loop X fd h = (Ok idxs, h1) ∧ h ⊆ h1
    ∧ Forall2 (λ d t,
        dtype t = kLong
        ∧ sizes t = <[Z.to_nat d := vget (sizes X) d]> (replicate (Z.to_nat (dim X)) 1)
        ∧ to_list h1 t =
            Some ((λ i, (vget (sizes X) d - i - 1) * vget (strides X) d
                        * element_size (dtype X)) <$> seqZ 0 (vget (sizes X) d)))
        fd idxs.
Proof.
  intros Hwf Hfd.
  destruct (build_indices_loop_spec X fd h Hwf Hfd) as (idxs & h1 & Hrun & Hsub & Hidx).
  exists idxs, h1. split; [done|]. split; [done|].
  apply Forall2_same_length_lookup. split; [by eapply Forall2_length|].
  intros k d t Hd Ht. pose proof (Forall2_lookup_lr _ _ _ _ _ _ Hidx Hd Ht) as Hok.
  rewrite Forall_forall in Hfd. pose proof (Hfd d (list_elem_of_lookup_2 _ _ _ Hd)) as Hdr.
  assert (0 ≤ vget (sizes X) d) as Hn.
  { pose proof (wf_sizes _ _ Hwf) as Hsz. rewrite Forall_forall in Hsz. apply Hsz.
    apply (list_elem_of_lookup_2 _ (Z.to_nat d)), lookup_vget. unfold dim in Hdr. lia. }
  split; [apply Hok|]. split; [apply Hok|].
  eapply to_list_dense.
  - rewrite (ix_sizes _ _ _ _ Hok). unfold index_shape.
    apply Forall_insert; [|done]. apply Forall_replicate. lia.
  - apply Hok.
  - apply Hok.
  - rewrite (ix_cells _ _ _ _ Hok), list_fmap_compose. done.
  - rewrite length_fmap, length_seqZ. unfold numel.
    by rewrite (ix_sizes _ _ _ _ Hok), numel_of_index_shape.
Qed.

Lemma build_indices_loop_tables_witness :
  tensor_wf sample_2x3.2 sample_2x3.1
  ∧ Forall (λ d, 0 ≤ d < dim sample_2x3.1) [1]
  ∧ ∃ idxs h1, build_indices_loop sample_2x3.1 [1] sample_2x3.2 = (Ok idxs, h1)
      ∧ sample_2x3.2 ⊆ h1.
Proof.
  assert (tensor_wf sample_2x3.2 sample_2x3.1) as Hwf
    by (apply tensor_wf_check_true; vm_compute; reflexivity).
  assert (Forall (λ d, 0 ≤ d < dim sample_2x3.1) [1]) as Hfd
    by (apply (bool_decide_unpack _); vm_compute; exact I).
  split; [exact Hwf|]. split; [exact Hfd|].
  destruct (build_indices_loop_tables sample_2x3.2 sample_2x3.1 [1] Hwf Hfd)
    as (idxs & h1 & Hrun & Hsub & _).
  exists idxs, h1. split; [exact Hrun|exact Hsub].
Defined.

(** ** fliplr and flipud *)

Lemma mirror_axes_ext A B shape idx :
  (∀ j, j ∈ A ↔ j ∈ B) → mirror_axes A shape idx = mirror_axes B shape idx.
Proof.
  intros Hab. unfold mirror_axes. apply imap_ext. intros j c _. simpl.
  destruct (decide (Z.of_nat j ∈ A)) as [Ha|Ha], (decide (Z.of_nat j ∈ B)) as [Hb|Hb];
    try done.
  - by apply Hab in Ha.
  - by apply Hab in Hb.
Qed.

Lemma mirror_axes_twice A shape idx :
  idx ∈ indices shape → mirror_axes A shape (mirror_axes A shape idx) = idx.
Proof.
  intros Hin. pose proof (indices_length _ _ Hin) as Hlen.
  apply (list_eq_same_length _ _ (length shape)); [done|by rewrite !length_mirror_axes|].
  intros j x y Hj Hx Hy.
  destruct (lookup_lt_is_Some_2 shape j Hj) as [n Hn].
  destruct (lookup_lt_is_Some_2 idx j) as [c Hc]; [lia|].
  rewrite (mirror_axes_lookup _ _ _ _ n _ Hn (mirror_axes_lookup _ _ _ _ _ _ Hn Hc)) in Hx.
  simplify_eq. case_decide; lia.
Qed.

Lemma valid_axes_single r d : r ≤ 64 → - r ≤ d < r → valid_axes r [d].
Proof.
  intros Hr Hd. split; [done|]. split; [by constructor|]. apply NoDup_singleton.
Qed.

Lemma fliplr_run X h : 2 ≤ dim X → fliplr X h = flip X [1] h.
Proof.
  intros Hr. unfold fliplr. by rewrite bind_lift, bool_decide_eq_true_2 by done.
Qed.

Lemma flipud_run X h : 1 ≤ dim X → flipud X h = flip X [0] h.
Proof.
  intros Hr. unfold flipud. by rewrite bind_lift, bool_decide_eq_true_2 by done.
Qed.

(** One flip on a non-empty valid axis list: the call, the shape and the
    elements of the result. *)
Lemma flip_run h X dims :
  tensor_wf h X → flip_supported (dtype X) = true → valid_axes (dim X) dims → dims ≠ [] →
  ∃ r h', flip X dims h = (Ok r, h') ∧ sizes r = sizes X ∧ dtype r = dtype X
    ∧ tensor_wf h' r
    ∧ ∀ idx, idx ∈ indices (sizes X) →
        elem h' r idx = elem h X (mirror_axes (axis_of (dim X) <$> dims) (sizes X) idx).
Proof.
  intros Hwf Hdt Hv Hne. apply dim_list_to_bitset_ok_iff in Hv as [b Hb].
  destruct (flip_cpu_spec h X dims b Hwf Hdt Hb) as (r & h' & Hrun & Hp).
  { left. by apply (flip_dims_of_nonempty dims). }
  destruct (flip_post_elements h X dims b r h' Hwf Hb Hp) as (Hs & Hd & Hwfr & He & _).
  by exists r, h'.
Qed.

(** X13: [fliplr] refuses a tensor of rank below two, and [flipud] one of
    rank zero, with [InvalidArgument] and the heap untouched. On a tensor
    of rank 2 to 64 [fliplr] returns the tensor of the same shape whose
    element at [(i, j, ...)] is the element of the input at
    [(i, n1 - 1 - j, ...)]; on a tensor of rank 1 to 64 [flipud] returns
    the one whose element at [(i, ...)] is the element at
    [(n0 - 1 - i, ...)]. *)
Theorem fliplr_flipud_elements h X :
  tensor_wf h X → flip_supported (dtype X) = true →
  (dim X < 2 → fliplr X h = (Err InvalidArgument, h))
  ∧ (dim X < 1 → flipud X h = (Err InvalidArgument, h))
  ∧ (2 ≤ dim X ≤ 64 →
     ∃ r h', fliplr X h = (Ok r, h') ∧ sizes r = sizes X ∧ tensor_wf h' r
       ∧ ∀ idx, idx ∈ indices (sizes X) →
           elem h' r idx = elem h X (mirror_axes [1] (sizes X) idx))
  ∧ (1 ≤ dim X ≤ 64 →
     ∃ r h', flipud X h = (Ok r, h') ∧ sizes r = sizes X ∧ tensor_wf h' r
       ∧ ∀ idx, idx ∈ indices (sizes X) →
           elem h' r idx = elem h X (mirror_axes [0] (sizes X) idx)).
Proof.
  intros Hwf Hdt. split_and!.
  - intros Hr. unfold fliplr. by rewrite bind_lift, bool_decide_eq_false_2 by lia.
  - intros Hr. unfold flipud. by rewrite bind_lift, bool_decide_eq_false_2 by lia.
  - intros Hr. rewrite fliplr_run by lia.
    destruct (flip_run h X [1] Hwf Hdt) as (r & h' & Hrun & Hs & _ & Hwfr & He);
      [apply valid_axes_single; lia|done|].
    by exists r, h'.
  - intros Hr. rewrite flipud_run by lia.
    destruct (flip_run h X [0] Hwf Hdt) as (r & h' & Hrun & Hs & _ & Hwfr & He);
      [apply valid_axes_single; lia|done|].
    by exists r, h'.
Qed.

Lemma fliplr_flipud_elements_witness :
  tensor_wf sample_2x3.2 sample_2x3.1
  ∧ flip_supported (dtype sample_2x3.1) = true
  ∧ 2 ≤ dim sample_2x3.1 ≤ 64
  ∧ ∃ r h', fliplr sample_2x3.1 sample_2x3.2 = (Ok r, h')
      ∧ sizes r = sizes sample_2x3.1.
Proof.
  assert (tensor_wf sample_2x3.2 sample_2x3.1) as Hwf
    by (apply tensor_wf_check_true; vm_compute; reflexivity).
  assert (2 ≤ dim sample_2x3.1 ≤ 64) as Hr by (unfold dim; simpl; lia).
  split; [exact Hwf|]. split; [reflexivity|]. split; [exact Hr|].
  destruct (fliplr_flipud_elements sample_2x3.2 sample_2x3.1 Hwf eq_refl)
    as (_ & _ & Hlr & _).
  destruct (Hlr Hr) as (r & h' & Hrun & Hs & _).
  exists r, h'. split; [exact Hrun|exact Hs].
Defined.

Lemma single_disjoint (a c : Z) : a ≠ c → ∀ j, j ∈ [a] → j ∉ [c].
Proof. intros Hne j ->%list_elem_of_singleton ?%list_elem_of_singleton. done. Qed.

Lemma pair_swap_elem (a c j : Z) : j ∈ [a] ++ [c] ↔ j ∈ [c] ++ [a].
Proof. rewrite !elem_of_app. tauto. Qed.

(** Two flips in a row, each on one axis counted from the front. *)
Lemma flip_axis_twice h X (a c : Z) :
  tensor_wf h X → flip_supported (dtype X) = true → dim X ≤ 64 →
  0 ≤ a < dim X → 0 ≤ c < dim X →
  ∃ r1 h1 r2 h2, flip X [a] h = (Ok r1, h1) ∧ flip r1 [c] h1 = (Ok r2, h2)
    ∧ sizes r2 = sizes X ∧ tensor_wf h2 r2
    ∧ ∀ idx, idx ∈ indices (sizes X) →
        elem h2 r2 idx = elem h X (mirror_axes [a] (sizes X) (mirror_axes [c] (sizes X) idx)).
Proof.
  intros Hwf Hdt Hr Ha Hc.
  destruct (flip_run h X [a] Hwf Hdt) as (r1 & h1 & Hrun1 & Hs1 & Hd1 & Hwf1 & He1);
    [apply valid_axes_single; lia|done|].
  assert (dim r1 = dim X) as Hdim by (unfold dim; by rewrite Hs1).
  destruct (flip_run h1 r1 [c] Hwf1) as (r2 & h2 & Hrun2 & Hs2 & Hd2 & Hwf2 & He2);
    [by rewrite Hd1|apply valid_axes_single; lia|done|].
  exists r1, h1, r2, h2. split; [done|]. split; [done|]. split; [congruence|].
  split; [done|]. intros idx Hin.
  rewrite He2 by (by rewrite Hs1). rewrite Hs1, Hdim.
  rewrite He1 by (by apply mirror_axes_valid).
  cbn [fmap list_fmap]. unfold axis_of. by rewrite !decide_False by lia.
Qed.

(** X14: [fliplr] and [flipud] are involutions and commute. On a
    well-formed tensor of rank 2 to 64, [fliplr] twice, and [flipud] twice,
    give back the shape and the elements of the input, and [fliplr] after
    [flipud] gives the shape and the elements of [flipud] after [fliplr],
    which are those of [flip] with [dims = [0, 1]]. *)
Theorem fliplr_flipud_compose h X :
  tensor_wf h X → flip_supported (dtype X) = true → 2 ≤ dim X ≤ 64 →
  (∃ r1 h1 r2 h2, fliplr X h = (Ok r1, h1) ∧ fliplr r1 h1 = (Ok r2, h2)
     ∧ sizes r2 = sizes X ∧ to_list h2 r2 = to_list h X)
  ∧ (∃ r1 h1 r2 h2, flipud X h = (Ok r1, h1) ∧ flipud r1 h1 = (Ok r2, h2)
     ∧ sizes r2 = sizes X ∧ to_list h2 r2 = to_list h X)
  ∧ (∃ r1 h1 r2 h2 r3 h3 r4 h4 r5 h5,
       flipud X h = (Ok r1, h1) ∧ fliplr r1 h1 = (Ok r2, h2)
       ∧ fliplr X h = (Ok r3, h3) ∧ flipud r3 h3 = (Ok r4, h4)
       ∧ flip X [0; 1] h = (Ok r5, h5)
       ∧ sizes r2 = sizes r4 ∧ sizes r4 = sizes r5
       ∧ to_list h2 r2 = to_list h4 r4 ∧ to_list h4 r4 = to_list h5 r5).
Proof.
  intros Hwf Hdt Hr.
  destruct (flip_axis_twice h X 1 1 Hwf Hdt) as (a1 & g1 & a2 & g2 & A1 & A2 & As & _ & Ae);
    [lia..|].
  destruct (flip_axis_twice h X 0 0 Hwf Hdt) as (b1 & k1 & b2 & k2 & B1 & B2 & Bs & _ & Be);
    [lia..|].
  destruct (flip_axis_twice h X 0 1 Hwf Hdt) as (c1 & m1 & c2 & m2 & C1 & C2 & Cs & _ & Ce);
    [lia..|].
  destruct (flip_axis_twice h X 1 0 Hwf Hdt) as (d1 & n1 & d2 & n2 & D1 & D2 & Ds & _ & De);
    [lia..|].
  destruct (flip_run h X [0; 1] Hwf Hdt) as (e & p & E & Es & _ & _ & Ee).
  { split; [lia|]. split; [repeat constructor; lia|].
    cbn [fmap list_fmap]. unfold axis_of. rewrite !decide_False by lia.
    apply NoDup_cons. split; [|apply NoDup_singleton]. by intros ?%list_elem_of_singleton. }
  { done. }
  assert (dim a1 = dim X ∧ dim b1 = dim X ∧ dim c1 = dim X ∧ dim d1 = dim X)
    as (Ha & Hb & Hc & Hd).
  { destruct (flip_run h X [1] Hwf Hdt) as (r & h' & Hrun & Hs & _);
      [apply valid_axes_single; lia|done|].
    destruct (flip_run h X [0] Hwf Hdt) as (r' & h'' & Hrun' & Hs' & _);
      [apply valid_axes_single; lia|done|].
    assert (a1 = r ∧ d1 = r ∧ b1 = r' ∧ c1 = r') as (-> & -> & -> & ->)
      by (split_and!; congruence).
    unfold dim. by rewrite Hs, Hs'. }
  split_and!.
  - exists a1, g1, a2, g2. rewrite !fliplr_run by lia. split; [done|]. split; [done|].
    split; [done|]. apply to_list_pointwise; [done|]. intros idx Hin. rewrite As in Hin.
    by rewrite Ae, mirror_axes_twice.
  - exists b1, k1, b2, k2. rewrite !flipud_run by lia. split; [done|]. split; [done|].
    split; [done|]. apply to_list_pointwise; [done|]. intros idx Hin. rewrite Bs in Hin.
    by rewrite Be, mirror_axes_twice.
  - exists c1, m1, c2, m2, d1, n1, d2, n2, e, p.
    rewrite !fliplr_run, !flipud_run by lia.
    split; [done|]. split; [done|]. split; [done|]. split; [done|]. split; [done|].
    split; [congruence|]. split; [congruence|]. split.
    + apply to_list_pointwise; [congruence|]. intros idx Hin. rewrite Cs in Hin.
      rewrite Ce, De by done.
      rewrite !mirror_axes_compose by (by apply indices_length || by apply single_disjoint).
      f_equal. apply mirror_axes_ext. intros j. apply pair_swap_elem.
    + apply to_list_pointwise; [congruence|]. intros idx Hin. rewrite Ds in Hin.
      rewrite De, Ee by done.
      rewrite mirror_axes_compose by (by apply indices_length || by apply single_disjoint).
      f_equal. cbn [fmap list_fmap]. unfold axis_of. rewrite !decide_False by lia.
      apply mirror_axes_ext. intros j. apply pair_swap_elem.
Qed.

Lemma fliplr_flipud_compose_witness :
  tensor_wf sample_2x3.2 sample_2x3.1
  ∧ flip_supported (dtype sample_2x3.1) = true
  ∧ 2 ≤ dim sample_2x3.1 ≤ 64
  ∧ ∃ r1 h1 r2 h2, fliplr sample_2x3.1 sample_2x3.2 = (Ok r1, h1)
      ∧ fliplr r1 h1 = (Ok r2, h2)
      ∧ to_list h2 r2 = to_list sample_2x3.2 sample_2x3.1.
Proof.
  assert (tensor_wf sample_2x3.2 sample_2x3.1) as Hwf
    by (apply tensor_wf_check_true; vm_compute; reflexivity).
  assert (2 ≤ dim sample_2x3.1 ≤ 64) as Hr by (unfold dim; simpl; lia).
  split; [exact Hwf|]. split; [reflexivity|]. split; [exact Hr|].
  destruct (fliplr_flipud_compose sample_2x3.2 sample_2x3.1 Hwf eq_refl Hr)
    as ((r1 & h1 & r2 & h2 & H1 & H2 & _ & Hl) & _).
  exists r1, h1, r2, h2. split; [exact H1|]. split; [exact H2|exact Hl].
Defined.

(** ** rot90: where each element comes from *)

Lemma valid_axes_pair r d0 d1 (a c : nat) :
  r ≤ 64 → maybe_wrap_dim d0 r = Ok (Z.of_nat a) → maybe_wrap_dim d1 r = Ok (Z.of_nat c) →
  a ≠ c → valid_axes r [d0; d1] ∧ axis_of r <$> [d0; d1] = [Z.of_nat a; Z.of_nat c].
Proof.
  intros Hr Ha Hc Hne.
  pose proof (maybe_wrap_dim_ok_range _ _ _ Ha). pose proof (maybe_wrap_dim_ok_range _ _ _ Hc).
  pose proof (maybe_wrap_dim_axis_of _ _ _ Ha) as Ea.
  pose proof (maybe_wrap_dim_axis_of _ _ _ Hc) as Ec.
  cbn [fmap list_fmap]. rewrite <-Ea, <-Ec. split; [|done].
  split; [done|]. split; [by apply Forall_cons_2; [|apply Forall_singleton]|].
  cbn [fmap list_fmap]. rewrite <-Ea, <-Ec.
  apply NoDup_cons. split; [|apply NoDup_singleton].
  intros ?%list_elem_of_singleton. lia.
Qed.

(** The flip and the exchange of a quarter turn, with the storage of the
    result. *)
Lemma flip_transpose_source h X d0 d1 fl (a c f : nat) :
  tensor_wf h X → flip_supported (dtype X) = true → dim X ≤ 64 →
  maybe_wrap_dim d0 (dim X) = Ok (Z.of_nat a) →
  maybe_wrap_dim d1 (dim X) = Ok (Z.of_nat c) →
  maybe_wrap_dim fl (dim X) = Ok (Z.of_nat f) →
  ∃ r h', (t ← flip X [fl]; lift (transpose_ t d0 d1)) h = (Ok r, h') ∧ tensor_wf h' r
    ∧ sizes r = swap_at a c (sizes X) ∧ dtype r = dtype X
    ∧ (storage r ∉ dom h) ∧ h ⊆ h'
    ∧ ∀ idx, idx ∈ indices (sizes r) →
        elem h' r idx
        = elem h X (mirror_axes [Z.of_nat f] (sizes X) (swap_at a c idx)).
Proof.
  intros Hwf Hdt Hrank Ha Hc Hf.
  destruct (flip_transpose_run h X d0 d1 fl a c f Hwf Hdt Hrank Ha Hc Hf)
    as (r & h' & Hrun & Hwfr & Hs & Hd & He).
  pose proof (maybe_wrap_dim_range _ _ _ Ha) as Har.
  pose proof (maybe_wrap_dim_range _ _ _ Hc) as Hcr.
  pose proof (maybe_wrap_dim_range _ _ _ Hf) as Hfr.
  pose proof (dim_list_to_bitset_single fl (dim X) _ Hrank Hf) as Hb.
  destruct (flip_cpu_spec h X [fl] _ Hwf Hdt Hb) as (t & h1 & Hrunt & Hp).
  { left. by apply (flip_dims_of_nonempty [fl]). }
  assert (dim t = dim X) as Hdt' by (by eapply flip_post_dim).
  assert (transpose_ t d0 d1 =
            Ok (mkTensor (storage t) (storage_offset t)
                  (swap_at (Z.to_nat (Z.of_nat a)) (Z.to_nat (Z.of_nat c)) (sizes t))
                  (swap_at (Z.to_nat (Z.of_nat a)) (Z.to_nat (Z.of_nat c)) (strides t))
                  (dtype t))) as Ht
    by (apply transpose_run; by rewrite Hdt').
  unfold flip in Hrun. rewrite (bind_ok _ _ _ _ _ Hrunt) in Hrun.
  unfold lift in Hrun. rewrite Ht in Hrun. injection Hrun as <- <-.
  eexists _, h1. split.
  { unfold flip. rewrite (bind_ok _ _ _ _ _ Hrunt). unfold lift. by rewrite Ht. }
  split; [done|]. split; [done|]. split; [done|].
  split; [apply Hp|]. split; [apply Hp|].
  intros idx Hin. rewrite He by done. f_equal.
  assert (swap_at a c idx ∈ indices (sizes X)) as Hv.
  { rewrite Hs in Hin. apply swap_at_valid; [..|done]; unfold dim in *; lia. }
  apply flip_coords_mirror_axes; [|by apply indices_length].
  intros j Hj. rewrite Z.setbit_eqb, Z.testbit_0_l, orb_false_r, Z.eqb_eq by lia.
  rewrite list_elem_of_singleton. split; congruence.
Qed.

(** What [rot90] returns on arguments it accepts. *)
Lemma rot90_run_source h X k d0 d1 :
  tensor_wf h X → flip_supported (dtype X) = true → dim X ≤ 64 →
  ¬ rot90_rejects (dim X) [d0; d1] →
  ∃ (a c : nat) r h',
    maybe_wrap_dim d0 (dim X) = Ok (Z.of_nat a)
    ∧ maybe_wrap_dim d1 (dim X) = Ok (Z.of_nat c)
    ∧ rot90 X k [d0; d1] h = (Ok r, h') ∧ tensor_wf h' r
    ∧ sizes r = (if Z.odd k then swap_at a c (sizes X) else sizes X)
    ∧ dtype r = dtype X
    ∧ (storage r ∉ dom h) ∧ h ⊆ h'
    ∧ ∀ idx, idx ∈ indices (sizes r) →
        elem h' r idx = elem h X (rot90_source k a c (sizes X) idx).
Proof.
  intros Hwf Hdt Hrank Hok.
  destruct (rot90_accepts_wrap _ _ _ Hok) as (a & c & Ha & Hc & Hne & Har & Hcr).
  exists a, c. rewrite rot90_dispatch by (done || lia).
  unfold rot90_source. rewrite odd_mod_4.
  pose proof (Z.mod_pos_bound k 4 ltac:(lia)) as Hb.
  assert (k mod 4 = 0 ∨ k mod 4 = 1 ∨ k mod 4 = 2 ∨ k mod 4 = 3)
    as [-> | [-> | [-> | ->]]] by lia.
  - destruct (clone_contiguous_spec h X Hwf) as (r & h' & Hrun & Hp).
    exists r, h'. split; [done|]. split; [done|]. split; [done|].
    split; [by eapply flip_post_wf|]. split; [apply Hp|]. split; [apply Hp|].
    split; [apply Hp|]. split; [apply Hp|].
    intros idx Hin. rewrite (fp_sizes _ _ _ _ _ Hp) in Hin.
    rewrite (fp_elem _ _ _ _ _ Hp) by done.
    by rewrite flip_coords_zero by (by apply indices_length).
  - destruct (flip_transpose_source h X d0 d1 d1 a c c Hwf Hdt Hrank Ha Hc Hc)
      as (r & h' & Hrun & Hwfr & Hs & Hd & Hfr & Hsub & He).
    by exists r, h'.
  - destruct (valid_axes_pair _ _ _ _ _ Hrank Ha Hc Hne) as [Hv Hax].
    apply dim_list_to_bitset_ok_iff in Hv as [b Hbits].
    destruct (flip_cpu_spec h X [d0; d1] _ Hwf Hdt Hbits) as (r & h' & Hrun & Hp).
    { left. by apply (flip_dims_of_nonempty [d0; d1]). }
    destruct (flip_post_elements h X _ b r h' Hwf Hbits Hp) as (Hs & Hd & Hwfr & He & _).
    exists r, h'. split; [done|]. split; [done|]. split; [done|]. split; [done|].
    split; [done|]. split; [done|]. split; [apply Hp|]. split; [apply Hp|].
    intros idx Hin. rewrite Hs in Hin. rewrite He by done. by rewrite Hax.
  - destruct (flip_transpose_source h X d0 d1 d0 a c a Hwf Hdt Hrank Ha Hc Ha)
      as (r & h' & Hrun & Hwfr & Hs & Hd & Hfr & Hsub & He).
    by exists r, h'.
Qed.


(** X15: on a well-formed tensor of rank at most 64 and a pair of axes it
    accepts, [rot90] returns a well-formed tensor in storage that did not
    exist before, leaving the buffers that existed unchanged. For an even
    [k] it has the shape of the input, for an odd [k] the shape with the
    two axes exchanged, and its element at [idx] is the element of the
    input at [rot90_source]: for [k mod 4 = 1] the coordinates exchanged
    and then mirrored on the second axis, for 3 exchanged and mirrored on
    the first, for 2 mirrored on both, for 0 unchanged. On a matrix and
    [dims = [0, 1]], [k = 1] puts the element [(j, n1 - 1 - i)] of the input
    at [(i, j)]. *)
Theorem rot90_elements h X k d0 d1 :
  tensor_wf h X → flip_supported (dtype X) = true → dim X ≤ 64 →
  ¬ rot90_rejects (dim X) [d0; d1] →
  ∃ (a c : nat) r h',
    maybe_wrap_dim d0 (dim X) = Ok (Z.of_nat a)
    ∧ maybe_wrap_dim d1 (dim X) = Ok (Z.of_nat c)
    ∧ rot90 X k [d0; d1] h = (Ok r, h') ∧ tensor_wf h' r
    ∧ sizes r = (if Z.odd k then swap_at a c (sizes X) else sizes X)
    ∧ dtype r = dtype X
    ∧ (storage r ∉ dom h) ∧ h ⊆ h'
    ∧ ∀ idx, idx ∈ indices (sizes r) →
        elem h' r idx = elem h X (rot90_source k a c (sizes X) idx).
Proof. apply rot90_run_source. Qed.

Lemma rot90_elements_witness :
  tensor_wf sample_2x3.2 sample_2x3.1
  ∧ flip_supported (dtype sample_2x3.1) = true
  ∧ dim sample_2x3.1 ≤ 64
  ∧ ¬ rot90_rejects (dim sample_2x3.1) [0; 1]
  ∧ ∃ r h', rot90 sample_2x3.1 1 [0; 1] sample_2x3.2 = (Ok r, h')
      ∧ tensor_wf h' r.
Proof.
  assert (tensor_wf sample_2x3.2 sample_2x3.1) as Hwf
    by (apply tensor_wf_check_true; vm_compute; reflexivity).
  assert (dim sample_2x3.1 ≤ 64) as Hr by (unfold dim; simpl; lia).
  assert (¬ rot90_rejects (dim sample_2x3.1) [0; 1]) as Hok
    by (unfold rot90_rejects, dim; simpl; lia).
  split; [exact Hwf|]. split; [reflexivity|]. split; [exact Hr|]. split; [exact Hok|].
  destruct (rot90_elements sample_2x3.2 sample_2x3.1 1 0 1 Hwf eq_refl Hr Hok)
    as (a & c & r & h' & _ & _ & Hrun & Hwfr & _).
  exists r, h'. split; [exact Hrun|exact Hwfr].
Defined.

(** ** rot90: turns one after another *)

(** Mirroring one of two axes commutes with exchanging them, the mirrored
    axis moving along. *)
Lemma swap_mirror (a c f f' : nat) shape idx :
  a ≠ c → (a < length shape)%nat → (c < length shape)%nat → length idx = length shape →
  (f = a ∧ f' = c) ∨ (f = c ∧ f' = a) →
  swap_at a c (mirror_axes [Z.of_nat f] (swap_at a c shape) idx)
  = mirror_axes [Z.of_nat f'] shape (swap_at a c idx).
Proof.
  intros Hne Ha Hc Hlen Hf.
  apply (list_eq_same_length _ _ (length shape)).
  { by rewrite length_mirror_axes, length_swap_at. }
  { by rewrite length_swap_at, length_mirror_axes. }
  intros k x y Hk Hx Hy.
  set (k' := if decide (k = a) then c else if decide (k = c) then a else k).
  assert ((k' < length shape)%nat) as Hk' by (unfold k'; repeat case_decide; lia).
  destruct (lookup_lt_is_Some_2 shape k Hk) as [n Hn].
  destruct (lookup_lt_is_Some_2 idx k') as [e He]; [lia|].
  rewrite swap_at_lookup in Hx by (by rewrite length_mirror_axes, ?length_swap_at; lia).
  fold k' in Hx.
  rewrite (mirror_axes_lookup _ _ _ k' n e) in Hx; [|rewrite swap_at_lookup by done|done].
  2:{ unfold k'. repeat case_decide; by simplify_eq. }
  rewrite (mirror_axes_lookup _ _ _ k n e Hn) in Hy.
  2:{ rewrite swap_at_lookup by lia. done. }
  simplify_eq. unfold k'.
  destruct Hf as [[-> ->]|[-> ->]];
    repeat (case_decide; simplify_eq/=); try done;
    repeat match goal with H : _ ∈ [_] |- _ => apply list_elem_of_singleton in H end;
    repeat match goal with H : _ ∉ [_] |- _ =>
      rewrite list_elem_of_singleton in H end; try lia.
Qed.

Lemma rot90_source_valid k (a c : nat) shape idx :
  (a < length shape)%nat → (c < length shape)%nat →
  idx ∈ indices (if Z.odd k then swap_at a c shape else shape) →
  rot90_source k a c shape idx ∈ indices shape.
Proof.
  intros Ha Hc. unfold rot90_source. rewrite odd_mod_4.
  pose proof (Z.mod_pos_bound k 4 ltac:(lia)) as Hb.
  assert (k mod 4 = 0 ∨ k mod 4 = 1 ∨ k mod 4 = 2 ∨ k mod 4 = 3)
    as [-> | [-> | [-> | ->]]] by lia; cbn [Z.odd]; intros Hin.
  - done.
  - by apply mirror_axes_valid, swap_at_valid.
  - by apply mirror_axes_valid.
  - by apply mirror_axes_valid, swap_at_valid.
Qed.

(** X16: a quarter turn one way and then the other gives back the input:
    [rot90] with [k = 3] applied to the result of [rot90] with [k = 1], and
    [k = 1] applied to the result of [k = 3], on the same axes, return a
    tensor of the shape of the input that holds the same elements. *)
Theorem rot90_quarter_inverse h X d0 d1 :
  tensor_wf h X → flip_supported (dtype X) = true → dim X ≤ 64 →
  ¬ rot90_rejects (dim X) [d0; d1] →
  (∃ r1 h1 r2 h2, rot90 X 1 [d0; d1] h = (Ok r1, h1)
     ∧ rot90 r1 3 [d0; d1] h1 = (Ok r2, h2)
     ∧ sizes r2 = sizes X ∧ to_list h2 r2 = to_list h X)
  ∧ (∃ r1 h1 r2 h2, rot90 X 3 [d0; d1] h = (Ok r1, h1)
       ∧ rot90 r1 1 [d0; d1] h1 = (Ok r2, h2)
       ∧ sizes r2 = sizes X ∧ to_list h2 r2 = to_list h X).
Proof.
  intros Hwf Hdt Hrank Hok.
  destruct (rot90_accepts_wrap _ _ _ Hok) as (a & c & Ha & Hc & Hne & Har & Hcr).
  assert ((a < length (sizes X))%nat ∧ (c < length (sizes X))%nat) as [Hal Hcl]
    by (unfold dim in *; lia).
  assert (∀ k1 k2 f f', k1 mod 4 = 1 ∧ k2 mod 4 = 3 ∧ f = c ∧ f' = a
                        ∨ k1 mod 4 = 3 ∧ k2 mod 4 = 1 ∧ f = a ∧ f' = c →
    ∃ r1 h1 r2 h2, rot90 X k1 [d0; d1] h = (Ok r1, h1)
      ∧ rot90 r1 k2 [d0; d1] h1 = (Ok r2, h2)
      ∧ sizes r2 = sizes X ∧ to_list h2 r2 = to_list h X) as Hgen.
  { intros k1 k2 f f' Hk.
    assert (Z.odd k1 = true ∧ Z.odd k2 = true) as [Ho1 Ho2].
    { rewrite (odd_mod_4 k1), (odd_mod_4 k2). by destruct Hk as [(-> & -> & _)|(-> & -> & _)]. }
    destruct (rot90_run_source h X k1 d0 d1 Hwf Hdt Hrank Hok)
      as (a1 & c1 & r1 & h1 & Ha1 & Hc1 & Hrun1 & Hwf1 & Hs1 & Hd1 & _ & Hsub1 & He1).
    assert (a1 = a ∧ c1 = c) as [-> ->] by (split; apply Nat2Z.inj; congruence).
    rewrite Ho1 in Hs1.
    assert (dim r1 = dim X) as Hdim1 by (unfold dim; by rewrite Hs1, length_swap_at).
    destruct (rot90_run_source h1 r1 k2 d0 d1 Hwf1)
      as (a2 & c2 & r2 & h2 & Ha2 & Hc2 & Hrun2 & Hwf2 & Hs2 & _ & _ & Hsub2 & He2).
    { by rewrite Hd1. }
    { by rewrite Hdim1. }
    { by rewrite Hdim1. }
    rewrite Hdim1 in Ha2, Hc2.
    assert (a2 = a ∧ c2 = c) as [-> ->] by (split; apply Nat2Z.inj; congruence).
    rewrite Ho2, Hs1, swap_at_involutive in Hs2 by done.
    exists r1, h1, r2, h2. split; [done|]. split; [done|]. split; [done|].
    apply to_list_pointwise; [done|]. intros idx Hin.
    pose proof Hin as Hin'. rewrite Hs2 in Hin'.
    pose proof (indices_length _ _ Hin') as Hlen.
    rewrite He2 by done. rewrite Hs1.
    assert (rot90_source k2 a c (swap_at a c (sizes X)) idx
              ∈ indices (swap_at a c (sizes X))) as Hv.
    { apply rot90_source_valid; rewrite ?length_swap_at; try done.
      by rewrite Ho2, swap_at_involutive. }
    rewrite He1 by (by rewrite Hs1). f_equal.
    unfold rot90_source.
    destruct Hk as [(-> & -> & -> & ->)|(-> & -> & -> & ->)].
    - rewrite (swap_mirror a c a c) by first [done | by left | by rewrite length_swap_at].
      rewrite swap_at_involutive by lia. by apply mirror_axes_twice.
    - rewrite (swap_mirror a c c a) by first [done | by right | by rewrite length_swap_at].
      rewrite swap_at_involutive by lia. by apply mirror_axes_twice. }
  split.
  - apply (Hgen 1 3 c a). by left.
  - apply (Hgen 3 1 a c). by right.
Qed.

Lemma rot90_quarter_inverse_witness :
  tensor_wf sample_2x3.2 sample_2x3.1
  ∧ flip_supported (dtype sample_2x3.1) = true
  ∧ dim sample_2x3.1 ≤ 64
  ∧ ¬ rot90_rejects (dim sample_2x3.1) [0; 1]
  ∧ ∃ r1 h1 r2 h2, rot90 sample_2x3.1 1 [0; 1] sample_2x3.2 = (Ok r1, h1)
      ∧ rot90 r1 3 [0; 1] h1 = (Ok r2, h2)
      ∧ sizes r2 = sizes sample_2x3.1
      ∧ to_list h2 r2 = to_list sample_2x3.2 sample_2x3.1.
Proof.
  assert (tensor_wf sample_2x3.2 sample_2x3.1) as Hwf
    by (apply tensor_wf_check_true; vm_compute; reflexivity).
  assert (dim sample_2x3.1 ≤ 64) as Hr by (unfold dim; simpl; lia).
  assert (¬ rot90_rejects (dim sample_2x3.1) [0; 1]) as Hok
    by (unfold rot90_rejects, dim; simpl; lia).
  split; [exact Hwf|]. split; [reflexivity|]. split; [exact Hr|]. split; [exact Hok|].
  exact (proj1 (rot90_quarter_inverse sample_2x3.2 sample_2x3.1 0 1 Hwf eq_refl Hr Hok)).
Defined.

(** ** rot90: the order of the two axes *)

Lemma swap_at_comm {A} (i j : nat) (l : list A) : swap_at i j l = swap_at j i l.
Proof.
  unfold swap_at. destruct (l !! i) as [x|] eqn:Ei, (l !! j) as [y|] eqn:Ej; try done.
  destruct (decide (i = j)) as [->|Hne]; [by simplify_eq|].
  by rewrite list_insert_insert_ne.
Qed.

Lemma transpose_comm t d0 d1 : transpose_ t d1 d0 = transpose_ t d0 d1.
Proof.
  unfold transpose_.
  destruct (maybe_wrap_dim d0 (dim t)) as [a|e0] eqn:E0,
           (maybe_wrap_dim d1 (dim t)) as [c|e1] eqn:E1; simpl.
  - by rewrite (swap_at_comm (Z.to_nat c)), (swap_at_comm (Z.to_nat c) _ (strides t)).
  - done.
  - by apply maybe_wrap_dim_error in E0 as [-> _].
  - apply maybe_wrap_dim_error in E0 as [-> _]. by apply maybe_wrap_dim_error in E1 as [-> _].
Qed.

Lemma rot90_rejects_sym r d0 d1 : rot90_rejects r [d1; d0] ↔ rot90_rejects r [d0; d1].
Proof. unfold rot90_rejects. lia. Qed.

Lemma opp_mod_4 k : (- k) mod 4 = (4 - k mod 4) mod 4.
Proof.
  rewrite (Z.div_mod k 4) at 1 by lia.
  replace (- (4 * (k / 4) + k mod 4)) with ((4 - k mod 4) + (- (k / 4) - 1) * 4) by lia.
  by rewrite Z.mod_add by lia.
Qed.

(** X17: exchanging the two rotation axes reverses the direction of the
    turn: on axes it accepts, [rot90] with [k] and [dims = [d1, d0]] is the
    same call as [rot90] with [-k] and [dims = [d0, d1]], result, error and
    heap alike. *)
Theorem rot90_reversed_axes X k d0 d1 h :
  dim X < 2 ^ 62 → ¬ rot90_rejects (dim X) [d0; d1] →
  rot90 X k [d1; d0] h = rot90 X (- k) [d0; d1] h.
Proof.
  intros Hr Hok.
  rewrite (rot90_dispatch X k d1 d0) by (done || by rewrite rot90_rejects_sym).
  rewrite (rot90_dispatch X (- k) d0 d1) by done.
  rewrite opp_mod_4.
  pose proof (Z.mod_pos_bound k 4 ltac:(lia)) as Hb.
  assert (∀ fl, (t ← flip X [fl]; lift (transpose_ t d1 d0)) h
                = (t ← flip X [fl]; lift (transpose_ t d0 d1)) h) as Htr.
  { intros fl. rewrite !bind_unfold. destruct (flip X [fl] h) as [[t|e] h1]; [|done].
    unfold lift. by rewrite transpose_comm. }
  assert (k mod 4 = 0 ∨ k mod 4 = 1 ∨ k mod 4 = 2 ∨ k mod 4 = 3)
    as [-> | [-> | [-> | ->]]] by lia.
  - done.
  - change ((4 - 1) mod 4) with 3. apply Htr.
  - change ((4 - 2) mod 4) with 2.
    destruct (decide (dim X ≤ 64)) as [Hrank|Hbig].
    + destruct (rot90_accepts_wrap _ _ _ Hok) as (a & c & Ha & Hc & Hne & _).
      destruct (valid_axes_pair _ _ _ _ _ Hrank Ha Hc Hne) as [Hv Hax].
      assert (c ≠ a) as Hne' by done.
      destruct (valid_axes_pair _ _ _ _ _ Hrank Hc Ha Hne') as [Hv' Hax'].
      apply flip_axes_perm; [done|]. rewrite Hax, Hax'. apply perm_swap.
    + by rewrite !flip_rank_limit by lia.
  - change ((4 - 3) mod 4) with 1. apply Htr.
Qed.

Lemma rot90_reversed_axes_witness :
  dim sample_2x3.1 < 2 ^ 62
  ∧ ¬ rot90_rejects (dim sample_2x3.1) [0; 1]
  ∧ rot90 sample_2x3.1 1 [1; 0] sample_2x3.2 = rot90 sample_2x3.1 (- 1) [0; 1] sample_2x3.2.
Proof.
  assert (dim sample_2x3.1 < 2 ^ 62) as Hr by (vm_compute; reflexivity).
  assert (¬ rot90_rejects (dim sample_2x3.1) [0; 1]) as Hok
    by (unfold rot90_rejects, dim; simpl; lia).
  split; [exact Hr|]. split; [exact Hok|].
  exact (rot90_reversed_axes sample_2x3.1 1 0 1 sample_2x3.2 Hr Hok).
Defined.

(** ** rot90: a full turn *)

(** X18: four quarter turns are a full turn: applying [rot90] with
    [k = 1] four times on the same axes returns a tensor of the shape of
    the input that holds the same elements. *)
Theorem rot90_full_turn h X d0 d1 :
  tensor_wf h X → flip_supported (dtype X) = true → dim X ≤ 64 →
  ¬ rot90_rejects (dim X) [d0; d1] →
  ∃ r1 h1 r2 h2 r3 h3 r4 h4,
    rot90 X 1 [d0; d1] h = (Ok r1, h1) ∧ rot90 r1 1 [d0; d1] h1 = (Ok r2, h2)
    ∧ rot90 r2 1 [d0; d1] h2 = (Ok r3, h3) ∧ rot90 r3 1 [d0; d1] h3 = (Ok r4, h4)
    ∧ sizes r4 = sizes X ∧ to_list h4 r4 = to_list h X.
Proof.
  intros Hwf Hdt Hrank Hok.
  destruct (rot90_accepts_wrap _ _ _ Hok) as (a & c & Ha & Hc & Hne & Har & Hcr).
  assert ((a < length (sizes X))%nat ∧ (c < length (sizes X))%nat) as [Hal Hcl]
    by (unfold dim in *; lia).
  (* one half turn, as two quarter turns and as the flip of both axes *)
  assert (∀ g Y, tensor_wf g Y → flip_supported (dtype Y) = true → sizes Y = sizes X →
    ∃ r1 h1 r2 h2, rot90 Y 1 [d0; d1] g = (Ok r1, h1) ∧ rot90 r1 1 [d0; d1] h1 = (Ok r2, h2)
      ∧ tensor_wf h2 r2 ∧ dtype r2 = dtype Y ∧ sizes r2 = sizes X
      ∧ ∀ idx, idx ∈ indices (sizes X) →
          elem h2 r2 idx
          = elem g Y (mirror_axes [Z.of_nat a; Z.of_nat c] (sizes X) idx)) as Hhalf.
  { intros g Y HwfY HdtY HsY.
    assert (dim Y = dim X) as HdY by (unfold dim; by rewrite HsY).
    destruct (rot90_twice g Y d0 d1 HwfY HdtY) as
      (r1 & h1 & r2 & h2 & r3 & h3 & H1 & H2 & _ & H3 & Hs & Hl & _); [by rewrite HdY..|].
    destruct (rot90_run g Y 1 d0 d1 a c HwfY HdtY)
      as (r1' & h1' & H1' & Hwf1 & Hs1 & Hd1); rewrite ?HdY; [lia|by left|done..|].
    assert (r1' = r1 ∧ h1' = h1) as [-> ->] by (split; congruence).
    assert (dim r1 = dim X) as Hdim1
      by (unfold dim; cbn [Z.odd] in Hs1; by rewrite Hs1, length_swap_at, HsY).
    destruct (rot90_run h1 r1 1 d0 d1 a c Hwf1)
      as (r2' & h2' & H2' & Hwf2 & Hs2 & Hd2); rewrite ?Hdim1, ?Hd1; [done|lia|by left|done..|].
    assert (r2' = r2 ∧ h2' = h2) as [-> ->] by (split; congruence).
    cbn [Z.odd] in Hs1, Hs2. rewrite Hs1, swap_at_involutive, HsY in Hs2 by (by rewrite HsY).
    destruct (valid_axes_pair _ _ _ _ _ Hrank Ha Hc Hne) as [Hv Hax].
    apply dim_list_to_bitset_ok_iff in Hv as [b Hbits].
    destruct (flip_cpu_spec g Y [d0; d1] b HwfY HdtY) as (r3' & h3' & H3' & Hp);
      rewrite ?HdY; [done| |].
    { left. by apply (flip_dims_of_nonempty [d0; d1]). }
    assert (r3' = r3 ∧ h3' = h3) as [-> ->] by (unfold flip in H3; split; congruence).
    destruct (flip_post_elements g Y [d0; d1] b r3 h3 HwfY) as (Hs3 & _ & _ & He3 & _);
      rewrite ?HdY; [done..|].
    exists r1, h1, r2, h2. split; [done|]. split; [done|]. split; [done|].
    split; [congruence|]. split; [done|]. intros idx Hin.
    rewrite (to_list_eq_elem h2 r2 h3 r3) by (done || by rewrite Hs2).
    rewrite He3 by (by rewrite HsY). by rewrite HsY, HdY, Hax. }
  destruct (Hhalf h X Hwf Hdt eq_refl)
    as (r1 & h1 & r2 & h2 & H1 & H2 & Hwf2 & Hd2 & Hs2 & He2).
  destruct (Hhalf h2 r2 Hwf2) as (r3 & h3 & r4 & h4 & H3 & H4 & Hwf4 & Hd4 & Hs4 & He4);
    [by rewrite Hd2|done|].
  exists r1, h1, r2, h2, r3, h3, r4, h4.
  split; [done|]. split; [done|]. split; [done|]. split; [done|]. split; [done|].
  apply to_list_pointwise; [done|]. intros idx Hin. rewrite Hs4 in Hin.
  rewrite He4, He2 by (done || by apply mirror_axes_valid).
  by rewrite mirror_axes_twice.
Qed.

Lemma rot90_full_turn_witness :
  tensor_wf sample_2x3.2 sample_2x3.1
  ∧ flip_supported (dtype sample_2x3.1) = true
  ∧ dim sample_2x3.1 ≤ 64
  ∧ ¬ rot90_rejects (dim sample_2x3.1) [0; 1]
  ∧ ∃ r1 h1 r2 h2 r3 h3 r4 h4,
      rot90 sample_2x3.1 1 [0; 1] sample_2x3.2 = (Ok r1, h1)
      ∧ rot90 r1 1 [0; 1] h1 = (Ok r2, h2)
      ∧ rot90 r2 1 [0; 1] h2 = (Ok r3, h3) ∧ rot90 r3 1 [0; 1] h3 = (Ok r4, h4)
      ∧ sizes r4 = sizes sample_2x3.1
      ∧ to_list h4 r4 = to_list sample_2x3.2 sample_2x3.1.
Proof.
  assert (tensor_wf sample_2x3.2 sample_2x3.1) as Hwf
    by (apply tensor_wf_check_true; vm_compute; reflexivity).
  assert (dim sample_2x3.1 ≤ 64) as Hr by (unfold dim; simpl; lia).
  assert (¬ rot90_rejects (dim sample_2x3.1) [0; 1]) as Hok
    by (unfold rot90_rejects, dim; simpl; lia).
  split; [exact Hwf|]. split; [reflexivity|]. split; [exact Hr|]. split; [exact Hok|].
  exact (rot90_full_turn sample_2x3.2 sample_2x3.1 0 1 Hwf eq_refl Hr Hok).
Defined.

(** ** Rank promotion: atleast_1d, atleast_2d and atleast_3d *)

Lemma unfold_mret {A} (a : A) h : (mret a : M A) h = (Ok a, h).
Proof. reflexivity. Qed.

Lemma reshape_scalar t shape h :
  sizes t = [] → numel_of shape = 1 →
  reshape t shape h =
    (Ok (mkTensor (storage t) (storage_offset t) shape (stride_contiguous shape) (dtype t)), h).
Proof.
  intros Es Hn. unfold reshape. rewrite bind_lift.
  rewrite bool_decide_eq_true_2 by (unfold numel; by rewrite Es).
  cbn [TORCH_CHECK]. unfold is_contiguous.
  rewrite bool_decide_eq_true_2; [done|]. right. rewrite Es.
  destruct (strides t); constructor.
Qed.

Lemma to_list_scalar h t shape :
  sizes t = [] → Forall (λ n, n = 1) shape →
  to_list h (mkTensor (storage t) (storage_offset t) shape (stride_contiguous shape) (dtype t))
  = to_list h t.
Proof.
  intros Es Hone. unfold to_list. cbn [sizes]. rewrite Es. cbn [indices].
  assert (∃ z, indices shape = [z] ∧ offset_of (stride_contiguous shape) z = 0)
    as (z & -> & Hz).
  { clear Es. induction Hone as [|n rest -> _ (z & Ez & Hz)]; [by exists []|].
    exists (0 :: z). rewrite indices_cons. change (seqZ 0 1) with [0].
    rewrite bind_singleton, Ez. split; [done|].
    rewrite stride_contiguous_cons, offset_of_cons. lia. }
  cbn [mapM]. unfold elem. cbn [storage storage_offset strides]. rewrite Hz.
  by destruct (strides t).
Qed.

Lemma unsqueeze_back_sizes t :
  ∃ st, unsqueeze t (-1) =
    Ok (mkTensor (storage t) (storage_offset t) (sizes t ++ [1]) st (dtype t)).
Proof.
  unfold unsqueeze. rewrite maybe_wrap_dim_neg by (unfold dim; lia). simpl.
  replace (Z.to_nat (-1 + (dim t + 1))) with (length (sizes t)) by (unfold dim; lia).
  rewrite firstn_all, skipn_all. eauto.
Qed.

(** What [atleast_1d] and [atleast_2d] return, by rank. *)
Lemma atleast_1d_2d_run h t :
  (∃ r, atleast_1d t h = (Ok r, h) ∧ storage r = storage t
      ∧ to_list h r = to_list h t
      ∧ sizes r = match sizes t with [] => [1] | s => s end
      ∧ (1 ≤ dim t → r = t))
  ∧ (∃ r, atleast_2d t h = (Ok r, h) ∧ storage r = storage t
      ∧ to_list h r = to_list h t
      ∧ sizes r = match sizes t with [] => [1; 1] | [n] => [1; n] | s => s end
      ∧ (2 ≤ dim t → r = t)).
Proof.
  unfold atleast_1d, atleast_2d, dim.
  destruct (sizes t) as [|n [|m rest]] eqn:Es.
  - cbv [length Z.of_nat]. rewrite !reshape_scalar by done. split.
    + eexists. split; [done|]. split; [done|].
      split; [apply to_list_scalar; [done|by repeat constructor]|]. split; [done|lia].
    + eexists. split; [done|]. split; [done|].
      split; [apply to_list_scalar; [done|by repeat constructor]|]. split; [done|lia].
  - cbv [length Z.of_nat Pos.of_succ_nat]. split.
    + exists t. by rewrite Es.
    + unfold lift. rewrite unsqueeze_front. eexists. split; [done|]. split; [done|].
      split; [apply to_list_front|]. split; [by rewrite Es|lia].
  - assert (2 ≤ Z.of_nat (length (n :: m :: rest))) as Hr by (simpl; lia).
    destruct (Z.of_nat (length (n :: m :: rest))) as [|[q|q|]|q] eqn:E; try lia.
    + split; exists t; by rewrite Es.
    + split; exists t; by rewrite Es.
Qed.


(** X19: [atleast_1d] and [atleast_2d] never fail and leave the heap as it
    is. [atleast_1d] turns a tensor of rank zero into a view of shape [1]
    and returns any other tensor itself; [atleast_2d] turns rank zero into
    a view of shape [1, 1], a vector of size [n] into the view of shape
    [1, n], and returns any other tensor itself. The view is over the
    storage of the input and holds the same elements. *)
Theorem atleast_1d_2d_promote h t :
  (∃ r, atleast_1d t h = (Ok r, h) ∧ storage r = storage t
      ∧ to_list h r = to_list h t
      ∧ sizes r = match sizes t with [] => [1] | s => s end
      ∧ (1 ≤ dim t → r = t))
  ∧ (∃ r, atleast_2d t h = (Ok r, h) ∧ storage r = storage t
      ∧ to_list h r = to_list h t
      ∧ sizes r = match sizes t with [] => [1; 1] | [n] => [1; n] | s => s end
      ∧ (2 ≤ dim t → r = t)).
Proof.
  destruct (atleast_1d_2d_run h t) as [(r1 & H1) (r2 & H2)].
  split; [by exists r1|by exists r2].
Qed.

(** X20: the promotions compose and are idempotent. Promoting to rank
    two what [atleast_1d] returned is [atleast_2d], promoting to rank three
    what [atleast_1d] or [atleast_2d] returned is [atleast_3d], and each of
    the three applied to its own result returns that result: the same
    tensor, not only the same shape. *)
Theorem atleast_compose h t :
  (r ← atleast_1d t; atleast_2d r) h = atleast_2d t h
  ∧ (r ← atleast_2d t; atleast_3d r) h = atleast_3d t h
  ∧ (r ← atleast_1d t; atleast_3d r) h = atleast_3d t h
  ∧ (r ← atleast_1d t; atleast_1d r) h = atleast_1d t h
  ∧ (r ← atleast_2d t; atleast_2d r) h = atleast_2d t h
  ∧ (r ← atleast_3d t; atleast_3d r) h = atleast_3d t h.
Proof.
  unfold atleast_1d, atleast_2d, atleast_3d, dim.
  destruct (sizes t) as [|n [|m [|p rest]]] eqn:Es.
  - cbv [length Z.of_nat]. rewrite !bind_unfold, !reshape_scalar by done.
    cbv [sizes length Z.of_nat Pos.of_succ_nat Pos.succ].
    unfold lift. cbn. by split_and!.
  - cbv [length Z.of_nat Pos.of_succ_nat]. rewrite !bind_unfold.
    unfold lift. rewrite unfold_mret, Es, unsqueeze_front, Es.
    cbv [sizes length Z.of_nat Pos.of_succ_nat Pos.succ].
    destruct (unsqueeze_back_sizes
      (mkTensor (storage t) (storage_offset t) (1 :: [n])
         (match [n] !! 0%nat, strides t !! 0%nat with
          | Some n0, Some s => n0 * s
          | _, _ => 1
          end :: strides t) (dtype t))) as [st Hst].
    cbn [mbind result_bind]. rewrite Hst. cbn. by split_and!.
  - cbv [length Z.of_nat Pos.of_succ_nat Pos.succ]. rewrite !bind_unfold.
    unfold lift. rewrite unfold_mret, Es.
    cbv [sizes length Z.of_nat Pos.of_succ_nat Pos.succ].
    destruct (unsqueeze_back_sizes t) as [st Hst].
    rewrite Hst, Es. cbn. by split_and!.
  - assert (3 ≤ Z.of_nat (length (n :: m :: p :: rest))) as Hr by (simpl; lia).
    destruct (Z.of_nat (length (n :: m :: p :: rest))) as [|[q|[q|q|]|]|q] eqn:E; try lia;
      rewrite !bind_ret, ?Es, ?E; by split_and!.
Qed.

(** ** The overloads on lists of tensors *)

Lemma atleast_3d_total h t :
  ∃ r, atleast_3d t h = (Ok r, h)
    ∧ sizes r = match sizes t with
                | [] => [1; 1; 1]
                | [n] => [1; n; 1]
                | [a; b] => [a; b; 1]
                | s => s
                end.
Proof.
  unfold atleast_3d, dim.
  destruct (sizes t) as [|n [|m [|p rest]]] eqn:Es.
  - cbv [length Z.of_nat]. rewrite reshape_scalar by done. by eexists.
  - cbv [length Z.of_nat Pos.of_succ_nat]. unfold lift. rewrite unsqueeze_front, Es.
    destruct (unsqueeze_back_sizes
      (mkTensor (storage t) (storage_offset t) (1 :: [n])
         (match [n] !! 0%nat, strides t !! 0%nat with
          | Some n0, Some s => n0 * s
          | _, _ => 1
          end :: strides t) (dtype t))) as [st Hst].
    cbn [mbind result_bind]. rewrite Hst. by eexists.
  - cbv [length Z.of_nat Pos.of_succ_nat Pos.succ]. unfold lift.
    destruct (unsqueeze_back_sizes t) as [st Hst]. rewrite Hst, Es. by eexists.
  - assert (3 ≤ Z.of_nat (length (n :: m :: p :: rest))) as Hr by (simpl; lia).
    destruct (Z.of_nat (length (n :: m :: p :: rest))) as [|[q|[q|q|]|]|q] eqn:E; try lia;
      exists t; by rewrite Es.
Qed.

Lemma mapM_run {A B} (f : A → M B) (P : A → B → Prop) ts h :
  (∀ t, ∃ r, f t h = (Ok r, h) ∧ P t r) →
  ∃ rs, mapM f ts h = (Ok rs, h) ∧ Forall2 (λ t r, f t h = (Ok r, h) ∧ P t r) ts rs.
Proof.
  intros Hf. induction ts as [|t ts (rs & Hrun & Hall)].
  - exists []. split; [done|constructor].
  - destruct (Hf t) as (r & Hr & HP). exists (r :: rs). split.
    + cbn [mapM]. rewrite (bind_ok _ _ _ _ _ Hr), (bind_ok _ _ _ _ _ Hrun). done.
    + by constructor.
Qed.

(** X21: the overloads on lists never fail and leave the heap as it is:
    [atleast_1d], [atleast_2d] and [atleast_3d] of a list return the list,
    of the same length and in the same order, of what the single-tensor
    function returns on each entry; every entry of the result has at least
    the rank asked for and as many elements as the entry it comes from. *)
Theorem atleast_lists h ts :
  (∃ rs, atleast_1d_list ts h = (Ok rs, h)
     ∧ Forall2 (λ t r, atleast_1d t h = (Ok r, h) ∧ 1 ≤ dim r ∧ numel r = numel t) ts rs)
  ∧ (∃ rs, atleast_2d_list ts h = (Ok rs, h)
     ∧ Forall2 (λ t r, atleast_2d t h = (Ok r, h) ∧ 2 ≤ dim r ∧ numel r = numel t) ts rs)
  ∧ (∃ rs, atleast_3d_list ts h = (Ok rs, h)
     ∧ Forall2 (λ t r, atleast_3d t h = (Ok r, h) ∧ 3 ≤ dim r ∧ numel r = numel t) ts rs).
Proof.
  unfold atleast_1d_list, atleast_2d_list, atleast_3d_list. split_and!.
  - apply (mapM_run atleast_1d (λ t r, 1 ≤ dim r ∧ numel r = numel t)). intros t.
    destruct (atleast_1d_2d_run h t) as [(r & Hrun & _ & _ & Hs & _) _].
    exists r. split; [done|]. unfold dim, numel. rewrite Hs.
    destruct (sizes t) as [|n rest]; simpl; lia.
  - apply (mapM_run atleast_2d (λ t r, 2 ≤ dim r ∧ numel r = numel t)). intros t.
    destruct (atleast_1d_2d_run h t) as [_ (r & Hrun & _ & _ & Hs & _)].
    exists r. split; [done|]. unfold dim, numel. rewrite Hs.
    destruct (sizes t) as [|n [|m rest]]; simpl; lia.
  - apply (mapM_run atleast_3d (λ t r, 3 ≤ dim r ∧ numel r = numel t)). intros t.
    destruct (atleast_3d_total h t) as (r & Hrun & Hs).
    exists r. split; [done|]. unfold dim, numel. rewrite Hs.
    destruct (sizes t) as [|n [|m [|p rest]]]; simpl; lia.
Qed.

(** ** Copies that keep track of every cell *)

Lemma offset_inj shape J1 J2 :
  Forall (λ n, 0 ≤ n) shape → J1 ∈ indices shape → J2 ∈ indices shape →
  offset_of (stride_contiguous shape) J1 = offset_of (stride_contiguous shape) J2 →
  J1 = J2.
Proof.
  intros Hsz H1 H2 E.
  destruct (indices_lookup_offset _ _ Hsz H1) as [_ L1].
  destruct (indices_lookup_offset _ _ Hsz H2) as [_ L2].
  rewrite E in L1. congruence.
Qed.

Lemma NoDup_indices shape : Forall (λ n, 0 ≤ n) shape → NoDup (indices shape).
Proof.
  intros Hsz. apply (NoDup_fmap_1 (offset_of (stride_contiguous shape))).
  rewrite offsets_contiguous by done. apply NoDup_seqZ.
Qed.

(** The loop of [copy_]: every listed cell of the destination receives the
    element of the source, every other cell keeps what it held. *)
Lemma copy_loop_cells h0 l dst src xs :
  h0 !! l = None → storage dst = l → tensor_wf h0 src → dtype dst = dtype src →
  ∀ cs : list (option Z),
  Forall (λ idx, idx ∈ indices (sizes src)
                 ∧ 0 ≤ storage_offset dst + offset_of (strides dst) idx
                     < Z.of_nat (length cs)) xs →
  NoDup ((λ idx, Z.to_nat (storage_offset dst + offset_of (strides dst) idx)) <$> xs) →
  ∃ cs', length cs' = length cs
    ∧ forM_ xs (λ idx,
        v ← load (element_size (dtype src)) (elem_ptr src idx);
        store (element_size (dtype dst)) (elem_ptr dst idx) v)
        (<[l := Buffer (element_size (dtype src)) cs]> h0)
      = (Ok (), <[l := Buffer (element_size (dtype src)) cs']> h0)
    ∧ (∀ idx, idx ∈ xs →
         cs' !! Z.to_nat (storage_offset dst + offset_of (strides dst) idx)
         = Some (elem h0 src idx))
    ∧ (∀ p, p ∉ (λ idx, Z.to_nat (storage_offset dst + offset_of (strides dst) idx)) <$> xs →
         cs' !! p = cs !! p).
Proof.
  intros Hl Hdst Hwf Hdt.
  pose proof (element_size_pos (dtype src)) as Hes.
  destruct (wf_buffer _ _ Hwf) as (bs & Hbs & Hws).
  induction xs as [|idx xs IH]; intros cs Hxs Hnd.
  - exists cs. split; [done|]. split; [done|]. split; [|done].
    intros idx Hin. by apply elem_of_nil in Hin.
  - apply Forall_cons in Hxs as [[Hin Hb] Hxs].
    rewrite fmap_cons in Hnd. apply NoDup_cons in Hnd as [Hnin Hnd].
    destruct (wf_elem _ _ Hwf idx Hin) as [v Hv].
    set (p0 := Z.to_nat (storage_offset dst + offset_of (strides dst) idx)) in *.
    destruct (IH (<[p0 := Some v]> cs)) as (cs' & Hlen & Hrun & Hset & Hkeep).
    { by rewrite length_insert. }
    { done. }
    exists cs'. split; [by rewrite Hlen, length_insert|]. split; [|split].
    + rewrite forM_cons, bind_unfold, elem_ptr_eq, load_insert_ne.
      2:{ simpl. intros E. rewrite E in Hbs. by rewrite Hl in Hbs. }
      erewrite load_read_cell; [|done|done|done|reflexivity|exact Hv].
      cbn [fst]. rewrite elem_ptr_eq, Hdst. rewrite Hdt in Hrun |- *.
      rewrite (store_at h0 l _ _ (storage_offset dst + offset_of (strides dst) idx) v cs);
        [exact Hrun|done|lia|reflexivity|lia].
    + intros idx' [->|Hin']%elem_of_cons; [|by apply Hset].
      fold p0. rewrite Hkeep by done. rewrite Hv.
      apply list_lookup_insert_eq. unfold p0. lia.
    + intros p Hp. rewrite fmap_cons in Hp. apply not_elem_of_cons in Hp as [Hne Hp].
      rewrite Hkeep by done. by apply list_lookup_insert_ne.
Qed.

Lemma shift_inj (k : nat) off (idx1 idx2 : list Z) :
  length idx1 = length idx2 →
  <[k := default 0 (idx1 !! k) + off]> idx1 = <[k := default 0 (idx2 !! k) + off]> idx2 →
  idx1 = idx2.
Proof.
  intros Hlen E. apply (list_eq_same_length _ _ (length idx1)); [done..|].
  intros i x y Hi Hx Hy.
  assert (<[k := default 0 (idx1 !! k) + off]> idx1 !! i
          = <[k := default 0 (idx2 !! k) + off]> idx2 !! i) as Ei by (by rewrite E).
  destruct (decide (i = k)) as [->|Hne].
  - rewrite !list_lookup_insert_eq in Ei by lia. rewrite Hx, Hy in Ei. simpl in Ei.
    injection Ei as Ei. lia.
  - rewrite !list_lookup_insert_ne in Ei by done. congruence.
Qed.

Lemma slice_index_valid shape (k : nat) n off J :
  J ∈ indices shape → off ≤ default 0 (J !! k) < off + n → (k < length shape)%nat →
  <[k := default 0 (J !! k) - off]> J ∈ indices (<[k := n]> shape).
Proof.
  intros Hin Hb Hk. pose proof (indices_length _ _ Hin) as Hlen.
  apply elem_of_indices in Hin. apply elem_of_indices.
  apply Forall2_same_length_lookup. split; [by rewrite !length_insert|].
  intros i c m Hc Hm. destruct (decide (i = k)) as [->|Hne].
  - rewrite list_lookup_insert_eq in Hc by lia. rewrite list_lookup_insert_eq in Hm by lia.
    simplify_eq. lia.
  - rewrite list_lookup_insert_ne in Hc by done. rewrite list_lookup_insert_ne in Hm by done.
    apply (Forall2_lookup_lr _ _ _ _ _ _ Hin Hc Hm).
Qed.

Lemma index_coord_bounds shape (k : nat) n idx :
  idx ∈ indices shape → shape !! k = Some n → 0 ≤ default 0 (idx !! k) < n.
Proof.
  intros Hin Hn. pose proof (indices_length _ _ Hin) as Hlen.
  apply elem_of_indices in Hin.
  destruct (lookup_lt_is_Some_2 idx k) as [c Hc].
  { rewrite Hlen. by apply lookup_lt_Some in Hn. }
  rewrite Hc. simpl. apply (Forall2_lookup_lr _ _ _ _ _ _ Hin Hc Hn).
Qed.

(** Copying [t] into the slice of a dense array of shape [S] that starts
    at [off] along axis [k]: the cells of the slice receive the elements of
    [t], every other cell keeps what it held. *)
Lemma slice_copy h0 l (k : nat) S total n off s dt t cs :
  h0 !! l = None → Forall (λ m, 0 ≤ m) S → S !! k = Some total →
  stride_contiguous S !! k = Some s →
  tensor_wf h0 t → sizes t = <[k := n]> S → dtype t = dt →
  0 ≤ off → off + n ≤ total →
  length cs = Z.to_nat (numel_of S) →
  ∃ cs', length cs' = length cs
    ∧ copy_ (mkTensor l (0 + off * s) (<[k := n]> S) (stride_contiguous S) dt) t
        (<[l := Buffer (element_size dt) cs]> h0)
      = (Ok (), <[l := Buffer (element_size dt) cs']> h0)
    ∧ ∀ J, J ∈ indices S →
        cs' !! Z.to_nat (offset_of (stride_contiguous S) J)
        = if decide (off ≤ default 0 (J !! k) < off + n)
          then Some (elem h0 t (<[k := default 0 (J !! k) - off]> J))
          else cs !! Z.to_nat (offset_of (stride_contiguous S) J).
Proof.
  intros Hl HS Htot Hs Hwf Hst Hdt Hoff Hfit Hcs.
  assert ((k < length S)%nat) as Hk by (by apply lookup_lt_Some in Htot).
  set (dst := mkTensor l (0 + off * s) (<[k := n]> S) (stride_contiguous S) dt).
  (* where the element at [idx] of the slice lies in the array *)
  assert (∀ idx, idx ∈ indices (sizes t) →
    <[k := default 0 (idx !! k) + off]> idx ∈ indices S
    ∧ storage_offset dst + offset_of (strides dst) idx
      = offset_of (stride_contiguous S) (<[k := default 0 (idx !! k) + off]> idx)
    ∧ 0 ≤ storage_offset dst + offset_of (strides dst) idx < Z.of_nat (length cs))
    as Hpos.
  { intros idx Hin. rewrite Hst in Hin.
    pose proof (indices_length _ _ Hin) as Hlen. rewrite length_insert in Hlen.
    pose proof (narrow_index_valid _ _ _ _ _ _ Htot Hoff Hfit Hin) as Hv.
    pose proof (narrow_bounds S k total off n idx HS Htot Hoff Hfit Hin) as Hb.
    rewrite Hs in Hb. simpl in Hb.
    split; [done|]. simpl.
    rewrite (narrow_offset _ _ _ s) by (by rewrite ?length_stride_contiguous).
    split; [lia|]. rewrite Hcs, Z2Nat.id by (by apply numel_of_nonneg). lia. }
  destruct (copy_loop_cells h0 l dst t (indices (sizes t)) Hl eq_refl Hwf (eq_sym Hdt) cs)
    as (cs' & Hlen & Hrun & Hset & Hkeep).
  { apply Forall_forall. intros idx Hin. split; [done|]. by apply Hpos. }
  { apply NoDup_fmap_2_strong; [|apply NoDup_indices, Hwf].
    intros idx1 idx2 H1 H2 E.
    destruct (Hpos idx1 H1) as (V1 & E1 & B1). destruct (Hpos idx2 H2) as (V2 & E2 & B2).
    apply (shift_inj k off).
    { by rewrite (indices_length _ _ H1), (indices_length _ _ H2). }
    apply (offset_inj S); [done..|]. lia. }
  exists cs'. split; [done|]. split.
  { unfold copy_. rewrite bind_lift, bool_decide_eq_true_2 by done. cbn [TORCH_CHECK].
    subst dst. cbn [sizes dtype] in Hrun |- *. rewrite Hst, Hdt in Hrun. rewrite Hdt. exact Hrun. }
  intros J HJ. pose proof (indices_length _ _ HJ) as HlenJ.
  destruct (lookup_lt_is_Some_2 J k) as [c Hc]; [lia|].
  rewrite Hc. simpl.
  destruct (decide (off ≤ c < off + n)) as [Hin|Hout].
  - assert (<[k := c - off]> J ∈ indices (sizes t)) as Hidx.
    { rewrite Hst. pose proof (slice_index_valid S k n off J HJ) as Hv.
      rewrite Hc in Hv. by apply Hv. }
    destruct (Hpos _ Hidx) as (_ & E & _).
    rewrite list_lookup_insert_eq in E by lia. simpl in E.
    rewrite list_insert_insert_eq in E.
    replace (c - off + off) with c in E by lia. rewrite (list_insert_id J k c Hc) in E.
    rewrite <-E. by apply Hset.
  - apply Hkeep. intros (idx & E & Hidx)%list_elem_of_fmap.
    destruct (Hpos idx Hidx) as (V & E' & B).
    destruct (indices_lookup_offset _ _ HS HJ) as [BJ _].
    assert (J = <[k := default 0 (idx !! k) + off]> idx) as EJ.
    { apply (offset_inj S); [done..|]. lia. }
    rewrite Hst in Hidx.
    pose proof (index_coord_bounds (<[k := n]> S) k n idx Hidx) as Hb.
    rewrite list_lookup_insert_eq in Hb by lia. specialize (Hb eq_refl).
    rewrite EJ in Hc. rewrite list_lookup_insert_eq in Hc by
      (rewrite (indices_length _ _ Hidx), length_insert; lia).
    simplify_eq. lia.
Qed.

(** The concatenation of two slices along axis [k]: where each cell of the
    result comes from. *)
Lemma cat_two_cells h t0 t1 d (k : nat) S n n0 n1 :
  maybe_wrap_dim d (dim t0) = Ok (Z.of_nat k) →
  tensor_wf h t0 → tensor_wf h t1 → dtype t1 = dtype t0 →
  Forall (λ m, 0 ≤ m) S → S !! k = Some n →
  sizes t0 = <[k := n0]> S → sizes t1 = <[k := n1]> S →
  0 ≤ n0 → 0 ≤ n1 → n0 + n1 = n →
  ∃ cs, cat [t0; t1] d h =
      (Ok (mkTensor (fresh (dom h)) 0 S (stride_contiguous S) (dtype t0)),
       <[fresh (dom h) := Buffer (element_size (dtype t0)) cs]> h)
    ∧ length cs = Z.to_nat (numel_of S)
    ∧ ∀ J, J ∈ indices S →
        cs !! Z.to_nat (offset_of (stride_contiguous S) J)
        = Some (if decide (default 0 (J !! k) < n0) then elem h t0 J
                else elem h t1 (<[k := default 0 (J !! k) - n0]> J)).
Proof.
  intros Hd Hwf0 Hwf1 Hdt HS Hn Hs0 Hs1 Hn0 Hn1 Hsum.
  assert ((k < length S)%nat) as Hk by (by apply lookup_lt_Some in Hn).
  pose proof (fresh_not_in h) as Hl. set (l := fresh (dom h)) in *.
  destruct (lookup_lt_is_Some_2 (stride_contiguous S) k) as [s Hs].
  { by rewrite length_stride_contiguous. }
  set (out := mkTensor l 0 S (stride_contiguous S) (dtype t0)).
  set (cs0 := replicate (Z.to_nat (numel_of S)) (@None Z)).
  assert (length cs0 = Z.to_nat (numel_of S)) as Hlen0 by apply length_replicate.
  destruct (slice_copy h l k S n n0 0 s (dtype t0) t0 cs0 Hl HS Hn Hs Hwf0 Hs0 eq_refl)
    as (cs1 & Hlen1 & Hcopy1 & Hcells1); [lia|lia|done|].
  destruct (slice_copy h l k S n n1 (0 + n0) s (dtype t0) t1 cs1 Hl HS Hn Hs Hwf1 Hs1 Hdt)
    as (cs2 & Hlen2 & Hcopy2 & Hcells2); [lia|lia|by rewrite Hlen1|].
  assert (∀ off m, 0 ≤ off → 0 ≤ m → off + m ≤ n →
    narrow out (Z.of_nat k) off m
    = Ok (mkTensor l (0 + off * s) (<[k := m]> S) (stride_contiguous S) (dtype t0)))
    as Hnarrow.
  { intros off m H1 H2 H3. apply (narrow_run out _ _ _ k n s); try done.
    apply maybe_wrap_dim_nat. unfold dim, out. simpl. lia. }
  exists cs2. split; [|split; [by rewrite Hlen2, Hlen1|]].
  - unfold cat. rewrite bind_lift, Hd. rewrite bind_lift, Nat2Z.id.
    rewrite bool_decide_eq_true_2.
    2:{ repeat constructor; unfold same_shape_except; rewrite ?Hs0, ?Hs1;
          by rewrite ?list_insert_insert_eq. }
    cbn [TORCH_CHECK]. rewrite bind_lift. cbn [cat_size].
    rewrite (at_lookup (sizes t0) (Z.of_nat k) n0);
      [|lia|by rewrite Nat2Z.id, Hs0, list_lookup_insert_eq].
    rewrite (at_lookup (sizes t1) (Z.of_nat k) n1);
      [|lia|by rewrite Nat2Z.id, Hs1, list_lookup_insert_eq].
    cbn [mbind result_bind].
    rewrite Hs0, list_insert_insert_eq.
    replace (n0 + (n1 + 0)) with n by lia. rewrite (list_insert_id S k n Hn).
    rewrite (bind_ok _ _ _ _ _ (empty_run _ _ _)). fold l out cs0.
    cbn [cat_copy].
    rewrite bind_unfold, bind_lift.
    rewrite (at_lookup (sizes t0) (Z.of_nat k) n0);
      [|lia|by rewrite Nat2Z.id, Hs0, list_lookup_insert_eq].
    rewrite bind_lift, Hnarrow by lia.
    rewrite (bind_ok _ _ _ _ _ Hcopy1).
    rewrite bind_lift.
    rewrite (at_lookup (sizes t1) (Z.of_nat k) n1);
      [|lia|by rewrite Nat2Z.id, Hs1, list_lookup_insert_eq].
    rewrite bind_lift, Hnarrow by lia.
    rewrite (bind_ok _ _ _ _ _ Hcopy2). done.
  - intros J HJ. pose proof (indices_length _ _ HJ) as HlenJ.
    pose proof (index_coord_bounds S k n J HJ Hn) as Hb.
    rewrite (Hcells2 J HJ), (Hcells1 J HJ).
    destruct (lookup_lt_is_Some_2 J k) as [c Hc]; [lia|].
    rewrite Hc in Hb |- *. simpl in Hb |- *.
    destruct (decide (c < n0)) as [Hlt|Hge].
    + rewrite decide_False by lia. rewrite decide_True by lia.
      by rewrite Z.sub_0_r, (list_insert_id J k c Hc).
    + rewrite decide_True by lia. by rewrite Z.add_0_l.
Qed.

(** ** roll: where each element comes from *)

Lemma shift_at_valid (k : nat) shape n s J :
  J ∈ indices shape → shape !! k = Some n → shift_at k shape s J ∈ indices shape.
Proof.
  intros HJ Hn. pose proof (indices_length _ _ HJ) as Hlen.
  pose proof (index_coord_bounds _ _ _ _ HJ Hn) as Hb.
  unfold shift_at. rewrite Hn. simpl.
  apply elem_of_indices in HJ. apply elem_of_indices.
  apply Forall2_same_length_lookup. split; [by rewrite length_insert|].
  intros i c m Hc Hm. destruct (decide (i = k)) as [->|Hne].
  - rewrite list_lookup_insert_eq in Hc by (apply lookup_lt_Some in Hm; lia).
    simplify_eq. apply Z.mod_pos_bound. lia.
  - rewrite list_lookup_insert_ne in Hc by done.
    apply (Forall2_lookup_lr _ _ _ _ _ _ HJ Hc Hm).
Qed.

Lemma roll_position n s c :
  0 < n → 0 ≤ c < n →
  (c - s) mod n
  = if decide (c < n - (n - s) mod n) then c + (n - s) mod n
    else c - (n - (n - s) mod n).
Proof.
  intros Hn Hc. pose proof (Z.mod_pos_bound (n - s) n Hn) as Hb.
  assert ((c - s) mod n = (c + (n - s) mod n) mod n) as ->.
  { rewrite Zplus_mod_idemp_r. replace (c + (n - s)) with (c - s + 1 * n) by lia.
    by rewrite Z.mod_add by lia. }
  case_decide.
  - apply Z.mod_small. lia.
  - replace (c + (n - s) mod n) with (c - (n - (n - s) mod n) + 1 * n) by lia.
    rewrite Z.mod_add by lia. apply Z.mod_small. lia.
Qed.

Section roll_source.
Variable roll_common : Tensor → list Z → list Z → M Tensor.

(** What the single-axis path returns on a non-empty tensor. *)
Lemma roll_cpu_source h X s d (k : nat) n :
  tensor_wf h X → numel X ≠ 0 →
  maybe_wrap_dim d (dim X) = Ok (Z.of_nat k) → sizes X !! k = Some n →
  Int64.in_range (n - s) →
  ∃ r h', roll_cpu roll_common X [s] [d] h = (Ok r, h')
    ∧ sizes r = sizes X ∧ dtype r = dtype X ∧ tensor_wf h' r
    ∧ h ⊆ h' ∧ (storage r ∉ dom h)
    ∧ ∀ J, J ∈ indices (sizes X) → elem h' r J = elem h X (shift_at k (sizes X) s J).
Proof.
  intros Hwf HN Hd Hn Hrange.
  destruct (roll_cpu_single roll_common h X s d k n Hwf HN Hd Hn)
    as (st & t0 & t1 & Hst & Hn0 & Hstart & -> & -> & _ & _ & Hwf0 & Hwf1 & Hrun).
  assert (Int64.sub n s = n - s) as Esub.
  { unfold Int64.sub. apply int64_wrap_id.
    unfold Int64.in_range, Int64.min_signed, Int64.max_signed in Hrange. lia. }
  rewrite Esub in *. set (start := (n - s) mod n) in *.
  pose proof (wf_sizes _ _ Hwf) as HS.
  assert ((k < length (sizes X))%nat) as Hk by (by apply lookup_lt_Some in Hn).
  assert (∀ o m, maybe_wrap_dim d
            (dim (mkTensor (storage X) o (<[k := m]> (sizes X)) (strides X) (dtype X)))
          = Ok (Z.of_nat k)) as Hw.
  { intros o m. unfold dim. cbn [sizes]. by rewrite length_insert. }
  destruct (cat_two_cells h _ _ d k (sizes X) n (n - start) start
              (Hw _ _) Hwf0 Hwf1 eq_refl HS Hn eq_refl eq_refl)
    as (cs & Hcat & Hlen & Hcells); [lia..|].
  cbn [dtype] in Hcat. rewrite Hcat in Hrun.
  pose proof (fresh_not_in h) as Hl. set (l := fresh (dom h)) in *.
  (* the element at [J] of the result *)
  assert (∀ J, J ∈ indices (sizes X) →
    elem (<[l := Buffer (element_size (dtype X)) cs]> h)
      (mkTensor l 0 (sizes X) (stride_contiguous (sizes X)) (dtype X)) J
    = elem h X (shift_at k (sizes X) s J)) as He.
  { intros J HJ. pose proof (indices_length _ _ HJ) as HlenJ.
    destruct (indices_lookup_offset _ _ HS HJ) as [Hb _].
    pose proof (index_coord_bounds _ _ _ _ HJ Hn) as Hc.
    unfold elem at 1, read_cell. cbn [storage storage_offset strides].
    rewrite lookup_insert_eq. cbn [mbind option_bind cells].
    rewrite decide_True by lia. rewrite Z.add_0_l, (Hcells J HJ). cbn [mjoin option_join].
    unfold shift_at. rewrite Hn. change (default 0 (Some n)) with n.
    rewrite (roll_position n s _ Hn0 Hc). fold start.
    destruct (decide (default 0 (J !! k) < n - start)) as [Hlt|Hge].
    - rewrite (narrow_elem h X k st start (n - start) J); [done|apply Hwf|done|].
      pose proof (slice_index_valid (sizes X) k (n - start) 0 J HJ) as Hv.
      rewrite Z.sub_0_r, (list_insert_id J k) in Hv; [apply Hv; lia|].
      destruct (lookup_lt_is_Some_2 J k) as [c Ec]; [lia|]. by rewrite Ec.
    - pose proof (slice_index_valid (sizes X) k start (n - start) J HJ) as Hv.
      rewrite (narrow_elem h X k st 0 start); [|apply Hwf|done|apply Hv; lia].
      rewrite list_lookup_insert_eq by lia.
      change (default 0 (Some ?x)) with x.
      by rewrite Z.add_0_r, list_insert_insert_eq. }
  eexists _, _. split; [exact Hrun|]. split; [done|]. split; [done|].
  split; [|split; [by apply insert_subseteq|split; [by apply not_elem_of_dom|exact He]]].
  split; cbn [sizes strides storage dtype].
  - by rewrite length_stride_contiguous.
  - done.
  - eexists. by rewrite lookup_insert_eq.
  - intros J HJ. rewrite He by done.
    apply (wf_elem _ _ Hwf). by eapply shift_at_valid.
Qed.

End roll_source.

(** ** roll: shifts and their sums *)



Section roll_extras.
Variable roll_common : Tensor → list Z → list Z → M Tensor.

(** X22: what the single-axis [roll_cpu] computes. On a well-formed
    non-empty tensor, with a shift [s] along a valid axis [d] of size [n]
    (and [n - s] a 64-bit value), it returns a well-formed tensor of the
    same shape and type, in storage that did not exist, whose element at
    position [i] along the axis is the element of the input at position
    [(i - s) mod n], all other coordinates equal; the buffers that existed
    are unchanged. *)
Theorem roll_elements h X s d (k : nat) n :
  tensor_wf h X → numel X ≠ 0 →
  maybe_wrap_dim d (dim X) = Ok (Z.of_nat k) → sizes X !! k = Some n →
  Int64.in_range (n - s) →
  ∃ r h', roll_cpu roll_common X [s] [d] h = (Ok r, h')
    ∧ sizes r = sizes X ∧ dtype r = dtype X ∧ tensor_wf h' r
    ∧ h ⊆ h' ∧ (storage r ∉ dom h)
    ∧ ∀ J, J ∈ indices (sizes X) → elem h' r J = elem h X (shift_at k (sizes X) s J).
Proof.
  intros Hwf HN Hd Hn Hr.
  destruct (roll_cpu_source roll_common h X s d k n Hwf HN Hd Hn Hr)
    as (r & h' & Hrun & Hs & Hdt & Hwfr & Hsub & Hfresh & He).
  exists r, h'. split; [done|]. split; [done|]. split; [done|]. split; [done|].
  split; [done|]. split; [done|]. exact He.
Qed.

(** X23: [roll_cpu] along one axis is periodic in the shift: two shifts
    that differ by a multiple of the size of the axis give the same call,
    heap and result alike. *)
Theorem roll_periodic h X s s' d (k : nat) n :
  tensor_wf h X →
  maybe_wrap_dim d (dim X) = Ok (Z.of_nat k) → sizes X !! k = Some n →
  Int64.in_range (n - s) → Int64.in_range (n - s') → (s' - s) mod n = 0 →
  roll_cpu roll_common X [s'] [d] h = roll_cpu roll_common X [s] [d] h.
Proof.
  intros Hwf Hd Hn Hr Hr' Hmod.
  destruct (decide (numel X = 0)) as [HN|HN].
  { by rewrite !roll_cpu_empty. }
  destruct (roll_cpu_single roll_common h X s d k n Hwf HN Hd Hn)
    as (st & t0 & t1 & Hst & Hn0 & _ & -> & -> & _ & _ & _ & _ & Hrun).
  destruct (roll_cpu_single roll_common h X s' d k n Hwf HN Hd Hn)
    as (st' & t0' & t1' & Hst' & _ & _ & -> & -> & _ & _ & _ & _ & Hrun').
  rewrite Hrun, Hrun'.
  assert (st' = st) as -> by congruence.
  assert (Int64.sub n s' mod n = Int64.sub n s mod n) as ->; [|done].
  unfold Int64.sub. rewrite !int64_wrap_id
    by (unfold Int64.in_range, Int64.min_signed, Int64.max_signed in *; lia).
  replace (n - s') with (n - s - (s' - s)) by lia.
  by rewrite Zminus_mod, Hmod, Z.sub_0_r, Z.mod_mod by lia.
Qed.



(** X26: on a tensor that has elements, [roll_cpu] along one axis checks
    the axis when it reads the size: an axis outside [-rank, rank) raises
    [InvalidArgument] before anything is allocated, the heap as it was. *)
Theorem roll_invalid_axis h X s d :
  numel X ≠ 0 → ¬ (- dim X ≤ d < dim X) →
  roll_cpu roll_common X [s] [d] h = (Err InvalidArgument, h).
Proof.
  intros HN Hd. unfold roll_cpu.
  rewrite decide_False by (simpl; lia). rewrite decide_False by done.
  rewrite bind_lift, at_0, bind_lift. unfold size.
  destruct (maybe_wrap_dim d (dim X)) as [j|e] eqn:E.
  - by apply maybe_wrap_dim_ok_range in E.
  - by apply maybe_wrap_dim_error in E as [-> _].
Qed.

End roll_extras.

Lemma roll_elements_witness :
  tensor_wf sample_2x3.2 sample_2x3.1 ∧ numel sample_2x3.1 ≠ 0
  ∧ maybe_wrap_dim (-1) (dim sample_2x3.1) = Ok (Z.of_nat 1)
  ∧ sizes sample_2x3.1 !! 1%nat = Some 3 ∧ Int64.in_range (3 - 1)
  ∧ ∀ roll_common, ∃ r h',
      roll_cpu roll_common sample_2x3.1 [1] [-1] sample_2x3.2 = (Ok r, h')
      ∧ elem h' r [0; 0] = elem sample_2x3.2 sample_2x3.1 [0; 2].
Proof.
  assert (tensor_wf sample_2x3.2 sample_2x3.1) as Hwf
    by (apply tensor_wf_check_true; vm_compute; reflexivity).
  assert (numel sample_2x3.1 ≠ 0) as HN by (vm_compute; discriminate).
  assert (Int64.in_range (3 - 1)) as HR
    by (unfold Int64.in_range, Int64.min_signed, Int64.max_signed; lia).
  split; [exact Hwf|]. split; [exact HN|].
  split; [vm_compute; reflexivity|]. split; [reflexivity|]. split; [exact HR|].
  intros roll_common.
  destruct (roll_elements roll_common sample_2x3.2 sample_2x3.1 1 (-1) 1%nat 3
              Hwf HN eq_refl eq_refl HR)
    as (r & h' & Hrun & _ & _ & _ & _ & _ & He).
  exists r, h'. split; [exact Hrun|].
  apply (He [0; 0]). apply (bool_decide_unpack _). vm_compute. exact I.
Defined.

Lemma roll_periodic_witness :
  tensor_wf sample_2x3.2 sample_2x3.1
  ∧ maybe_wrap_dim 1 (dim sample_2x3.1) = Ok (Z.of_nat 1)
  ∧ sizes sample_2x3.1 !! 1%nat = Some 3
  ∧ Int64.in_range (3 - 1) ∧ Int64.in_range (3 - (-5)) ∧ (-5 - 1) mod 3 = 0
  ∧ ∀ roll_common,
      roll_cpu roll_common sample_2x3.1 [-5] [1] sample_2x3.2
      = roll_cpu roll_common sample_2x3.1 [1] [1] sample_2x3.2.
Proof.
  assert (tensor_wf sample_2x3.2 sample_2x3.1) as Hwf
    by (apply tensor_wf_check_true; vm_compute; reflexivity).
  assert (Int64.in_range (3 - 1)) as HR
    by (unfold Int64.in_range, Int64.min_signed, Int64.max_signed; lia).
  assert (Int64.in_range (3 - (-5))) as HR'
    by (unfold Int64.in_range, Int64.min_signed, Int64.max_signed; lia).
  split; [exact Hwf|]. split; [vm_compute; reflexivity|]. split; [reflexivity|].
  split; [exact HR|]. split; [exact HR'|]. split; [reflexivity|].
  intros roll_common.
  exact (roll_periodic roll_common sample_2x3.2 sample_2x3.1 1 (-5) 1 1%nat 3
           Hwf eq_refl eq_refl HR HR' eq_refl).
Defined.



Lemma roll_invalid_axis_witness :
  numel sample_2x3.1 ≠ 0 ∧ ¬ (- dim sample_2x3.1 ≤ 2 < dim sample_2x3.1)
  ∧ ∀ roll_common,
      roll_cpu roll_common sample_2x3.1 [1] [2] sample_2x3.2
      = (Err InvalidArgument, sample_2x3.2).
Proof.
  assert (numel sample_2x3.1 ≠ 0) as HN by (vm_compute; discriminate).
  assert (¬ (- dim sample_2x3.1 ≤ 2 < dim sample_2x3.1)) as HD
    by (unfold dim; simpl; lia).
  split; [exact HN|]. split; [exact HD|].
  intros roll_common.
  exact (roll_invalid_axis roll_common sample_2x3.2 sample_2x3.1 1 2 HN HD).
Defined.
